(** * bcm2-utils: the settings container codecs of gwsettings.cc

    A shallow embedding of [permdyn], [gwsettings] and the group-stream reader
    [settings::read], with the checksum and cipher kernels they call, and the
    properties of the codec proved over it; then the helpers of util.h and
    util.cc, the key function of profiledef.c and the name lookup of
    nonvoltest.cc. *)

From Stdlib Require Import ZArith List String Ascii Bool Lia Permutation.
From Stdlib Require Import Strings.Byte DecimalString DecimalN.
Import ListNotations.

Local Open Scope Z_scope.

(** ** Byte buffers

    A [std::string] used as a buffer is a list of bytes; numbers are [Z] with
    the wrap-around of their C++ type written out. *)

Definition bytes := list byte.

Definition Z_of_byte (b : byte) : Z := Z.of_N (Byte.to_N b).

Definition byte_of_Z (z : Z) : byte :=
  match Byte.of_N (Z.to_N (z mod 256)) with
  | Some b => b
  | None => x00
  end.

Definition bytes_eqb (a b : bytes) : bool :=
  if list_eq_dec Byte.byte_eq_dec a b then true else false.

Definition is_empty {A : Type} (l : list A) : bool :=
  match l with [] => true | _ => false end.

(** [std::string::substr(pos, n)] for [pos <= size()]. *)
Definition substr (pos n : nat) (s : bytes) : bytes := firstn n (skipn pos s).

(** [std::string(n, c)]. *)
Definition fill (n : nat) (c : byte) : bytes := repeat c n.

Definition uint32_max : Z := 0xffffffff.
Definition wrap32 (z : Z) : Z := z mod 2 ^ 32.
(** [size_t] on the 64-bit targets the tool is built for. *)
Definition wrap_size_t (z : Z) : Z := z mod 2 ^ 64.

(** ** boost::crc_optimal

    The bit-at-a-time reading of [boost::crc_optimal<Bits, TruncPoly, InitRem,
    FinalXor, ReflectIn, ReflectRem>]: the remainder register is shifted left,
    input bytes and the final remainder are bit-reversed when the reflect
    flags are set, and [checksum()] applies the final XOR. *)

Fixpoint reflect_bits (width : nat) (x : Z) : Z :=
  match width with
  | O => 0
  | S w => Z.lor (Z.shiftl (Z.land x 1) (Z.of_nat w)) (reflect_bits w (Z.shiftr x 1))
  end.

Record crc_params := {
  crc_bits : nat;
  crc_trunc_poly : Z;
  crc_init_rem : Z;
  crc_final_xor : Z;
  crc_reflect_in : bool;
  crc_reflect_rem : bool
}.

Definition crc_shift (p : crc_params) (rem : Z) (bit : bool) : Z :=
  let top := Z.testbit rem (Z.of_nat (crc_bits p) - 1) in
  let r := Z.shiftl rem 1 mod 2 ^ Z.of_nat (crc_bits p) in
  if xorb top bit then Z.lxor r (crc_trunc_poly p) else r.

Definition crc_process_byte (p : crc_params) (rem : Z) (b : byte) : Z :=
  let v := if crc_reflect_in p then reflect_bits 8 (Z_of_byte b) else Z_of_byte b in
  fold_left (fun r i => crc_shift p r (Z.testbit v (Z.of_nat i))) [7; 6; 5; 4; 3; 2; 1; 0]%nat rem.

Definition crc_checksum (p : crc_params) (rem : Z) : Z :=
  Z.lxor (if crc_reflect_rem p then reflect_bits (crc_bits p) rem else rem) (crc_final_xor p).

(** [std::for_each(buf.begin(), buf.end(), crc)()]. *)
Definition crc_optimal (p : crc_params) (buf : bytes) : Z :=
  crc_checksum p (fold_left (crc_process_byte p) buf (crc_init_rem p)).

(** [boost::crc_32_type]. *)
Definition crc_32_type : crc_params :=
  {| crc_bits := 32; crc_trunc_poly := 0x04C11DB7; crc_init_rem := 0xFFFFFFFF;
     crc_final_xor := 0xFFFFFFFF; crc_reflect_in := true; crc_reflect_rem := true |}.

(** [permdyn::crc32]. *)
Definition crc32 (buf : bytes) : Z :=
  Z.lxor (crc_optimal crc_32_type buf) 0xffffffff.

(** The CRC-32 register with the final XOR left out: what the XOR in
    [permdyn::crc32] turns [crc_32_type]'s checksum back into. *)
Definition crc_32_no_final_xor : crc_params :=
  {| crc_bits := 32; crc_trunc_poly := 0x04C11DB7; crc_init_rem := 0xFFFFFFFF;
     crc_final_xor := 0; crc_reflect_in := true; crc_reflect_rem := true |}.

Definition ascii_bytes (s : string) : bytes := list_byte_of_string s.

(** ** MD5 (RFC 1321), as OpenSSL's MD5_Init / MD5_Update / MD5_Final compute it *)

Definition rotl32 (x c : Z) : Z :=
  Z.lor (wrap32 (Z.shiftl x c)) (Z.shiftr x (32 - c)).

Definition not32 (x : Z) : Z := Z.lxor x uint32_max.

Fixpoint le_bytes (n : nat) (v : Z) : list Z :=
  match n with
  | O => []
  | S n' => v mod 256 :: le_bytes n' (v / 256)
  end.

Fixpoint le_value (l : list Z) : Z :=
  match l with
  | [] => 0
  | b :: l' => b + 256 * le_value l'
  end.

Fixpoint chunks_of {A : Type} (fuel n : nat) (l : list A) : list (list A) :=
  match fuel with
  | O => []
  | S fuel' =>
      match l with
      | [] => []
      | _ => firstn n l :: chunks_of fuel' n (skipn n l)
      end
  end.

Definition md5_shifts : list Z :=
  [7; 12; 17; 22; 7; 12; 17; 22; 7; 12; 17; 22; 7; 12; 17; 22;
   5; 9; 14; 20; 5; 9; 14; 20; 5; 9; 14; 20; 5; 9; 14; 20;
   4; 11; 16; 23; 4; 11; 16; 23; 4; 11; 16; 23; 4; 11; 16; 23;
   6; 10; 15; 21; 6; 10; 15; 21; 6; 10; 15; 21; 6; 10; 15; 21].

Definition md5_sines : list Z :=
  [0xd76aa478; 0xe8c7b756; 0x242070db; 0xc1bdceee; 0xf57c0faf; 0x4787c62a; 0xa8304613; 0xfd469501;
   0x698098d8; 0x8b44f7af; 0xffff5bb1; 0x895cd7be; 0x6b901122; 0xfd987193; 0xa679438e; 0x49b40821;
   0xf61e2562; 0xc040b340; 0x265e5a51; 0xe9b6c7aa; 0xd62f105d; 0x02441453; 0xd8a1e681; 0xe7d3fbc8;
   0x21e1cde6; 0xc33707d6; 0xf4d50d87; 0x455a14ed; 0xa9e3e905; 0xfcefa3f8; 0x676f02d9; 0x8d2a4c8a;
   0xfffa3942; 0x8771f681; 0x6d9d6122; 0xfde5380c; 0xa4beea44; 0x4bdecfa9; 0xf6bb4b60; 0xbebfbc70;
   0x289b7ec6; 0xeaa127fa; 0xd4ef3085; 0x04881d05; 0xd9d4d039; 0xe6db99e5; 0x1fa27cf8; 0xc4ac5665;
   0xf4292244; 0x432aff97; 0xab9423a7; 0xfc93a039; 0x655b59c3; 0x8f0ccc92; 0xffeff47d; 0x85845dd1;
   0x6fa87e4f; 0xfe2ce6e0; 0xa3014314; 0x4e0811a1; 0xf7537e82; 0xbd3af235; 0x2ad7d2bb; 0xeb86d391].

Definition md5_state : Type := (Z * Z * Z * Z)%type.

Definition md5_step (m : list Z) (st : md5_state) (i : nat) : md5_state :=
  let '(a, b, c, d) := st in
  let zi := Z.of_nat i in
  let '(f, g) :=
    if zi <? 16 then (Z.lor (Z.land b c) (Z.land (not32 b) d), zi)
    else if zi <? 32 then (Z.lor (Z.land d b) (Z.land (not32 d) c), (5 * zi + 1) mod 16)
    else if zi <? 48 then (Z.lxor (Z.lxor b c) d, (3 * zi + 5) mod 16)
    else (Z.lxor c (Z.lor b (not32 d)), (7 * zi) mod 16) in
  let x := wrap32 (f + a + nth i md5_sines 0 + nth (Z.to_nat g) m 0) in
  (d, wrap32 (b + rotl32 x (nth i md5_shifts 0)), b, c).

Definition md5_block (st : md5_state) (block : list Z) : md5_state :=
  let m := map le_value (chunks_of 16 4 block) in
  let '(a0, b0, c0, d0) := st in
  let '(a, b, c, d) := fold_left (md5_step m) (seq 0 64) st in
  (wrap32 (a0 + a), wrap32 (b0 + b), wrap32 (c0 + c), wrap32 (d0 + d)).

Definition md5_pad (msg : bytes) : list Z :=
  let len := Z.of_nat (List.length msg) in
  map Z_of_byte msg ++ [0x80] ++ repeat 0 (Z.to_nat ((55 - len) mod 64)) ++ le_bytes 8 (8 * len).

Definition md5_digest (msg : bytes) : bytes :=
  let padded := md5_pad msg in
  let '(a, b, c, d) :=
    fold_left md5_block (chunks_of (List.length padded) 64 padded)
              (0x67452301, 0xefcdab89, 0x98badcfe, 0x10325476) in
  map byte_of_Z (le_bytes 4 a ++ le_bytes 4 b ++ le_bytes 4 c ++ le_bytes 4 d).

(** ** Hex text, as [to_hex(const std::string&)] of util.cc prints it and as
    the profile table of profiledef.c spells keys *)

Definition hex_digit (n : Z) : ascii :=
  if n <? 10 then ascii_of_nat (Z.to_nat (48 + n)) else ascii_of_nat (Z.to_nat (87 + n)).

Fixpoint to_hex (buffer : bytes) : string :=
  match buffer with
  | [] => EmptyString
  | c :: rest =>
      let v := Z.land (Z_of_byte c) 0xff in
      String (hex_digit (v / 16)) (String (hex_digit (v mod 16)) (to_hex rest))
  end.

Definition hex_value (c : ascii) : Z :=
  let n := Z.of_nat (nat_of_ascii c) in
  if (48 <=? n) && (n <=? 57) then n - 48
  else if (97 <=? n) && (n <=? 102) then n - 87
  else if (65 <=? n) && (n <=? 70) then n - 55
  else 0.

Fixpoint from_hex (s : string) : bytes :=
  match s with
  | String hi (String lo rest) => byte_of_Z (16 * hex_value hi + hex_value lo) :: from_hex rest
  | _ => []
  end.

(** ** AES-256 (FIPS-197), the block cipher behind OpenSSL's AES_encrypt and
    AES_decrypt

    The state is the 16 input bytes in order (column-major); the decryption
    is the inverse cipher of FIPS-197 section 5.3 on the same key schedule,
    which is the function OpenSSL's equivalent inverse cipher computes. *)

Definition xtime (a : Z) : Z :=
  let s := Z.land (Z.shiftl a 1) 0xff in
  if Z.testbit a 7 then Z.lxor s 0x1b else s.

Fixpoint gf_mul_aux (n : nat) (a b : Z) : Z :=
  match n with
  | O => 0
  | S n' => Z.lxor (if Z.odd b then a else 0) (gf_mul_aux n' (xtime a) (Z.shiftr b 1))
  end.

Definition gf_mul (a b : Z) : Z := gf_mul_aux 8 a b.

Fixpoint gf_pow (a : Z) (n : nat) : Z :=
  match n with
  | O => 1
  | S n' => gf_mul a (gf_pow a n')
  end.

Definition rotl8 (x n : Z) : Z :=
  Z.land (Z.lor (Z.shiftl x n) (Z.shiftr x (8 - n))) 0xff.

Definition sbox_value (a : Z) : Z :=
  let b := gf_pow a 254 in
  Z.lxor (Z.lxor (Z.lxor (Z.lxor (Z.lxor b (rotl8 b 1)) (rotl8 b 2)) (rotl8 b 3)) (rotl8 b 4)) 0x63.

Definition inv_sbox_value (s : Z) : Z :=
  gf_pow (Z.lxor (Z.lxor (Z.lxor (rotl8 s 1) (rotl8 s 3)) (rotl8 s 6)) 0x05) 254.

Definition aes_sbox : list Z :=
  Eval vm_compute in map (fun n => sbox_value (Z.of_nat n)) (seq 0 256).

Definition aes_inv_sbox : list Z :=
  Eval vm_compute in map (fun n => inv_sbox_value (Z.of_nat n)) (seq 0 256).

Definition sub_byte (a : Z) : Z := nth (Z.to_nat a) aes_sbox 0.
Definition inv_sub_byte (a : Z) : Z := nth (Z.to_nat a) aes_inv_sbox 0.

Definition xor_bytes (a b : list Z) : list Z :=
  map (fun ab => Z.lxor (fst ab) (snd ab)) (combine a b).

Definition rot_word (w : list Z) : list Z :=
  match w with
  | a :: rest => rest ++ [a]
  | [] => []
  end.

(** The key schedule for Nk = 8: word [i] of 60, from the words before it. *)
Fixpoint expand_key (fuel i : nat) (ws : list (list Z)) : list (list Z) :=
  match fuel with
  | O => ws
  | S fuel' =>
      let prev := nth (i - 1) ws [] in
      let t :=
        if (i mod 8 =? 0)%nat
        then xor_bytes (map sub_byte (rot_word prev)) [gf_pow 2 (i / 8 - 1); 0; 0; 0]
        else if (i mod 8 =? 4)%nat then map sub_byte prev
        else prev in
      expand_key fuel' (S i) (ws ++ [xor_bytes (nth (i - 8) ws []) t])
  end.

(** [AES_KEY] after [AES_set_encrypt_key(k, 256, &aes)]: the 15 round keys.
    The call reads 32 bytes at [key.data()]; a shorter key is read as if
    followed by zero bytes. *)
Definition aes256_key_schedule (key : bytes) : list Z :=
  let k := firstn 32 (map Z_of_byte key ++ repeat 0 32%nat) in
  List.concat (expand_key 52 8 (chunks_of 8 4 k)).

Definition round_key (sched : list Z) (r : nat) : list Z :=
  firstn 16 (skipn (16 * r) sched).

Definition add_round_key (st rk : list Z) : list Z :=
  map (fun i => Z.lxor (nth i st 0) (nth i rk 0)) (seq 0 16).

Definition shift_rows (st : list Z) : list Z :=
  map (fun i => nth (4 * ((i / 4 + i mod 4) mod 4) + i mod 4) st 0) (seq 0 16).

Definition inv_shift_rows (st : list Z) : list Z :=
  map (fun i => nth (4 * ((i / 4 + 4 - i mod 4) mod 4) + i mod 4) st 0) (seq 0 16).

Definition mix_column (m : list Z) (col : list Z) : list Z :=
  map (fun r =>
         fold_left Z.lxor
           (map (fun c => gf_mul (nth ((c + 4 - r) mod 4) m 0) (nth c col 0)) (seq 0 4)) 0)
      (seq 0 4).

Definition mix_columns (st : list Z) : list Z :=
  flat_map (mix_column [2; 3; 1; 1]) (chunks_of 4 4 st).

Definition inv_mix_columns (st : list Z) : list Z :=
  flat_map (mix_column [14; 11; 13; 9]) (chunks_of 4 4 st).

Definition aes_round (sched : list Z) (st : list Z) (r : nat) : list Z :=
  add_round_key (mix_columns (shift_rows (map sub_byte st))) (round_key sched r).

Definition aes_inv_round (sched : list Z) (st : list Z) (r : nat) : list Z :=
  inv_mix_columns (add_round_key (map inv_sub_byte (inv_shift_rows st)) (round_key sched r)).

Definition aes256_encrypt_block (block : bytes) (sched : list Z) : bytes :=
  let st := add_round_key (map Z_of_byte block) (round_key sched 0) in
  let st := fold_left (aes_round sched) (seq 1 13) st in
  map byte_of_Z (add_round_key (shift_rows (map sub_byte st)) (round_key sched 14)).

Definition aes256_decrypt_block (block : bytes) (sched : list Z) : bytes :=
  let st := add_round_key (map Z_of_byte block) (round_key sched 14) in
  let st := fold_left (aes_inv_round sched) (rev (seq 1 13)) st in
  map byte_of_Z (add_round_key (map inv_sub_byte (inv_shift_rows st)) (round_key sched 0)).

(** ** What the codec takes from the rest of the program

    OpenSSL's MD5 and AES, the profile registry (profile.h) and the group
    codec (nonvol.h) are called by gwsettings.cc and defined elsewhere; the
    model is stated over any implementation of them. *)

Record profile := {
  profile_name : string;
  md5_key : bytes;
  default_keys : list bytes
}.

(** A [std::istream] over a buffer: the bytes not read yet and the state bits
    the reader tests ([badbit] is folded into [failbit]). *)
Record istream := {
  unread : bytes;
  eofbit : bool;
  failbit : bool
}.

Definition istringstream (buf : bytes) : istream :=
  {| unread := buf; eofbit := false; failbit := false |}.

(** [is.clear(ios::eofbit)]: the state becomes exactly [eofbit]. *)
Definition clear_eofbit (ins : istream) : istream :=
  {| unread := unread ins; eofbit := true; failbit := false |}.

Class Externals := {
  (** openssl/md5.h: the digest of everything passed to [MD5_Update]. *)
  MD5 : bytes -> bytes;
  (** openssl/aes.h *)
  AES_KEY : Type;
  AES_set_encrypt_key : bytes -> AES_KEY;
  AES_set_decrypt_key : bytes -> AES_KEY;
  AES_encrypt : bytes -> AES_KEY -> bytes;
  AES_decrypt : bytes -> AES_KEY -> bytes;
  (** profile.h: [profile::list()]. *)
  profile_list : list profile;
  (** nonvol.h: [nv_group] and [nv_group::read(is, group, type, remaining)],
      which returns the stream and may replace the [group] pointer. *)
  nv_group : Type;
  nv_group_read : istream -> option nv_group -> Z -> Z -> istream * option nv_group;
  group_name : nv_group -> string;
  group_bytes : nv_group -> Z;
  group_magic_to_str : nv_group -> string;
  type_perm : Z;
  type_dyn : Z;
  type_cfg : Z;
  (** gwsettings.h: [settings::write], the serialised group list. *)
  settings_write : list (string * nv_group) -> bytes
}.

(** Big-endian fields: the value of a run of bytes, the bytes of a value,
    and a read of [n] bytes that fails on a shorter stream. *)
Fixpoint be_value (l : bytes) (acc : Z) : Z :=
  match l with
  | [] => acc
  | b :: l' => be_value l' (256 * acc + Z_of_byte b)
  end.

Definition be_bytes (n : nat) (v : Z) : bytes :=
  rev (map byte_of_Z (le_bytes n v)).

Definition read_be (n : nat) (ins : bytes) : option (Z * bytes) :=
  if (List.length ins <? n)%nat then None
  else Some (be_value (firstn n ins) 0, skipn n ins).

(** Modelled from the spec: [nv_u32::read] (nonvol.h is not among the
    sources).  "Read a big-endian u32 size and a big-endian u32 crc"; the
    read fails when fewer than four bytes are left.  [num()] is the number
    read, and [size + 16] is taken as the spec writes it, without wrap. *)
Definition nv_u32_read (ins : bytes) : option (Z * bytes) := read_be 4 ins.

(** Modelled from the spec: [nv_u32::write] (nonvol.h is not among the
    sources).  "then u32 big-endian 8 + len(buf)"; "all multi-byte integers
    are big-endian": the four bytes of the value as a [uint32_t]. *)
Definition nv_u32_write (v : Z) : bytes := be_bytes 4 (wrap32 v).

(** Modelled from the spec: [nv_version::read] (nonvol.h is not among the
    sources).  "version: u16"; "version (two bytes ...)". *)
Definition nv_version_read (ins : bytes) : option (Z * bytes) := read_be 2 ins.

(** Modelled from the spec: [nv_version::write] (nonvol.h is not among the
    sources).  "header = MAGIC || u16(version) || ...". *)
Definition nv_version_write (v : Z) : bytes := be_bytes 2 (v mod 2 ^ 16).

(** Modelled from the spec: the initialiser of [settings::m_permissive]
    (gwsettings.h is not among the sources).  "Permissive mode (default on)". *)
Definition default_permissive : bool := true.

(** How a call ends: it returns, it throws [runtime_error(what)], or it
    dereferences a null [sp<nv_group>]; the object is left in state [a].
    [OutOfFuel] is the model's, for a loop cut short. *)
Inductive outcome (A : Type) : Type :=
| Returned (a : A)
| Thrown (what : string) (a : A)
| NullDeref (a : A)
| OutOfFuel.

Arguments Returned {A} a.
Arguments Thrown {A} what a.
Arguments NullDeref {A} a.
Arguments OutOfFuel {A}.

Definition outcome_map {A B : Type} (f : A -> B) (o : outcome A) : outcome B :=
  match o with
  | Returned a => Returned (f a)
  | Thrown what a => Thrown what (f a)
  | NullDeref a => NullDeref (f a)
  | OutOfFuel => OutOfFuel
  end.

Definition is_returned {A : Type} (o : outcome A) : bool :=
  match o with
  | Returned _ => true
  | _ => false
  end.

Definition out_of_fuel {A : Type} (o : outcome A) : bool :=
  match o with
  | OutOfFuel => true
  | _ => false
  end.

(** [std::to_string(unsigned)]. *)
Definition to_string (n : Z) : string :=
  NilEmpty.string_of_uint (N.to_uint (Z.to_N n)).

(** The string holds no ['_']. *)
Fixpoint underscore_free (s : string) : bool :=
  match s with
  | EmptyString => true
  | String c s' => negb (Ascii.eqb c "_") && underscore_free s'
  end.

(** [to_hex(uint32_t)]: eight hex digits. *)
Definition to_hex_u32 (v : Z) : string := to_hex (be_bytes 4 v).

(** [read_stream]: everything the stream still holds. *)
Definition read_stream (ins : bytes) : bytes := ins.

Definition s_magic : bytes :=
  ascii_bytes "6u9E9eWF0bt9Y8Rw690Le4669JYe4d-056T9p4ijm4EA6u9ee659jn9E-54e4j6rPj069K-670".

(** The AES loop of [gwsettings::crypt]: whole 16-byte blocks go through the
    cipher, what is left ([remaining < 16]) is copied by [memcpy]. *)
Fixpoint crypt_blocks (cipher : bytes -> bytes) (ibuf : bytes) : bytes :=
  match ibuf with
  | b0 :: b1 :: b2 :: b3 :: b4 :: b5 :: b6 :: b7 ::
    b8 :: b9 :: b10 :: b11 :: b12 :: b13 :: b14 :: b15 :: rest =>
      cipher [b0; b1; b2; b3; b4; b5; b6; b7; b8; b9; b10; b11; b12; b13; b14; b15]
        ++ crypt_blocks cipher rest
  | tail => tail
  end.

Section Model.
Context {E : Externals}.

Definition group_list : Type := list (string * nv_group).

(** [settings]: the base class of both containers. *)
Record settings := {
  m_groups : group_list;
  m_type : Z;
  m_permissive : bool;
  m_profile : option profile
}.

Definition set_groups (gs : group_list) (s : settings) : settings :=
  {| m_groups := gs; m_type := m_type s; m_permissive := m_permissive s;
     m_profile := m_profile s |}.

Definition set_profile (p : option profile) (s : settings) : settings :=
  {| m_groups := m_groups s; m_type := m_type s; m_permissive := m_permissive s;
     m_profile := p |}.

Definition set_permissive (v : bool) (s : settings) : settings :=
  {| m_groups := m_groups s; m_type := m_type s; m_permissive := v;
     m_profile := m_profile s |}.

Definition new_settings (type : Z) (p : option profile) : settings :=
  {| m_groups := []; m_type := type; m_permissive := default_permissive; m_profile := p |}.

(** Modelled from the spec: [settings::find] (gwsettings.h is not among the
    sources).  "A group whose name already occurs in the list". *)
Definition find (name : string) (groups : group_list) : bool :=
  existsb (fun e => String.eqb (fst e) name) groups.

(** ** settings::read(istream&): the group-stream reader *)

(** The [else] branch of the loop: name the group, renaming a redefinition
    with the pre-incremented [unsigned mult], and append it. *)
Definition push_group (mult : Z) (groups : group_list) (g : nv_group) : Z * group_list :=
  let name := group_name g in
  if find name groups
  then
    let mult' := wrap32 (mult + 1) in
    (mult', groups ++ [(name ++ "_" ++ to_string mult', g)%string])
  else (mult, groups ++ [(name, g)]).

Fixpoint settings_read_loop (fuel : nat) (permissive : bool) (type : Z)
         (ins : istream) (group : option nv_group) (remaining mult : Z)
         (groups : group_list) : outcome (istream * group_list) :=
  if (remaining =? 0) || eofbit ins then Returned (ins, groups)
  else
    match fuel with
    | O => OutOfFuel
    | S fuel' =>
        let '(ins', group') := nv_group_read ins group type remaining in
        if failbit ins' && negb (eofbit ins')
        then
          if negb permissive
          then
            match group' with
            | Some g =>
                Thrown ("failed to read group " ++ group_magic_to_str g)%string (ins', groups)
            | None => NullDeref (ins', groups)
            end
          else Returned (clear_eofbit ins', groups)
        else
          match group' with
          | None => NullDeref (ins', groups)
          | Some g =>
              let '(mult', groups') := push_group mult groups g in
              settings_read_loop fuel' permissive type ins' group'
                (wrap_size_t (remaining - group_bytes g)) mult' groups'
          end
    end.

(** [settings::read(is)] with [remaining = data_bytes()], [mult = 1] and a null
    [group]; every pass of the loop that goes on has read from the stream, so
    one pass per unread byte and one more is all the loop can take. *)
Definition settings_read (self : settings) (data_bytes : Z) (ins : istream)
  : outcome (istream * settings) :=
  outcome_map (fun r => (fst r, set_groups (snd r) self))
    (settings_read_loop (S (List.length (unread ins))) (m_permissive self) (m_type self)
       ins None data_bytes 1 (m_groups self)).

(** ** permdyn *)

Record permdyn := {
  pd_settings : settings;
  pd_size : Z;
  pd_checksum : Z;
  pd_checksum_valid : bool
}.

Definition new_permdyn (dyn : bool) (p : option profile) : permdyn :=
  {| pd_settings := new_settings (if dyn then type_dyn else type_perm) p;
     pd_size := 0; pd_checksum := 0; pd_checksum_valid := false |}.

Definition pd_set_settings (s : settings) (self : permdyn) : permdyn :=
  {| pd_settings := s; pd_size := pd_size self; pd_checksum := pd_checksum self;
     pd_checksum_valid := pd_checksum_valid self |}.

Definition pd_set_size (v : Z) (self : permdyn) : permdyn :=
  {| pd_settings := pd_settings self; pd_size := v; pd_checksum := pd_checksum self;
     pd_checksum_valid := pd_checksum_valid self |}.

Definition pd_set_checksum (v : Z) (self : permdyn) : permdyn :=
  {| pd_settings := pd_settings self; pd_size := pd_size self; pd_checksum := v;
     pd_checksum_valid := pd_checksum_valid self |}.

Definition pd_bytes (self : permdyn) : Z := pd_size self.
Definition pd_data_bytes (self : permdyn) : Z := wrap_size_t (pd_bytes self - 8).

(** What [permdyn::read] writes to [logger::e()]. *)
Definition checksum_log (crc stored : Z) : string :=
  if crc =? stored
  then ("checksum ok: " ++ to_hex_u32 crc)%string
  else ("checksum mismatch: " ++ to_hex_u32 crc ++ " / " ++ to_hex_u32 stored)%string.

(** [permdyn::read]: [is] holds what follows the 16 bytes the dispatcher
    read.  The result is the object and the lines logged. *)
Definition permdyn_read (self : permdyn) (ins : bytes) : outcome (permdyn * list string) :=
  let magic := firstn 0xba ins in
  if (List.length ins <? 0xba)%nat then Thrown "failed to read header" (self, [])
  else
    match nv_u32_read (skipn 0xba ins) with
    | None => Thrown "failed to read header" (self, [])
    | Some (size, ins1) =>
        let self := pd_set_size size self in
        match nv_u32_read ins1 with
        | None => Thrown "failed to read header" (self, [])
        | Some (checksum, ins2) =>
            let self := pd_set_checksum checksum self in
            if negb (forallb (Byte.eqb xff) magic)
            then Thrown "found non-0xff byte in magic" (self, [])
            else
              let buf := substr 0 (Z.to_nat (wrap32 (pd_size self + 16))) (read_stream ins2) in
              let crc := crc32 buf in
              let log := [checksum_log crc (pd_checksum self)] in
              outcome_map (fun r => (pd_set_settings (snd r) self, log))
                (settings_read (pd_settings self) (pd_data_bytes self) (istringstream buf))
        end
    end.

(** [permdyn::write]: the bytes written to [os]. *)
Definition permdyn_write (self : permdyn) : bytes :=
  let buf := settings_write (m_groups (pd_settings self)) in
  fill 0xca xff
    ++ nv_u32_write (8 + Z.of_nat (List.length buf))
    ++ nv_u32_write (crc32 buf)
    ++ buf.

(** ** gwsettings *)

Record gwsettings := {
  gw_settings : settings;
  m_checksum : bytes;
  m_is_auto_profile : bool;
  m_checksum_valid : bool;
  m_magic_valid : bool;
  m_size_valid : bool;
  m_encrypted : bool;
  m_version : Z;
  m_size : Z;
  m_key : bytes;
  m_padded : bool
}.

Definition new_gwsettings (checksum : bytes) (p : option profile) : gwsettings :=
  {| gw_settings := new_settings type_cfg p; m_checksum := checksum;
     m_is_auto_profile := false; m_checksum_valid := false; m_magic_valid := false;
     m_size_valid := false; m_encrypted := false; m_version := 0; m_size := 0;
     m_key := []; m_padded := false |}.

Definition set_settings (v : settings) (g : gwsettings) : gwsettings :=
  {| gw_settings := v; m_checksum := m_checksum g;
     m_is_auto_profile := m_is_auto_profile g; m_checksum_valid := m_checksum_valid g;
     m_magic_valid := m_magic_valid g; m_size_valid := m_size_valid g;
     m_encrypted := m_encrypted g; m_version := m_version g; m_size := m_size g;
     m_key := m_key g; m_padded := m_padded g |}.

Definition set_is_auto_profile (v : bool) (g : gwsettings) : gwsettings :=
  {| gw_settings := gw_settings g; m_checksum := m_checksum g;
     m_is_auto_profile := v; m_checksum_valid := m_checksum_valid g;
     m_magic_valid := m_magic_valid g; m_size_valid := m_size_valid g;
     m_encrypted := m_encrypted g; m_version := m_version g; m_size := m_size g;
     m_key := m_key g; m_padded := m_padded g |}.

Definition set_checksum_valid (v : bool) (g : gwsettings) : gwsettings :=
  {| gw_settings := gw_settings g; m_checksum := m_checksum g;
     m_is_auto_profile := m_is_auto_profile g; m_checksum_valid := v;
     m_magic_valid := m_magic_valid g; m_size_valid := m_size_valid g;
     m_encrypted := m_encrypted g; m_version := m_version g; m_size := m_size g;
     m_key := m_key g; m_padded := m_padded g |}.

Definition set_magic_valid (v : bool) (g : gwsettings) : gwsettings :=
  {| gw_settings := gw_settings g; m_checksum := m_checksum g;
     m_is_auto_profile := m_is_auto_profile g; m_checksum_valid := m_checksum_valid g;
     m_magic_valid := v; m_size_valid := m_size_valid g;
     m_encrypted := m_encrypted g; m_version := m_version g; m_size := m_size g;
     m_key := m_key g; m_padded := m_padded g |}.

Definition set_size_valid (v : bool) (g : gwsettings) : gwsettings :=
  {| gw_settings := gw_settings g; m_checksum := m_checksum g;
     m_is_auto_profile := m_is_auto_profile g; m_checksum_valid := m_checksum_valid g;
     m_magic_valid := m_magic_valid g; m_size_valid := v;
     m_encrypted := m_encrypted g; m_version := m_version g; m_size := m_size g;
     m_key := m_key g; m_padded := m_padded g |}.

Definition set_encrypted (v : bool) (g : gwsettings) : gwsettings :=
  {| gw_settings := gw_settings g; m_checksum := m_checksum g;
     m_is_auto_profile := m_is_auto_profile g; m_checksum_valid := m_checksum_valid g;
     m_magic_valid := m_magic_valid g; m_size_valid := m_size_valid g;
     m_encrypted := v; m_version := m_version g; m_size := m_size g;
     m_key := m_key g; m_padded := m_padded g |}.

Definition set_version (v : Z) (g : gwsettings) : gwsettings :=
  {| gw_settings := gw_settings g; m_checksum := m_checksum g;
     m_is_auto_profile := m_is_auto_profile g; m_checksum_valid := m_checksum_valid g;
     m_magic_valid := m_magic_valid g; m_size_valid := m_size_valid g;
     m_encrypted := m_encrypted g; m_version := v; m_size := m_size g;
     m_key := m_key g; m_padded := m_padded g |}.

Definition set_size (v : Z) (g : gwsettings) : gwsettings :=
  {| gw_settings := gw_settings g; m_checksum := m_checksum g;
     m_is_auto_profile := m_is_auto_profile g; m_checksum_valid := m_checksum_valid g;
     m_magic_valid := m_magic_valid g; m_size_valid := m_size_valid g;
     m_encrypted := m_encrypted g; m_version := m_version g; m_size := v;
     m_key := m_key g; m_padded := m_padded g |}.

Definition set_key (v : bytes) (g : gwsettings) : gwsettings :=
  {| gw_settings := gw_settings g; m_checksum := m_checksum g;
     m_is_auto_profile := m_is_auto_profile g; m_checksum_valid := m_checksum_valid g;
     m_magic_valid := m_magic_valid g; m_size_valid := m_size_valid g;
     m_encrypted := m_encrypted g; m_version := m_version g; m_size := m_size g;
     m_key := v; m_padded := m_padded g |}.

Definition set_padded (v : bool) (g : gwsettings) : gwsettings :=
  {| gw_settings := gw_settings g; m_checksum := m_checksum g;
     m_is_auto_profile := m_is_auto_profile g; m_checksum_valid := m_checksum_valid g;
     m_magic_valid := m_magic_valid g; m_size_valid := m_size_valid g;
     m_encrypted := m_encrypted g; m_version := m_version g; m_size := m_size g;
     m_key := m_key g; m_padded := v |}.

(** [profile()]. *)
Definition gw_profile (self : gwsettings) : option profile := m_profile (gw_settings self).

Definition set_gw_profile (p : option profile) (self : gwsettings) : gwsettings :=
  set_settings (set_profile p (gw_settings self)) self.

Definition gw_bytes (self : gwsettings) : Z := m_size self.

Definition gw_data_bytes (self : gwsettings) : Z :=
  wrap_size_t (gw_bytes self - (Z.of_nat (List.length s_magic) + 6)).

(** [gwsettings::crypt(ibuf, key, decrypt, pad = false)]. *)
Definition crypt (ibuf key : bytes) (decrypt pad : bool) : bytes :=
  if decrypt
  then
    let aes := AES_set_decrypt_key key in
    crypt_blocks (fun iblock => AES_decrypt iblock aes) ibuf
  else
    let aes := AES_set_encrypt_key key in
    let ibuf := if pad then ibuf ++ fill 16 x00 else ibuf in
    crypt_blocks (fun iblock => AES_encrypt iblock aes) ibuf.

Definition calc_checksum (buf : bytes) (p : option profile) : bytes :=
  let key := match p with Some p => md5_key p | None => [] end in
  if negb (is_empty key) then MD5 (buf ++ key) else MD5 buf.

Definition validate_checksum (self : gwsettings) (buf : bytes) (p : option profile)
  : bool * gwsettings :=
  let valid := bytes_eqb (m_checksum self) (calc_checksum buf p) in
  (valid, set_checksum_valid valid self).

(** The loop over [profile::list()] of [validate_checksum_and_detect_profile]. *)
Fixpoint detect_profile (ps : list profile) (self : gwsettings) (buf : bytes) : gwsettings :=
  match ps with
  | [] => self
  | p :: ps' =>
      let '(valid, self) := validate_checksum self buf (Some p) in
      if valid
      then set_gw_profile (Some p) (set_is_auto_profile true self)
      else detect_profile ps' self buf
  end.

Definition validate_checksum_and_detect_profile (self : gwsettings) (buf : bytes) : gwsettings :=
  match gw_profile self with
  | Some p => snd (validate_checksum self buf (Some p))
  | None => detect_profile profile_list self buf
  end.

(** [decrypt(buf, key)]: the result, the object and [buf] (passed by reference). *)
Definition decrypt (self : gwsettings) (buf key : bytes) : bool * gwsettings * bytes :=
  let decrypted := crypt buf key true false in
  if bytes_eqb (substr 0 74 decrypted) s_magic
  then (true, set_magic_valid true self, decrypted)
  else (false, self, buf).

(** The loop over [p->default_keys()] of [decrypt_with_profile]. *)
Fixpoint decrypt_with_keys (keys : list bytes) (self : gwsettings) (buf : bytes)
  : bool * gwsettings * bytes :=
  match keys with
  | [] => (false, self, buf)
  | k :: keys' =>
      let '(ok, self, buf) := decrypt self buf k in
      if ok then (true, set_key k self, buf) else decrypt_with_keys keys' self buf
  end.

Definition decrypt_with_profile (self : gwsettings) (buf : bytes) (p : profile)
  : bool * gwsettings * bytes :=
  decrypt_with_keys (default_keys p) self buf.

(** The loop over [profile::list()] of [decrypt_and_detect_profile]. *)
Fixpoint decrypt_with_profiles (ps : list profile) (self : gwsettings) (buf : bytes)
  : bool * gwsettings * bytes :=
  match ps with
  | [] => (false, self, buf)
  | p :: ps' =>
      let '(ok, self, buf) := decrypt_with_profile self buf p in
      if ok then (true, self, buf) else decrypt_with_profiles ps' self buf
  end.

Definition decrypt_and_detect_profile (self : gwsettings) (buf : bytes)
  : bool * gwsettings * bytes :=
  if negb (is_empty (m_key self)) then decrypt self buf (m_key self)
  else
    match gw_profile self with
    | Some p => decrypt_with_profile self buf p
    | None => decrypt_with_profiles profile_list self buf
    end.

(** The part of [gwsettings::read] after the magic is known to be valid:
    version, size, the size flags and the group stream. *)
Definition read_body (self : gwsettings) (buf : bytes) : outcome gwsettings :=
  let istr := skipn (List.length s_magic) buf in
  match nv_version_read istr with
  | None => Thrown "error while reading header" self
  | Some (version, istr1) =>
      let self := set_version version self in
      match nv_u32_read istr1 with
      | None => Thrown "error while reading header" self
      | Some (size, istr2) =>
          let self := set_size size self in
          let self := set_size_valid (m_size self =? Z.of_nat (List.length buf)) self in
          let self :=
            if negb (m_size_valid self)
            then
              if wrap32 (m_size self + 16) =? Z.of_nat (List.length buf)
              then set_size_valid true (set_padded true self)
              else self
            else self in
          outcome_map (fun r => set_settings (snd r) self)
            (settings_read (gw_settings self) (gw_data_bytes self) (istringstream istr2))
      end
  end.

(** [gwsettings::read]: [is] holds what follows the 16 checksum bytes. *)
Definition gwsettings_read (self : gwsettings) (ins : bytes) : outcome gwsettings :=
  let buf := read_stream ins in
  let magic := substr 0 (List.length s_magic) buf in
  let self := validate_checksum_and_detect_profile self buf in
  let self := set_magic_valid (bytes_eqb magic s_magic) self in
  let '(ok, self, buf) :=
    if m_magic_valid self then (true, self, buf) else decrypt_and_detect_profile self buf in
  if negb ok then Returned (set_encrypted true self)
  else read_body self buf.

(** [gwsettings::write]: the bytes written to [os]. *)
Definition gwsettings_write (self : gwsettings) : outcome bytes :=
  match gw_profile self with
  | None => Thrown "cannot write file without a profile" []
  | Some _ =>
      let buf := settings_write (m_groups (gw_settings self)) in
      let ostr :=
        s_magic ++ nv_version_write (m_version self)
          ++ nv_u32_write (Z.of_nat (List.length s_magic) + 6 + Z.of_nat (List.length buf)) in
      let buf := ostr ++ buf in
      let buf := if negb (is_empty (m_key self))
                 then crypt buf (m_key self) false (m_padded self) else buf in
      Returned (calc_checksum buf (gw_profile self) ++ buf
                  ++ (if m_padded self then fill 16 x00 else []))
  end.

(** ** settings::read(is, type, p, key): the container dispatcher *)

Inductive container :=
| Permdyn (c : permdyn)
| Gwsettings (c : gwsettings).

Definition is_permdyn_type (type : Z) : bool :=
  (type =? type_dyn) || (type =? type_perm).

(** The object read and the lines logged; [None] when the 16 leading bytes
    are missing and nothing was constructed.  The [key] argument is not used
    by the function. *)
Definition read_file (ins : bytes) (type : Z) (p : option profile) (key : bytes)
  : outcome (option container * list string) :=
  let start := firstn 16 ins in
  if (List.length ins <? 16)%nat then Thrown "failed to read file" (None, [])
  else
    let rest := skipn 16 ins in
    if bytes_eqb start (fill 16 xff) && is_permdyn_type type
    then
      outcome_map (fun r => (Some (Permdyn (fst r)), snd r))
        (permdyn_read (new_permdyn (type =? type_dyn) p) rest)
    else
      let log :=
        if bytes_eqb start (fill 16 xff)
        then ["file looks like a permnv/dynnv file, but no type was specified"%string]
        else [] in
      outcome_map (fun c => (Some (Gwsettings c), log))
        (gwsettings_read (new_gwsettings start p) rest).

(** [write] through the base-class pointer. *)
Definition container_write (c : container) : outcome bytes :=
  match c with
  | Permdyn c => Returned (permdyn_write c)
  | Gwsettings c => gwsettings_write c
  end.

(** Decode, then encode: [read] through the dispatcher and [write] of what
    it returned. *)
Definition reencode (file : bytes) (type : Z) (p : option profile) : outcome bytes :=
  match read_file file type p [] with
  | Returned (Some c, _) => container_write c
  | Returned (None, _) => Returned []
  | Thrown what _ => Thrown what []
  | NullDeref _ => NullDeref []
  | OutOfFuel => OutOfFuel
  end.

(** ** The properties' vocabulary *)

(** The block cipher in the direction [crypt] was asked for. *)
Definition crypt_cipher (key : bytes) (decrypt : bool) (iblock : bytes) : bytes :=
  if decrypt then AES_decrypt iblock (AES_set_decrypt_key key)
  else AES_encrypt iblock (AES_set_encrypt_key key).

(** What [crypt] runs the blocks on: the input, with 16 zero bytes after it
    when encrypting with [pad]. *)
Definition crypt_input (ibuf : bytes) (decrypt pad : bool) : bytes :=
  if negb decrypt && pad then ibuf ++ fill 16 x00 else ibuf.

(** What the round trip relies on in the cipher: a block stays 16 bytes, and
    encrypting a decrypted block gives it back. *)
Definition aes_block_length : Prop :=
  forall key blk, List.length blk = 16%nat ->
    List.length (AES_decrypt blk (AES_set_decrypt_key key)) = 16%nat.

Definition aes_inverse : Prop :=
  forall key blk, List.length blk = 16%nat ->
    AES_encrypt (AES_decrypt blk (AES_set_decrypt_key key)) (AES_set_encrypt_key key) = blk.

(** A profile matches when the digest of the buffer followed by its MD5 key
    is the candidate checksum. *)
Definition checksum_matches (self : gwsettings) (buf : bytes) (p : profile) : bool :=
  bytes_eqb (m_checksum self) (MD5 (buf ++ md5_key p)).

(** A decryption trial with [key] succeeds. *)
Definition trial_ok (buf key : bytes) : bool :=
  bytes_eqb (firstn 74 (crypt buf key true false)) s_magic.

(** The keys tried, in the order they are tried. *)
Definition trial_keys (self : gwsettings) : list bytes :=
  if is_empty (m_key self)
  then
    match gw_profile self with
    | Some p => default_keys p
    | None => flat_map default_keys profile_list
    end
  else [m_key self].

(** The groups the reader's loop accepts, in the order it reads them: the
    loop of [settings::read] without the names and without the modes. *)
Fixpoint read_sequence (fuel : nat) (type : Z) (ins : istream) (group : option nv_group)
         (remaining : Z) : list nv_group :=
  if (remaining =? 0) || eofbit ins then []
  else
    match fuel with
    | O => []
    | S fuel' =>
        let '(ins', group') := nv_group_read ins group type remaining in
        if failbit ins' && negb (eofbit ins') then []
        else
          match group' with
          | None => []
          | Some g =>
              g :: read_sequence fuel' type ins' group' (wrap_size_t (remaining - group_bytes g))
          end
    end.

(** What the reader relies on in [nv_group::read]: a read that neither fails
    nor hits the end has consumed input, *)
Definition reader_progress : Prop :=
  forall ins group type remaining,
    failbit (fst (nv_group_read ins group type remaining)) = false ->
    eofbit (fst (nv_group_read ins group type remaining)) = false ->
    (List.length (unread (fst (nv_group_read ins group type remaining)))
     < List.length (unread ins))%nat.

(** and a read that fails before the end of the input has set [group] (the
    error message dereferences it). *)
Definition failed_read_has_group : Prop :=
  forall ins group type remaining,
    failbit (fst (nv_group_read ins group type remaining)) = true ->
    eofbit (fst (nv_group_read ins group type remaining)) = false ->
    snd (nv_group_read ins group type remaining) <> None.

(** The names given to groups whose own names are [own], when [taken] are
    the names in the list so far and [renamed] groups were renamed before:
    a name already taken gets the suffix [_<renamed + 2>]. *)
Fixpoint given_names (renamed : nat) (taken own : list string) : list string :=
  match own with
  | [] => []
  | n :: own' =>
      if existsb (fun t => String.eqb t n) taken
      then
        let n' := (n ++ "_" ++ to_string (Z.of_nat renamed + 2))%string in
        n' :: given_names (S renamed) (taken ++ [n']) own'
      else n :: given_names renamed (taken ++ [n]) own'
  end.

(** No group's own name is another group's own name with a [_<n>] suffix. *)
Definition no_suffixed_name (own : list string) : Prop :=
  forall a b n, In a own -> In b own -> 0 <= n -> a <> (b ++ "_" ++ to_string n)%string.

Definition outcome_state {A : Type} (default : A) (o : outcome A) : A :=
  match o with
  | Returned a | Thrown _ a | NullDeref a => a
  | OutOfFuel => default
  end.

End Model.

(** ** A reference implementation of the externals

    OpenSSL's kernels as defined above, the profile table of profiledef.c and
    a group codec for the record layout, to run the codec on concrete files. *)

(** An entry of [bcm2_profiles] (profiledef.c): the fields the codec reads. *)
Record bcm2_profile := {
  name : string;
  cfg_md5key : string;
  cfg_defkeys : list string
}.

Definition bcm2_profiles : list bcm2_profile :=
  [ {| name := "generic"; cfg_md5key := ""; cfg_defkeys := [] |};
    {| name := "cg3000"; cfg_md5key := "3250736c633b752865676d64302d2778"; cfg_defkeys := [] |};
    {| name := "twg850"; cfg_md5key := "544d4d5f5457473835302d3400000000"; cfg_defkeys := [] |};
    {| name := "tcw770"; cfg_md5key := "544d4d5f544357373730000000000000"; cfg_defkeys := [] |};
    {| name := "twg870"; cfg_md5key := "544d4d5f545747383730000000000000";
       cfg_defkeys := ["0001020304050607080910111213141516171819202122232425262728293031"%string] |};
    {| name := "tc7200"; cfg_md5key := "544d4d5f544337323030000000000000";
       cfg_defkeys := ["000102030405060708090a0b0c0d0e0f101112131415161718191a1b1c1d1e1f"%string] |};
    {| name := ""; cfg_md5key := ""; cfg_defkeys := [] |} ].

(** Modelled from the spec: [profile::list()] (profile.h is not among the
    sources).  "each Profile yields name, md5_key: bytes (0..16),
    default_keys: [bytes(32)]"; the table's hex text is decoded and the end
    marker (the entry with an empty name) closes the list. *)
Fixpoint profiles_of (table : list bcm2_profile) : list profile :=
  match table with
  | [] => []
  | e :: table' =>
      if String.eqb (name e) "" then []
      else {| profile_name := name e; md5_key := from_hex (cfg_md5key e);
              default_keys := map from_hex (cfg_defkeys e) |} :: profiles_of table'
  end.

(** Modelled from the spec: the group record of [nv_group::read] (nonvol.h
    is not among the sources).  "u16 size | 4 bytes magic | u16 version |
    (size - 8) bytes payload"; "if unknown, construct an opaque-bytes group".
    A read past the end sets [eofbit] and [failbit]; a size below the 8
    header bytes is a record that does not parse.  The catalog names the
    groups whose magic it lists; the others are named by their magic. *)
Record ref_group := {
  rg_name : string;
  rg_size : Z;
  rg_magic : bytes;
  rg_version : bytes;
  rg_payload : bytes
}.

Definition take (n : nat) (ins : istream) : option bytes * istream :=
  if (n <=? List.length (unread ins))%nat
  then (Some (firstn n (unread ins)),
        {| unread := skipn n (unread ins); eofbit := eofbit ins; failbit := failbit ins |})
  else (None, {| unread := []; eofbit := true; failbit := true |}).

Definition catalog_name (catalog : list (bytes * string)) (magic : bytes) : string :=
  match List.find (fun e => bytes_eqb (fst e) magic) catalog with
  | Some e => snd e
  | None => to_hex magic
  end.

Definition ref_group_read (catalog : list (bytes * string)) (ins : istream)
           (group : option ref_group) (type remaining : Z) : istream * option ref_group :=
  match take 2 ins with
  | (None, ins1) => (ins1, group)
  | (Some size, ins1) =>
      match take 4 ins1 with
      | (None, ins2) => (ins2, group)
      | (Some magic, ins2) =>
          match take 2 ins2 with
          | (None, ins3) => (ins3, group)
          | (Some version, ins3) =>
              let g payload :=
                {| rg_name := catalog_name catalog magic; rg_size := be_value size 0;
                   rg_magic := magic; rg_version := version; rg_payload := payload |} in
              if be_value size 0 <? 8
              then ({| unread := unread ins3; eofbit := eofbit ins3; failbit := true |},
                    Some (g []))
              else
                match take (Z.to_nat (be_value size 0 - 8)) ins3 with
                | (None, ins4) => (ins4, Some (g []))
                | (Some payload, ins4) => (ins4, Some (g payload))
                end
          end
      end
  end.

Definition ref_group_write (g : ref_group) : bytes :=
  be_bytes 2 (rg_size g) ++ rg_magic g ++ rg_version g ++ rg_payload g.

Definition reference (catalog : list (bytes * string)) : Externals :=
  {| MD5 := md5_digest;
     AES_KEY := list Z;
     AES_set_encrypt_key := aes256_key_schedule;
     AES_set_decrypt_key := aes256_key_schedule;
     AES_encrypt := aes256_encrypt_block;
     AES_decrypt := aes256_decrypt_block;
     profile_list := profiles_of bcm2_profiles;
     nv_group := ref_group;
     nv_group_read := ref_group_read catalog;
     group_name := rg_name;
     group_bytes := rg_size;
     group_magic_to_str := fun g => to_hex (rg_magic g);
     type_perm := 1;
     type_dyn := 2;
     type_cfg := 3;
     settings_write := fun groups => flat_map (fun e => ref_group_write (snd e)) groups |}.


(** ** Sample files

    Containers built with the reference kernels: two groups with no payload
    in a gwsettings file for the tc7200 profile (plain, padded, encrypted and
    both), and the same group stream in a permnv file. *)

Definition tc7200_md5_key : bytes := from_hex "544d4d5f544337323030000000000000".

Definition tc7200_key : bytes :=
  from_hex "000102030405060708090a0b0c0d0e0f101112131415161718191a1b1c1d1e1f".

Definition tc7200 : profile :=
  {| profile_name := "tc7200"; md5_key := tc7200_md5_key; default_keys := [tc7200_key] |}.

Definition sample_group (size : Z) (magic : string) (payload : bytes) : bytes :=
  be_bytes 2 size ++ ascii_bytes magic ++ [x00; x01] ++ payload.

Definition sample_stream : bytes :=
  sample_group 8 "AAAA" [] ++ sample_group 8 "BBBB" [].

(** Magic, version 0.1, size 96 and the two groups: 96 bytes. *)
Definition sample_settings : bytes :=
  s_magic ++ nv_version_write 1 ++ nv_u32_write 96 ++ sample_stream.

Definition aes_ecb_encrypt (key buf : bytes) : bytes :=
  crypt_blocks (fun blk => aes256_encrypt_block blk (aes256_key_schedule key)) buf.

Definition with_checksum (md5key buf : bytes) : bytes :=
  md5_digest (buf ++ md5key) ++ buf.

Definition gws_plain : bytes := with_checksum tc7200_md5_key sample_settings.

Definition gws_padded : bytes :=
  with_checksum tc7200_md5_key (sample_settings ++ fill 16 x00).

Definition gws_encrypted : bytes :=
  with_checksum tc7200_md5_key (aes_ecb_encrypt tc7200_key sample_settings).

Definition gws_encrypted_padded : bytes :=
  with_checksum tc7200_md5_key (aes_ecb_encrypt tc7200_key (sample_settings ++ fill 16 x00)).

(** A permnv file after its 16 leading 0xFF bytes: the fill, size 24, the
    given crc and the two groups. *)
Definition permnv_tail (crc : Z) : bytes :=
  fill 186 xff ++ nv_u32_write 24 ++ nv_u32_write crc ++ sample_stream.

(** The permnv object holding the two groups of [sample_stream]. *)
Definition sample_groups : @group_list (reference []) :=
  [ ("41414141"%string,
     {| rg_name := "41414141"; rg_size := 8; rg_magic := ascii_bytes "AAAA";
        rg_version := [x00; x01]; rg_payload := [] |});
    ("42424242"%string,
     {| rg_name := "42424242"; rg_size := 8; rg_magic := ascii_bytes "BBBB";
        rg_version := [x00; x01]; rg_payload := [] |}) ].

Definition sample_permdyn : @permdyn (reference []) :=
  {| pd_settings := {| m_groups := sample_groups; m_type := 1; m_permissive := true;
                       m_profile := None |};
     pd_size := 24; pd_checksum := 0; pd_checksum_valid := false |}.

(** Group streams: two names each defined twice; a group whose own name is
    the renamed form of the next; a second record whose size field (4) is
    below the header's 8 bytes, with input left after it. *)
Definition stream_abab : bytes :=
  sample_group 8 "AAAA" [] ++ sample_group 8 "BBBB" []
    ++ sample_group 8 "AAAA" [] ++ sample_group 8 "BBBB" [].

Definition catalog_wan : list (bytes * string) :=
  [(ascii_bytes "WAN2", "wan_2"%string); (ascii_bytes "WAN1", "wan"%string)].

Definition stream_wan : bytes :=
  sample_group 8 "WAN2" [] ++ sample_group 8 "WAN1" [] ++ sample_group 8 "WAN1" [].

Definition stream_bad_second : bytes :=
  sample_group 8 "AAAA" [] ++ sample_group 4 "BBBB" [] ++ sample_group 8 "CCCC" [].

(** ** How a call leaves the object *)

(** The call ends with the object in state [a]: it returns, throws or
    dereferences a null pointer there. *)
Definition ends_in {A : Type} (o : outcome A) (a : A) : Prop :=
  o = Returned a \/ (exists what, o = Thrown what a) \/ o = NullDeref a.

(** ** The headers as text: group_header_to_string and header_to_string *)

(** [std::endl] on an [ostringstream]: a line feed. *)
Definition endl : string := String (ascii_of_nat 10) EmptyString.

Definition group_header_to_string (type checksum : string) (is_chksum_valid : bool)
           (size : Z) (is_size_valid : bool) (key : bytes) (is_encrypted : bool)
           (profile : string) (is_auto_profile : bool) : string :=
  let ostr := ("type    : " ++ type ++ endl)%string in
  let ostr := (ostr ++ "profile : ")%string in
  let ostr :=
    if String.eqb profile ""
    then (ostr ++ " (unknown)" ++ endl)%string
    else (ostr ++ profile ++ (if is_auto_profile then "" else " (forced)") ++ endl)%string in
  let ostr :=
    (ostr ++ "checksum: " ++ checksum ++ (if is_chksum_valid then "" else " (bad)") ++ endl)%string in
  let ostr :=
    (ostr ++ "size    : " ++ to_string size ++ (if is_size_valid then "" else " (bad)") ++ endl)%string in
  if is_encrypted
  then (ostr ++ "key     :" ++ (if is_empty key then "(unknown)" else to_hex key) ++ endl)%string
  else ostr.

Section Headers.
Context {E : Externals}.

(** [permdyn::header_to_string]. *)
Definition pd_header_to_string (self : permdyn) : string :=
  group_header_to_string "permdyn" (to_hex_u32 (pd_checksum self)) (pd_checksum_valid self)
    (pd_size self) true [] false "" false.

(** [gwsettings::header_to_string]. *)
Definition gw_header_to_string (self : gwsettings) : string :=
  group_header_to_string "gwsettings" (to_hex (m_checksum self)) (m_checksum_valid self)
    (m_size self) (m_size_valid self) (m_key self) (m_encrypted self)
    (match gw_profile self with Some p => profile_name p | None => "" end)
    (m_is_auto_profile self).

(** The buffer [gwsettings::read] parses once the magic is valid: the input
    itself, or its decryption with the key the search recorded. *)
Definition parsed_buffer (ins : bytes) (st : gwsettings) : bytes :=
  if bytes_eqb (firstn 74 ins) s_magic then ins else crypt ins (m_key st) true false.

(** nonvoltest.cc, [main]: the group type and the offset sought
    ([in.seekg]) for [argv[1]]; [None] is "invalid type". *)
Definition main_type (arg : string) : option (Z * nat) :=
  if String.eqb arg "group" then Some (type_dyn, 0%nat)
  else if String.eqb arg "dyn" then Some (type_dyn, 0xd2%nat)
  else if String.eqb arg "gwsettings" then Some (type_dyn, 0x60%nat)
  else if String.eqb arg "perm" then Some (type_perm, 0xd2%nat)
  else None.

End Headers.

(** ** profiledef.c: keyfun_tc7200 *)

(** [strlen]: the bytes before the first NUL of the memory at the pointer. *)
Fixpoint strlen (s : bytes) : nat :=
  match s with
  | [] => O
  | c :: s' => if Byte.eqb c x00 then O else S (strlen s')
  end.

(** [keyfun_tc7200(password, key)]: the value returned and the 32 bytes left
    in [key]; [password] is [None] for a null pointer and the memory at the
    pointer otherwise. *)
Definition keyfun_tc7200 (password : option bytes) : bool * bytes :=
  let key := map (fun i => byte_of_Z (Z.land (Z.of_nat i) 0xff)) (seq 0 32) in
  let key :=
    match password with
    | Some pw =>
        if negb (Byte.eqb (hd x00 pw) x00)
        then
          let len := strlen pw in
          let len := if (32 <? len)%nat then 32%nat else len in
          firstn len pw ++ skipn len key
        else key
    | None => key
    end in
  (true, key).

(** ** util.h and util.cc *)

(** The conversion of a value to an unsigned [T] of [bits] bits. *)
Definition to_unsigned (bits : Z) (z : Z) : Z := z mod 2 ^ bits.

(** [align_left<T>] and [align_right<T>] for an unsigned [T] of [bits] bits,
    no wider than [size_t]: the arithmetic is done in [size_t], the type of
    [alignment], [rem] and the result are converted to [T]. *)
Definition align_left (bits : Z) (nv_num alignment : Z) : Z :=
  to_unsigned bits (wrap_size_t (nv_num - wrap_size_t (nv_num mod alignment))).

Definition align_right (bits : Z) (nv_num alignment : Z) : Z :=
  let rem := to_unsigned bits (wrap_size_t (nv_num mod alignment)) in
  to_unsigned bits
    (wrap_size_t (nv_num + (if rem =? 0 then 0 else wrap_size_t (alignment - rem)))).

(** A [char] as the [int] it is promoted to, where [char] is signed. *)
Definition signed_char (b : byte) : Z :=
  if Z_of_byte b <? 128 then Z_of_byte b else Z_of_byte b - 256.

(** One pass of the inner loop of [crc16_ccitt]; [crc] is a [uint32_t]. *)
Definition crc16_bit (crc : Z) (c : Z) (k : nat) : Z :=
  let bit := negb (Z.land (Z.shiftr c (7 - Z.of_nat k)) 1 =? 0) in
  let c15 := negb (Z.land (Z.shiftr crc 15) 1 =? 0) in
  let crc := wrap32 (Z.shiftl crc 1) in
  if xorb c15 bit then Z.lxor crc 0x1021 else crc.

Definition crc16_ccitt (buf : bytes) : Z :=
  let crc :=
    fold_left (fun crc b => fold_left (fun crc k => crc16_bit crc (signed_char b) k) (seq 0 8) crc)
      buf 0xffff in
  Z.land crc 0xffff.

(** [boost::crc_ccitt_type], the register [crc16_ccitt] is compared with. *)
Definition crc_ccitt_type : crc_params :=
  {| crc_bits := 16; crc_trunc_poly := 0x1021; crc_init_rem := 0xFFFF;
     crc_final_xor := 0; crc_reflect_in := false; crc_reflect_rem := false |}.

(** [str.find_first_not_of(set)] and [str.find_last_not_of(set)]; [None] is
    [npos]. *)
Fixpoint find_first_not_of (set s : bytes) : option nat :=
  match s with
  | [] => None
  | c :: s' =>
      if existsb (Byte.eqb c) set then option_map S (find_first_not_of set s')
      else Some O
  end.

Definition find_last_not_of (set s : bytes) : option nat :=
  option_map (fun k => (List.length s - 1 - k)%nat) (find_first_not_of set (rev s)).

(** The set [" \x0d\n\t"]. *)
Definition whitespace : bytes := [x20; x0d; x0a; x09].

Definition trim (str : bytes) : bytes :=
  if is_empty str then str
  else
    let str :=
      match find_last_not_of whitespace str with
      | Some i => firstn (i + 1) str
      | None => str
      end in
    match find_first_not_of whitespace str with
    | None => []
    | Some i => skipn i str
    end.

(** A blank, CR, LF or tab. *)
Definition is_whitespace (c : byte) : bool := existsb (Byte.eqb c) whitespace.

(** One of the digits [to_hex] prints. *)
Definition lower_hex_digit (c : ascii) : bool :=
  existsb (Ascii.eqb c) (list_ascii_of_string "0123456789abcdef").

(** [str.find(c, pos)]; [None] is [npos]. *)
Fixpoint find_char (c : byte) (pos : nat) (str : bytes) : option nat :=
  match str with
  | [] => None
  | b :: str' =>
      match pos with
      | O => if Byte.eqb b c then Some O else option_map S (find_char c O str')
      | S pos' => option_map S (find_char c pos' str')
      end
  end.

Definition backslash : byte := x5c.

(** [unescape(str, delim)], which erases in place: [done] is the part of
    [str] before [i], [rest] the part from [i] on.  [Thrown] is
    [std::invalid_argument] here, with the string as it is when thrown. *)
Fixpoint unescape_from (delim : byte) (done rest : bytes) : outcome bytes :=
  match rest with
  | [] => Returned done
  | c :: rest' =>
      if Byte.eqb c backslash
      then
        match rest' with
        | [] =>
            Thrown ("stray backslash in '" ++ string_of_list_byte (done ++ rest) ++ "'")%string
                   (done ++ rest)
        | d :: rest'' =>
            if Byte.eqb d backslash || Byte.eqb d delim
            then unescape_from delim (done ++ [d]) rest''
            else
              Thrown ("invalid escape sequence in '" ++ string_of_list_byte (done ++ rest) ++ "'")%string
                     (done ++ rest)
        end
      else unescape_from delim (done ++ [c]) rest'
  end.

Definition unescape (str : bytes) (delim : byte) : outcome bytes :=
  unescape_from delim [] str.

(** [push_back(strings, str, delim, empties, limit)]. *)
Definition push_back (strings : list bytes) (str : bytes) (delim : byte)
           (empties : bool) (limit : nat) : outcome (list bytes) :=
  if empties || negb (is_empty str)
  then
    match unescape str delim with
    | Returned u =>
        if (limit =? 0)%nat || (List.length strings <? limit)%nat
        then Returned (strings ++ [u])
        else Returned (removelast strings ++ [last strings [] ++ delim :: u])
    | Thrown what _ => Thrown what strings
    | NullDeref _ => NullDeref strings
    | OutOfFuel => OutOfFuel
    end
  else Returned strings.

Definition is_unescaped (str : bytes) (pos : nat) : bool :=
  match pos with
  | O => true
  | _ =>
      let ret := negb (Byte.eqb (nth (pos - 1) str x00) backslash) in
      if (2 <=? pos)%nat && negb ret
      then Byte.eqb (nth (pos - 2) str x00) backslash
      else ret
  end.

(** The [while] loop of [split]: [end_] is [None] for [npos]. *)
Fixpoint split_loop (fuel : nat) (str : bytes) (delim : byte) (empties : bool) (limit : nat)
         (beg : nat) (end_ : option nat) (subs : list bytes) : outcome (list bytes) :=
  match end_ with
  | None => Returned subs
  | Some e =>
      match fuel with
      | O => OutOfFuel
      | S fuel' =>
          let pushed :=
            if is_unescaped str e
            then (push_back subs (substr beg (e - beg) str) delim empties limit, S e)
            else (Returned subs, beg) in
          match pushed with
          | (Returned subs, beg) =>
              let end_ := find_char delim (e + 1) str in
              match end_ with
              | None =>
                  match push_back subs (substr beg (List.length str) str) delim empties limit with
                  | Returned subs => split_loop fuel' str delim empties limit beg end_ subs
                  | other => other
                  end
              | Some _ => split_loop fuel' str delim empties limit beg end_ subs
              end
          | (other, _) => other
          end
      end
  end.

(** [split(str, delim, empties, limit)]: one pass of the loop per delimiter
    in [str] at most. *)
Definition split (str : bytes) (delim : byte) (empties : bool) (limit : nat)
  : outcome (list bytes) :=
  match split_loop (List.length str) str delim empties limit 0 (find_char delim 0 str) [] with
  | Returned subs =>
      if is_empty subs && negb (is_empty str)
      then push_back subs str delim empties limit
      else Returned subs
  | other => other
  end.

(** The properties' vocabulary for [unescape] and [split]: a string with a
    backslash put before every backslash and delimiter, *)
Fixpoint escape (delim : byte) (s : bytes) : bytes :=
  match s with
  | [] => []
  | c :: s' =>
      if Byte.eqb c backslash || Byte.eqb c delim
      then backslash :: c :: escape delim s'
      else c :: escape delim s'
  end.

(** the fields of a string: what lies between one delimiter and the next, *)
Fixpoint fields (delim : byte) (s : bytes) : list bytes :=
  match s with
  | [] => [[]]
  | c :: s' =>
      if Byte.eqb c delim then [] :: fields delim s'
      else
        match fields delim s' with
        | f :: fs => (c :: f) :: fs
        | [] => [[c]]
        end
  end.

(** the fields [push_back] does not skip, *)
Definition kept_fields (delim : byte) (empties : bool) (s : bytes) : list bytes :=
  filter (fun f => empties || negb (is_empty f)) (fields delim s).

(** what [push_back] does with a field it keeps: a new element while the
    vector is below [limit], and the last element grown by the delimiter and
    the field from then on, *)
Definition glue (delim : byte) (limit : nat) (strings : list bytes) (field : bytes) : list bytes :=
  if (limit =? 0)%nat || (List.length strings <? limit)%nat
  then strings ++ [field]
  else removelast strings ++ [last strings [] ++ delim :: field].

(** and the pieces put together again with [delim] between them. *)
Fixpoint join (delim : byte) (pieces : list bytes) : bytes :=
  match pieces with
  | [] => []
  | [p] => p
  | p :: rest => p ++ delim :: join delim rest
  end.

(** ** nonvoltest.cc: get *)

(** What [get(group, name)] returns: the group, one of its members
    ([group->find(tok[1])]) or a null pointer; [tok[0]] is read whatever the
    size of [tok], which is [OutOfBounds] for an empty vector. *)
Inductive lookup :=
| OutOfBounds
| Null
| Group
| Member (name : bytes).

Definition get (group_name name : bytes) : outcome lookup :=
  outcome_map
    (fun tok =>
       match tok with
       | [] => OutOfBounds
       | t0 :: rest =>
           if bytes_eqb t0 group_name
           then if (List.length tok =? 2)%nat then Member (nth 1 tok []) else Group
           else Null
       end)
    (split name x2e false 2).

(** * Properties *)

(** ** Bytes and big-endian fields *)

Lemma Z_of_byte_range (b : byte) : 0 <= Z_of_byte b < 256.
Proof.
  unfold Z_of_byte. pose proof (Byte.to_N_bounded b). lia.
Qed.

Lemma byte_of_Z_of_byte (b : byte) : byte_of_Z (Z_of_byte b) = b.
Proof.
  unfold byte_of_Z. pose proof (Z_of_byte_range b) as H.
  rewrite Z.mod_small by exact H. unfold Z_of_byte.
  rewrite N2Z.id, Byte.of_to_N. reflexivity.
Qed.

Lemma Z_of_byte_of_Z (z : Z) : 0 <= z < 256 -> Z_of_byte (byte_of_Z z) = z.
Proof.
  intros H. unfold byte_of_Z. rewrite Z.mod_small by exact H.
  destruct (Byte.of_N (Z.to_N z)) as [b|] eqn:Hb.
  - unfold Z_of_byte. apply Byte.to_of_N in Hb. rewrite Hb. lia.
  - apply Byte.of_N_None_iff in Hb. lia.
Qed.

Lemma bytes_eqb_eq (a b : bytes) : bytes_eqb a b = true <-> a = b.
Proof.
  unfold bytes_eqb. destruct (list_eq_dec Byte.byte_eq_dec a b); split; congruence.
Qed.

Lemma bytes_eqb_refl (a : bytes) : bytes_eqb a a = true.
Proof. apply bytes_eqb_eq. reflexivity. Qed.

Lemma firstn_length_app {A : Type} (n : nat) (a b : list A) :
  List.length a = n -> firstn n (a ++ b) = a.
Proof. intros <-. induction a; simpl; congruence. Qed.

Lemma skipn_length_app {A : Type} (n : nat) (a b : list A) :
  List.length a = n -> skipn n (a ++ b) = b.
Proof. intros <-. induction a; simpl; congruence. Qed.

Lemma le_bytes_length (n : nat) (v : Z) : List.length (le_bytes n v) = n.
Proof. revert v. induction n; intros; simpl; auto. Qed.

Lemma be_bytes_length (n : nat) (v : Z) : List.length (be_bytes n v) = n.
Proof. unfold be_bytes. rewrite length_rev, length_map. apply le_bytes_length. Qed.

Lemma be_value_app (a b : bytes) (acc : Z) :
  be_value (a ++ b) acc = be_value b (be_value a acc).
Proof. revert acc. induction a; intros; simpl; auto. Qed.

Lemma be_value_be_bytes (n : nat) (v : Z) :
  0 <= v < 256 ^ Z.of_nat n -> be_value (be_bytes n v) 0 = v.
Proof.
  unfold be_bytes. revert v. induction n; intros v Hv.
  - simpl in *. lia.
  - cbn [le_bytes map rev]. rewrite be_value_app. cbn [be_value].
    rewrite IHn.
    + rewrite Z_of_byte_of_Z by (apply Z.mod_pos_bound; lia).
      pose proof (Z.div_mod v 256). lia.
    + rewrite Nat2Z.inj_succ, Z.pow_succ_r in Hv by lia.
      split; [apply Z.div_pos; lia|apply Z.div_lt_upper_bound; lia].
Qed.

Lemma read_be_app (n : nat) (v : Z) (rest : bytes) :
  0 <= v < 256 ^ Z.of_nat n -> read_be n (be_bytes n v ++ rest) = Some (v, rest).
Proof.
  intros Hv. unfold read_be.
  pose proof (be_bytes_length n v) as Hl.
  rewrite length_app, Hl.
  replace (n + List.length rest <? n)%nat with false by (symmetry; apply Nat.ltb_ge; lia).
  rewrite (firstn_length_app n), (skipn_length_app n) by exact Hl.
  rewrite be_value_be_bytes by exact Hv. reflexivity.
Qed.

Lemma nv_u32_read_write (v : Z) (rest : bytes) :
  0 <= v < 2 ^ 32 -> nv_u32_read (nv_u32_write v ++ rest) = Some (v, rest).
Proof.
  intros Hv. unfold nv_u32_read, nv_u32_write, wrap32.
  rewrite Z.mod_small by exact Hv. apply read_be_app. exact Hv.
Qed.

Lemma nv_version_read_write (v : Z) (rest : bytes) :
  0 <= v < 2 ^ 16 -> nv_version_read (nv_version_write v ++ rest) = Some (v, rest).
Proof.
  intros Hv. unfold nv_version_read, nv_version_write.
  rewrite Z.mod_small by exact Hv. apply read_be_app. exact Hv.
Qed.

Lemma outcome_map_map {A B C : Type} (f : A -> B) (g : B -> C) (o : outcome A) :
  outcome_map g (outcome_map f o) = outcome_map (fun a => g (f a)) o.
Proof. destruct o; reflexivity. Qed.

Lemma out_of_fuel_false {A : Type} (o : outcome A) : out_of_fuel o = false -> o <> OutOfFuel.
Proof. intros H ->. discriminate. Qed.

Lemma is_returned_state {A : Type} (default : A) (o : outcome A) :
  is_returned o = true -> o = Returned (outcome_state default o).
Proof. destruct o; try discriminate. reflexivity. Qed.

Lemma bytes_eqb_neq (a b : bytes) : bytes_eqb a b = false -> a <> b.
Proof. intros H Heq. apply bytes_eqb_eq in Heq. congruence. Qed.

(** ** permdyn::crc32 *)

Lemma crc_register_ext (p q : crc_params) (buf : bytes) (rem : Z) :
  crc_bits p = crc_bits q ->
  crc_trunc_poly p = crc_trunc_poly q ->
  crc_reflect_in p = crc_reflect_in q ->
  fold_left (crc_process_byte p) buf rem = fold_left (crc_process_byte q) buf rem.
Proof.
  intros Hbits Hpoly Hin. revert rem. induction buf as [|b buf IH]; intros rem; [reflexivity|].
  cbn [fold_left]. rewrite <- IH. f_equal.
  unfold crc_process_byte, crc_shift. rewrite Hbits, Hpoly, Hin. reflexivity.
Qed.

Lemma crc32_no_final_xor (buf : bytes) :
  crc32 buf = crc_optimal crc_32_no_final_xor buf.
Proof.
  pose proof (crc_register_ext crc_32_no_final_xor crc_32_type buf 0xFFFFFFFF
                eq_refl eq_refl eq_refl) as H.
  unfold crc32, crc_optimal, crc_checksum.
  change (crc_init_rem crc_32_no_final_xor) with 0xFFFFFFFF.
  change (crc_init_rem crc_32_type) with 0xFFFFFFFF.
  rewrite H.
  change (crc_reflect_rem crc_32_no_final_xor) with true.
  change (crc_reflect_rem crc_32_type) with true.
  change (crc_final_xor crc_32_no_final_xor) with 0.
  change (crc_final_xor crc_32_type) with 0xFFFFFFFF.
  change (crc_bits crc_32_no_final_xor) with 32%nat.
  change (crc_bits crc_32_type) with 32%nat.
  rewrite Z.lxor_assoc. reflexivity.
Qed.

Lemma crc32_never_standard (buf : bytes) : crc32 buf <> crc_optimal crc_32_type buf.
Proof.
  unfold crc32. intros H.
  assert (Hx : Z.lxor (crc_optimal crc_32_type buf)
                 (Z.lxor (crc_optimal crc_32_type buf) 0xffffffff) = 0)
    by (rewrite H; apply Z.lxor_nilpotent).
  rewrite <- Z.lxor_assoc, Z.lxor_nilpotent, Z.lxor_0_l in Hx. discriminate.
Qed.

(** ** The kernels on their published test vectors *)

(** The CRC-32 check value, and what [permdyn::crc32] makes of it. *)
Example crc_32_check_value :
  crc_optimal crc_32_type (ascii_bytes "123456789") = 0xCBF43926 /\
  crc32 (ascii_bytes "123456789") = 0x340BC6D9.
Proof. split; vm_compute; reflexivity. Qed.

(** RFC 1321, appendix A.5. *)
Example md5_test_suite :
  to_hex (md5_digest []) = "d41d8cd98f00b204e9800998ecf8427e"%string /\
  to_hex (md5_digest (ascii_bytes "abc")) = "900150983cd24fb0d6963f7d28e17f72"%string /\
  to_hex (md5_digest (ascii_bytes "message digest")) = "f96b697d7cb7938d525a2f31aaf161d0"%string /\
  to_hex (md5_digest (ascii_bytes
    "12345678901234567890123456789012345678901234567890123456789012345678901234567890"))
  = "57edf4a22be3c955ac49da2e2107b67a"%string.
Proof. split; [|split; [|split]]; vm_compute; reflexivity. Qed.

(** FIPS-197, appendix C.3. *)
Example aes256_example_vector :
  let key := from_hex "000102030405060708090a0b0c0d0e0f101112131415161718191a1b1c1d1e1f" in
  to_hex (aes256_encrypt_block (from_hex "00112233445566778899aabbccddeeff")
            (aes256_key_schedule key))
  = "8ea2b7ca516745bfeafc49904b496089"%string /\
  to_hex (aes256_decrypt_block (from_hex "8ea2b7ca516745bfeafc49904b496089")
            (aes256_key_schedule key))
  = "00112233445566778899aabbccddeeff"%string.
Proof. split; vm_compute; reflexivity. Qed.


Section Proofs.
Context {E : Externals}.

(** ** gwsettings::crypt *)

Lemma crypt_blocks_block (cipher : bytes -> bytes) (blk rest : bytes) :
  List.length blk = 16%nat ->
  crypt_blocks cipher (blk ++ rest) = cipher blk ++ crypt_blocks cipher rest.
Proof.
  intros H. do 16 (destruct blk as [|? blk]; [discriminate|]).
  destruct blk; [reflexivity|discriminate].
Qed.

Lemma crypt_blocks_tail (cipher : bytes -> bytes) (tail : bytes) :
  (List.length tail < 16)%nat -> crypt_blocks cipher tail = tail.
Proof.
  intros H. do 16 (destruct tail as [|? tail]; [reflexivity|]).
  simpl in H. lia.
Qed.

Lemma crypt_blocks_concat (cipher : bytes -> bytes) (blocks : list bytes) (tail : bytes) :
  Forall (fun b => List.length b = 16%nat) blocks ->
  (List.length tail < 16)%nat ->
  crypt_blocks cipher (List.concat blocks ++ tail) = flat_map cipher blocks ++ tail.
Proof.
  intros Hb Ht. induction Hb as [|b bs Hlen _ IH]; simpl.
  - apply crypt_blocks_tail. exact Ht.
  - rewrite <- !app_assoc, crypt_blocks_block by exact Hlen. now rewrite IH.
Qed.

(** Every buffer is a run of 16-byte blocks followed by fewer than 16 bytes. *)
Lemma blocks_and_tail (buf : bytes) :
  exists blocks tail,
    buf = List.concat blocks ++ tail /\
    Forall (fun b => List.length b = 16%nat) blocks /\
    (List.length tail < 16)%nat.
Proof.
  remember (List.length buf) as n eqn:Hn. revert buf Hn.
  induction n as [n IH] using lt_wf_ind. intros buf Hn.
  destruct (Nat.lt_ge_cases n 16) as [Hlt|Hge].
  - exists [], buf. simpl. repeat split; [constructor|lia].
  - destruct (IH (n - 16)%nat ltac:(lia) (skipn 16 buf)) as (bs & tl & Heq & Hbs & Htl).
    { rewrite length_skipn. lia. }
    exists (firstn 16 buf :: bs), tl. repeat split.
    + cbn [List.concat]. rewrite <- app_assoc, <- Heq. symmetry. apply firstn_skipn.
    + constructor; [|exact Hbs]. rewrite length_firstn. lia.
    + exact Htl.
Qed.

Lemma length_flat_map_blocks (cipher : bytes -> bytes) (blocks : list bytes) :
  (forall b, List.length b = 16%nat -> List.length (cipher b) = 16%nat) ->
  Forall (fun b => List.length b = 16%nat) blocks ->
  List.length (flat_map cipher blocks) = List.length (List.concat blocks).
Proof.
  intros Hc Hb. induction Hb as [|b bs Hlen _ IH]; simpl; [reflexivity|].
  rewrite !length_app, IH, Hc, Hlen by exact Hlen. reflexivity.
Qed.

Lemma crypt_unfold (ibuf key : bytes) (decrypt pad : bool) :
  crypt ibuf key decrypt pad
  = crypt_blocks (crypt_cipher key decrypt) (crypt_input ibuf decrypt pad).
Proof.
  unfold crypt, crypt_cipher, crypt_input. destruct decrypt, pad; reflexivity.
Qed.

(** C6: [crypt] runs the cipher over the 16-byte blocks of its input and
    copies the fewer-than-16 bytes after them unchanged, encrypting and
    decrypting alike, so the output is as long as the input it processed;
    that input is [ibuf] followed by 16 zero bytes when encrypting with
    [pad], and [ibuf] itself otherwise, in particular whenever decrypting. *)
Theorem crypt_block_carry
  (Hencrypt : forall blk key, List.length blk = 16%nat ->
                List.length (AES_encrypt blk (AES_set_encrypt_key key)) = 16%nat)
  (Hdecrypt : forall blk key, List.length blk = 16%nat ->
                List.length (AES_decrypt blk (AES_set_decrypt_key key)) = 16%nat)
  (ibuf key : bytes) (decrypt pad : bool) :
  crypt_input ibuf true pad = ibuf /\
  crypt_input ibuf false false = ibuf /\
  crypt_input ibuf false true = ibuf ++ repeat x00 16 /\
  exists blocks tail,
    crypt_input ibuf decrypt pad = List.concat blocks ++ tail /\
    Forall (fun b => List.length b = 16%nat) blocks /\
    (List.length tail < 16)%nat /\
    crypt ibuf key decrypt pad = flat_map (crypt_cipher key decrypt) blocks ++ tail /\
    List.length (crypt ibuf key decrypt pad) = List.length (crypt_input ibuf decrypt pad).
Proof.
  repeat split; try reflexivity.
  destruct (blocks_and_tail (crypt_input ibuf decrypt pad)) as (bs & tl & Heq & Hbs & Htl).
  exists bs, tl. rewrite crypt_unfold, Heq.
  rewrite crypt_blocks_concat by assumption.
  repeat split; try assumption.
  rewrite !length_app. f_equal. apply length_flat_map_blocks; [|exact Hbs].
  intros b Hb. unfold crypt_cipher. destruct decrypt; auto.
Qed.

(** ** Checksum validation and profile detection *)

Lemma calc_checksum_profile (buf : bytes) (p : profile) :
  calc_checksum buf (Some p) = MD5 (buf ++ md5_key p).
Proof.
  unfold calc_checksum. destruct (md5_key p); simpl; [rewrite app_nil_r|]; reflexivity.
Qed.

Lemma validate_checksum_matches (self : gwsettings) (buf : bytes) (p : profile) :
  validate_checksum self buf (Some p)
  = (checksum_matches self buf p, set_checksum_valid (checksum_matches self buf p) self).
Proof.
  unfold validate_checksum, checksum_matches. rewrite calc_checksum_profile. reflexivity.
Qed.

Lemma detect_profile_find (ps : list profile) (self : gwsettings) (buf : bytes) :
  detect_profile ps self buf =
  match List.find (checksum_matches self buf) ps with
  | Some p => set_gw_profile (Some p) (set_is_auto_profile true (set_checksum_valid true self))
  | None => match ps with [] => self | _ => set_checksum_valid false self end
  end.
Proof.
  revert self. induction ps as [|p ps IH]; intros self; [reflexivity|].
  cbn [detect_profile List.find]. rewrite validate_checksum_matches.
  destruct (checksum_matches self buf p) eqn:Hm; [reflexivity|].
  rewrite IH.
  change (checksum_matches (set_checksum_valid false self) buf)
    with (checksum_matches self buf).
  destruct (List.find (checksum_matches self buf) ps); [reflexivity|].
  destruct ps; reflexivity.
Qed.

Lemma find_unique {A : Type} (f : A -> bool) (l : list A) (x : A) :
  In x l -> f x = true -> (forall y, In y l -> f y = true -> y = x) ->
  List.find f l = Some x.
Proof.
  intros Hin Hx Huniq. induction l as [|a l IH]; [contradiction|].
  cbn [List.find]. destruct (f a) eqn:Ha.
  - f_equal. apply Huniq; [left; reflexivity|exact Ha].
  - apply IH.
    + destruct Hin as [->|Hin]; [congruence|exact Hin].
    + intros y Hy. apply Huniq. right. exact Hy.
Qed.

(** C5: with no profile supplied, detection walks the registry in order and
    takes the first profile whose MD5(buf || md5_key) is the candidate
    checksum, setting the profile, [auto_profile] and [checksum_valid]; a
    registry in which exactly one profile matches yields that profile in
    whatever order it is listed. *)
Theorem profile_auto_detection (self : gwsettings) (buf : bytes) :
  gw_profile self = None ->
  validate_checksum_and_detect_profile self buf = detect_profile profile_list self buf /\
  (forall registry,
     let self' := detect_profile registry self buf in
     match List.find (fun p => bytes_eqb (m_checksum self) (MD5 (buf ++ md5_key p))) registry with
     | Some p =>
         gw_profile self' = Some p /\ m_is_auto_profile self' = true /\
         m_checksum_valid self' = true
     | None =>
         gw_profile self' = None /\ m_is_auto_profile self' = m_is_auto_profile self /\
         (registry <> [] -> m_checksum_valid self' = false)
     end) /\
  (forall registry registry' p,
     Permutation registry registry' ->
     In p registry ->
     m_checksum self = MD5 (buf ++ md5_key p) ->
     (forall q, In q registry -> m_checksum self = MD5 (buf ++ md5_key q) -> q = p) ->
     gw_profile (detect_profile registry self buf) = Some p /\
     gw_profile (detect_profile registry' self buf) = Some p).
Proof.
  intros Hnone. split; [|split].
  - unfold validate_checksum_and_detect_profile. rewrite Hnone. reflexivity.
  - intros registry self'. subst self'. rewrite detect_profile_find.
    change (fun p => bytes_eqb (m_checksum self) (MD5 (buf ++ md5_key p)))
      with (checksum_matches self buf).
    destruct (List.find (checksum_matches self buf) registry).
    + repeat split.
    + destruct registry; (repeat split); try exact Hnone; try reflexivity.
      intros H. contradiction.
  - intros registry registry' p Hperm Hin Hp Huniq.
    assert (Hfind : forall l, Permutation registry l ->
                      List.find (checksum_matches self buf) l = Some p).
    { intros l Hl. apply find_unique.
      - eapply Permutation_in; eassumption.
      - apply bytes_eqb_eq. exact Hp.
      - intros q Hq Hmq. apply Huniq.
        + eapply Permutation_in; [apply Permutation_sym|]; eassumption.
        + apply bytes_eqb_eq. exact Hmq. }
    rewrite !detect_profile_find, (Hfind registry (Permutation_refl _)), (Hfind registry' Hperm).
    split; reflexivity.
Qed.


(** ** Decryption trials *)

Lemma s_magic_length : List.length s_magic = 74%nat.
Proof. reflexivity. Qed.

Lemma decrypt_trial (self : gwsettings) (buf key : bytes) :
  decrypt self buf key =
  if trial_ok buf key
  then (true, set_magic_valid true self, crypt buf key true false)
  else (false, self, buf).
Proof. reflexivity. Qed.

Lemma set_key_same (self : gwsettings) : set_key (m_key self) self = self.
Proof. destruct self; reflexivity. Qed.

Lemma decrypt_with_keys_find (keys : list bytes) (self : gwsettings) (buf : bytes) :
  decrypt_with_keys keys self buf =
  match List.find (trial_ok buf) keys with
  | Some k => (true, set_key k (set_magic_valid true self), crypt buf k true false)
  | None => (false, self, buf)
  end.
Proof.
  induction keys as [|k keys IH]; [reflexivity|].
  cbn [decrypt_with_keys List.find]. rewrite decrypt_trial.
  destruct (trial_ok buf k); [reflexivity|exact IH].
Qed.

Lemma find_app {A : Type} (f : A -> bool) (l1 l2 : list A) :
  List.find f (l1 ++ l2) =
  match List.find f l1 with Some x => Some x | None => List.find f l2 end.
Proof.
  induction l1 as [|a l1 IH]; [reflexivity|].
  cbn [List.find app]. destruct (f a); [reflexivity|exact IH].
Qed.

Lemma decrypt_with_profiles_find (ps : list profile) (self : gwsettings) (buf : bytes) :
  decrypt_with_profiles ps self buf =
  match List.find (trial_ok buf) (flat_map default_keys ps) with
  | Some k => (true, set_key k (set_magic_valid true self), crypt buf k true false)
  | None => (false, self, buf)
  end.
Proof.
  induction ps as [|p ps IH]; [reflexivity|].
  cbn [decrypt_with_profiles flat_map]. unfold decrypt_with_profile.
  rewrite decrypt_with_keys_find, find_app.
  destruct (List.find (trial_ok buf) (default_keys p)); [reflexivity|exact IH].
Qed.

Lemma decrypt_and_detect_profile_find (self : gwsettings) (buf : bytes) :
  decrypt_and_detect_profile self buf =
  match List.find (trial_ok buf) (trial_keys self) with
  | Some k => (true, set_key k (set_magic_valid true self), crypt buf k true false)
  | None => (false, self, buf)
  end.
Proof.
  unfold decrypt_and_detect_profile, trial_keys.
  destruct (is_empty (m_key self)) eqn:Hk; cbn [negb].
  - destruct (gw_profile self) as [p|].
    + apply decrypt_with_keys_find.
    + apply decrypt_with_profiles_find.
  - rewrite decrypt_trial. cbn [List.find].
    destruct (trial_ok buf (m_key self)); [|reflexivity].
    replace (set_key (m_key self) (set_magic_valid true self)) with (set_magic_valid true self)
      by (destruct self; reflexivity).
    reflexivity.
Qed.

Lemma gwsettings_read_cases (self : gwsettings) (ins : bytes) :
  let st := set_magic_valid (bytes_eqb (firstn 74 ins) s_magic)
              (validate_checksum_and_detect_profile self ins) in
  gwsettings_read self ins =
  if bytes_eqb (firstn 74 ins) s_magic then read_body st ins
  else
    match List.find (trial_ok ins) (trial_keys st) with
    | Some k => read_body (set_key k (set_magic_valid true st)) (crypt ins k true false)
    | None => Returned (set_encrypted true st)
    end.
Proof.
  intros st. unfold gwsettings_read, read_stream, substr. rewrite s_magic_length.
  cbn [skipn]. fold st.
  replace (m_magic_valid st) with (bytes_eqb (firstn 74 ins) s_magic) by reflexivity.
  destruct (bytes_eqb (firstn 74 ins) s_magic) eqn:Hm; [reflexivity|].
  rewrite decrypt_and_detect_profile_find.
  destruct (List.find (trial_ok ins) (trial_keys st)); reflexivity.
Qed.

Lemma detect_profile_frame (ps : list profile) (self : gwsettings) (buf : bytes) :
  let self' := detect_profile ps self buf in
  m_key self' = m_key self /\ m_groups (gw_settings self') = m_groups (gw_settings self) /\
  m_checksum self' = m_checksum self /\ m_padded self' = m_padded self /\
  m_encrypted self' = m_encrypted self /\ m_magic_valid self' = m_magic_valid self.
Proof.
  intros self'. subst self'. rewrite detect_profile_find.
  destruct (List.find (checksum_matches self buf) ps); [repeat split|].
  destruct ps; repeat split.
Qed.

Lemma validate_frame (self : gwsettings) (buf : bytes) :
  let self' := validate_checksum_and_detect_profile self buf in
  m_key self' = m_key self /\ m_groups (gw_settings self') = m_groups (gw_settings self) /\
  m_checksum self' = m_checksum self /\ m_padded self' = m_padded self /\
  m_encrypted self' = m_encrypted self /\ m_magic_valid self' = m_magic_valid self.
Proof.
  unfold validate_checksum_and_detect_profile.
  destruct (gw_profile self); [repeat split|apply detect_profile_frame].
Qed.


(** C10: a trial that fails changes nothing: [decrypt] replaces the buffer
    and sets [magic_valid] only when the decryption starts with the magic,
    [decrypt_with_profile] records a key only for such a trial, and a key
    search in which every trial fails leaves the object and the buffer as
    they were, so a search begun with no key ends with none recorded. *)
Theorem failed_trials_change_nothing (self : gwsettings) (buf : bytes) :
  (forall key,
     let succeeds := bytes_eqb (firstn 74 (crypt buf key true false)) s_magic in
     decrypt self buf key =
     (succeeds,
      if succeeds then set_magic_valid true self else self,
      if succeeds then crypt buf key true false else buf)) /\
  (forall p ok self' buf',
     decrypt_with_profile self buf p = (ok, self', buf') ->
     (ok = false -> self' = self /\ buf' = buf) /\
     (ok = true ->
      In (m_key self') (default_keys p) /\
      firstn 74 (crypt buf (m_key self') true false) = s_magic /\
      buf' = crypt buf (m_key self') true false)) /\
  (forall self' buf',
     decrypt_and_detect_profile self buf = (false, self', buf') ->
     self' = self /\ buf' = buf) /\
  (forall self' buf',
     m_key self = [] ->
     decrypt_and_detect_profile self buf = (false, self', buf') ->
     m_key self' = [] /\ buf' = buf /\ m_magic_valid self' = m_magic_valid self).
Proof.
  split; [|split; [|split]].
  - intros key succeeds. rewrite decrypt_trial. unfold trial_ok. fold succeeds.
    destruct succeeds; reflexivity.
  - intros p ok self' buf' H. unfold decrypt_with_profile in H.
    rewrite decrypt_with_keys_find in H.
    destruct (List.find (trial_ok buf) (default_keys p)) as [k|] eqn:Hf;
      inversion H; subst; clear H.
    + split; [discriminate|]. intros _. cbn [m_key set_key].
      apply find_some in Hf. destruct Hf as [Hin Hok].
      split; [exact Hin|]. split; [|reflexivity].
      apply bytes_eqb_eq. exact Hok.
    + split; [intros _; split; reflexivity|discriminate].
  - intros self' buf' H. rewrite decrypt_and_detect_profile_find in H.
    destruct (List.find (trial_ok buf) (trial_keys self)); inversion H; subst.
    split; reflexivity.
  - intros self' buf' Hk H. rewrite decrypt_and_detect_profile_find in H.
    destruct (List.find (trial_ok buf) (trial_keys self)); inversion H; subst.
    split; [exact Hk|split; reflexivity].
Qed.


(** ** settings::read: the group-stream reader *)

Lemma settings_read_loop_stop (fuel : nat) (permissive : bool) (type : Z) (ins : istream)
      (group : option nv_group) (remaining mult : Z) (groups : group_list) :
  (remaining =? 0) || eofbit ins = true ->
  settings_read_loop fuel permissive type ins group remaining mult groups
  = Returned (ins, groups).
Proof. intros H. destruct fuel; cbn [settings_read_loop]; rewrite H; reflexivity. Qed.

Lemma settings_read_loop_step (fuel : nat) (permissive : bool) (type : Z) (ins : istream)
      (group : option nv_group) (remaining mult : Z) (groups : group_list) :
  (remaining =? 0) || eofbit ins = false ->
  settings_read_loop (S fuel) permissive type ins group remaining mult groups =
  let ins' := fst (nv_group_read ins group type remaining) in
  let group' := snd (nv_group_read ins group type remaining) in
  if failbit ins' && negb (eofbit ins')
  then
    if negb permissive
    then
      match group' with
      | Some g => Thrown ("failed to read group " ++ group_magic_to_str g)%string (ins', groups)
      | None => NullDeref (ins', groups)
      end
    else Returned (clear_eofbit ins', groups)
  else
    match group' with
    | None => NullDeref (ins', groups)
    | Some g =>
        settings_read_loop fuel permissive type ins' group'
          (wrap_size_t (remaining - group_bytes g))
          (fst (push_group mult groups g)) (snd (push_group mult groups g))
    end.
Proof.
  intros H. cbn [settings_read_loop]. rewrite H.
  destruct (nv_group_read ins group type remaining) as [ins' group'].
  cbn [fst snd]. destruct (failbit ins' && negb (eofbit ins')); [reflexivity|].
  destruct group' as [g|]; [|reflexivity].
  destruct (push_group mult groups g). reflexivity.
Qed.

(** The two modes differ at the first read that fails before the end of the
    input, and only there. *)
Lemma strict_and_permissive (fuel : nat) (type : Z) (ins : istream)
      (group : option nv_group) (remaining mult : Z) (groups : group_list) :
  failed_read_has_group ->
  match settings_read_loop fuel false type ins group remaining mult groups with
  | Thrown _ (ins', groups') =>
      settings_read_loop fuel true type ins group remaining mult groups
      = Returned (clear_eofbit ins', groups')
  | other => settings_read_loop fuel true type ins group remaining mult groups = other
  end.
Proof.
  intros Hgroup. revert ins group remaining mult groups.
  induction fuel as [|fuel IH]; intros ins group remaining mult groups.
  - cbn [settings_read_loop]. destruct ((remaining =? 0) || eofbit ins); reflexivity.
  - destruct ((remaining =? 0) || eofbit ins) eqn:Hstop.
    + rewrite !settings_read_loop_stop by exact Hstop. reflexivity.
    + rewrite !settings_read_loop_step by exact Hstop. cbv zeta.
      pose proof (Hgroup ins group type remaining) as Hg.
      destruct (nv_group_read ins group type remaining) as [ins' group'].
      cbn [fst snd] in *.
      destruct (failbit ins' && negb (eofbit ins')) eqn:Hfail.
      * apply andb_true_iff in Hfail. destruct Hfail as [Hf He].
        apply negb_true_iff in He. specialize (Hg Hf He).
        cbn [negb]. destruct group' as [g|]; [reflexivity|contradiction].
      * destruct group' as [g|]; [apply IH|reflexivity].
Qed.

Lemma permissive_never_throws (fuel : nat) (type : Z) (ins : istream)
      (group : option nv_group) (remaining mult : Z) (groups : group_list)
      (what : string) (st : istream * group_list) :
  settings_read_loop fuel true type ins group remaining mult groups <> Thrown what st.
Proof.
  revert ins group remaining mult groups.
  induction fuel as [|fuel IH]; intros ins group remaining mult groups.
  - cbn [settings_read_loop]. destruct ((remaining =? 0) || eofbit ins); discriminate.
  - destruct ((remaining =? 0) || eofbit ins) eqn:Hstop.
    + rewrite settings_read_loop_stop by exact Hstop. discriminate.
    + rewrite settings_read_loop_step by exact Hstop. cbv zeta.
      destruct (nv_group_read ins group type remaining) as [ins' group'].
      cbn [fst snd negb].
      destruct (failbit ins' && negb (eofbit ins')); [discriminate|].
      destruct group' as [g|]; [apply IH|discriminate].
Qed.

(** One pass per unread byte and one more is fuel enough. *)
Lemma settings_read_loop_total (fuel : nat) (permissive : bool) (type : Z) (ins : istream)
      (group : option nv_group) (remaining mult : Z) (groups : group_list) :
  reader_progress ->
  (List.length (unread ins) < fuel)%nat ->
  settings_read_loop fuel permissive type ins group remaining mult groups <> OutOfFuel.
Proof.
  intros Hprogress. revert ins group remaining mult groups.
  induction fuel as [|fuel IH]; intros ins group remaining mult groups Hfuel; [lia|].
  destruct ((remaining =? 0) || eofbit ins) eqn:Hstop.
  - rewrite settings_read_loop_stop by exact Hstop. discriminate.
  - rewrite settings_read_loop_step by exact Hstop. cbv zeta.
    pose proof (Hprogress ins group type remaining) as Hp.
    destruct (nv_group_read ins group type remaining) as [ins' group'].
    cbn [fst snd] in *.
    destruct (failbit ins' && negb (eofbit ins')) eqn:Hfail.
    + destruct (negb permissive); [destruct group'|]; discriminate.
    + destruct group' as [g|]; [|discriminate].
      destruct (eofbit ins') eqn:He.
      * rewrite settings_read_loop_stop by (rewrite He; apply orb_true_r). discriminate.
      * rewrite andb_true_r in Hfail. apply IH. specialize (Hp Hfail eq_refl). lia.
Qed.

(** The groups in the list after the loop are the ones in it before,
    followed by the groups read, in reading order. *)
Lemma settings_read_loop_sequence (fuel : nat) (permissive : bool) (type : Z)
      (ins : istream) (group : option nv_group) (remaining mult : Z) (groups : group_list)
      (default : istream * group_list) :
  let out := settings_read_loop fuel permissive type ins group remaining mult groups in
  out <> OutOfFuel ->
  map snd (snd (outcome_state default out))
  = map snd groups ++ read_sequence fuel type ins group remaining.
Proof.
  revert ins group remaining mult groups.
  induction fuel as [|fuel IH]; intros ins group remaining mult groups out Hout; subst out.
  - cbn [settings_read_loop read_sequence] in *.
    destruct ((remaining =? 0) || eofbit ins); [|contradiction].
    cbn. now rewrite app_nil_r.
  - destruct ((remaining =? 0) || eofbit ins) eqn:Hstop.
    + rewrite settings_read_loop_stop by exact Hstop.
      cbn [read_sequence]. rewrite Hstop. cbn. now rewrite app_nil_r.
    + rewrite settings_read_loop_step in * by exact Hstop. cbv zeta in *.
      cbn [read_sequence]. rewrite Hstop.
      destruct (nv_group_read ins group type remaining) as [ins' group'].
      cbn [fst snd] in *.
      destruct (failbit ins' && negb (eofbit ins')).
      * destruct (negb permissive); [destruct group'|]; cbn; now rewrite app_nil_r.
      * destruct group' as [g|]; [|cbn; now rewrite app_nil_r].
        rewrite IH by exact Hout.
        unfold push_group. destruct (find (group_name g) groups);
          cbn [fst snd]; rewrite map_app, <- app_assoc; reflexivity.
Qed.


(** C7: a freshly constructed container is permissive.  When a read fails
    before the end of the input, the permissive reader sets [eofbit], stops
    and returns the groups it has, and the strict reader throws.  The reader
    always comes to an end; the permissive one never throws, and it ends
    with exactly the groups the strict one had accepted when it threw (or
    returned): the groups read up to the first bad one. *)
Theorem permissive_stops_where_strict_throws
  (Hgroup : failed_read_has_group) (Hprogress : reader_progress)
  (self : settings) (data_bytes : Z) (ins : istream) :
  let strict := settings_read (set_permissive false self) data_bytes ins in
  let permissive := settings_read (set_permissive true self) data_bytes ins in
  (forall type p, m_permissive (new_settings type p) = true) /\
  (forall fuel type ins0 group remaining mult groups,
     (remaining =? 0) || eofbit ins0 = false ->
     let ins' := fst (nv_group_read ins0 group type remaining) in
     failbit ins' = true -> eofbit ins' = false ->
     settings_read_loop (S fuel) true type ins0 group remaining mult groups
     = Returned (clear_eofbit ins', groups) /\
     eofbit (clear_eofbit ins') = true /\
     exists g,
       snd (nv_group_read ins0 group type remaining) = Some g /\
       settings_read_loop (S fuel) false type ins0 group remaining mult groups
       = Thrown ("failed to read group " ++ group_magic_to_str g)%string (ins', groups)) /\
  strict <> OutOfFuel /\ permissive <> OutOfFuel /\
  (forall what st, permissive <> Thrown what st) /\
  match strict with
  | Thrown _ (ins', s) => permissive = Returned (clear_eofbit ins', set_permissive true s)
  | Returned (ins', s) => permissive = Returned (ins', set_permissive true s)
  | NullDeref (ins', s) => permissive = NullDeref (ins', set_permissive true s)
  | OutOfFuel => False
  end /\
  m_groups (snd (outcome_state (ins, self) permissive))
  = m_groups (snd (outcome_state (ins, self) strict)) /\
  map snd (m_groups (snd (outcome_state (ins, self) permissive)))
  = map snd (m_groups self)
      ++ read_sequence (S (List.length (unread ins))) (m_type self) ins None data_bytes.
Proof.
  intros strict permissive.
  assert (Hs : strict <> OutOfFuel).
  { unfold strict, settings_read. cbn [m_permissive m_type m_groups set_permissive].
    pose proof (settings_read_loop_total (S (List.length (unread ins))) false (m_type self)
                  ins None data_bytes 1 (m_groups self) Hprogress (Nat.lt_succ_diag_r _)) as H.
    destruct (settings_read_loop _ _ _ _ _ _ _ _); cbn; try discriminate. contradiction. }
  assert (Hp : permissive <> OutOfFuel).
  { unfold permissive, settings_read. cbn [m_permissive m_type m_groups set_permissive].
    pose proof (settings_read_loop_total (S (List.length (unread ins))) true (m_type self)
                  ins None data_bytes 1 (m_groups self) Hprogress (Nat.lt_succ_diag_r _)) as H.
    destruct (settings_read_loop _ _ _ _ _ _ _ _); cbn; try discriminate. contradiction. }
  assert (Hrel :
    match strict with
    | Thrown _ (ins', s) => permissive = Returned (clear_eofbit ins', set_permissive true s)
    | Returned (ins', s) => permissive = Returned (ins', set_permissive true s)
    | NullDeref (ins', s) => permissive = NullDeref (ins', set_permissive true s)
    | OutOfFuel => False
    end).
  { revert Hs. unfold strict, permissive, settings_read.
    cbn [m_permissive m_type m_groups set_permissive].
    pose proof (strict_and_permissive (S (List.length (unread ins))) (m_type self) ins None
                  data_bytes 1 (m_groups self) Hgroup) as H.
    destruct (settings_read_loop (S (List.length (unread ins))) false _ _ _ _ _ _)
      as [[i g]|w [i g]|[i g]|]; rewrite H; cbn; intros Hne; try reflexivity.
    contradiction. }
  split; [reflexivity|]. split; [|split; [exact Hs|split; [exact Hp|split; [|split; [exact Hrel|split]]]]].
  - intros fuel type ins0 group remaining mult groups Hgo ins' Hf He.
    pose proof (Hgroup ins0 group type remaining Hf He) as Hg.
    rewrite !settings_read_loop_step by exact Hgo. cbv zeta. fold ins'.
    rewrite Hf, He. cbn [andb negb]. split; [reflexivity|]. split; [reflexivity|].
    destruct (snd (nv_group_read ins0 group type remaining)) as [g|]; [|contradiction].
    exists g. split; reflexivity.
  - intros what st. unfold permissive, settings_read.
    cbn [m_permissive m_type m_groups set_permissive].
    pose proof (permissive_never_throws (S (List.length (unread ins))) (m_type self) ins None
                  data_bytes 1 (m_groups self)) as H.
    destruct (settings_read_loop _ true _ _ _ _ _ _) as [a|w a|a|]; cbn; try discriminate.
    exfalso. exact (H w a eq_refl).
  - destruct strict as [[i s]|w [i s]|[i s]|]; try contradiction; rewrite Hrel; reflexivity.
  - revert Hp. unfold permissive, settings_read.
    cbn [m_permissive m_type m_groups set_permissive].
    pose proof (settings_read_loop_sequence (S (List.length (unread ins))) true (m_type self)
                  ins None data_bytes 1 (m_groups self) (ins, m_groups self)) as H.
    cbv zeta in H.
    destruct (settings_read_loop _ true _ _ _ _ _ _) as [a|w a|a|]; cbn in *; intros Hne;
      try (apply H; discriminate).
    contradiction.
Qed.

(** ** The names the reader gives *)

Lemma find_existsb (name : string) (groups : group_list) :
  find name groups = existsb (fun t => String.eqb t name) (map fst groups).
Proof.
  unfold find. induction groups as [|e groups IH]; [reflexivity|].
  cbn [existsb map]. now rewrite IH.
Qed.

Lemma underscore_in_append (a t : string) :
  underscore_free (a ++ String "_" t) = false.
Proof.
  induction a as [|c a IH]; cbn [append underscore_free].
  - reflexivity.
  - rewrite IH. apply andb_false_r.
Qed.

Lemma suffix_after_underscore (a b s t : string) :
  underscore_free s = true -> underscore_free t = true ->
  (a ++ "_" ++ s = b ++ "_" ++ t)%string -> s = t.
Proof.
  intros Hs Ht. revert b. induction a as [|c a IH]; intros [|d b] H; cbn [append] in H.
  - now inversion H.
  - inversion H; subst. rewrite underscore_in_append in Hs. discriminate.
  - inversion H; subst. rewrite underscore_in_append in Ht. discriminate.
  - inversion H. eapply IH. eassumption.
Qed.

Lemma string_of_uint_underscore_free (d : Decimal.uint) :
  underscore_free (NilEmpty.string_of_uint d) = true.
Proof. induction d; cbn; auto. Qed.

Lemma to_string_inj (x y : Z) : 0 <= x -> 0 <= y -> to_string x = to_string y -> x = y.
Proof.
  intros Hx Hy H. unfold to_string in H.
  apply (f_equal NilEmpty.uint_of_string) in H. rewrite !NilEmpty.usu in H.
  inversion H as [H']. apply DecimalN.Unsigned.to_uint_inj in H'.
  apply Z2N.inj; assumption.
Qed.

Lemma suffixed_name_inj (a b : string) (x y : Z) :
  0 <= x -> 0 <= y ->
  (a ++ "_" ++ to_string x = b ++ "_" ++ to_string y)%string -> x = y.
Proof.
  intros Hx Hy H. apply to_string_inj; try assumption.
  eapply suffix_after_underscore; [| |exact H]; apply string_of_uint_underscore_free.
Qed.

Lemma existsb_eqb_In (n : string) (taken : list string) :
  existsb (fun t => String.eqb t n) taken = true <-> In n taken.
Proof.
  rewrite existsb_exists. split.
  - intros (t & Hin & Heq). apply String.eqb_eq in Heq. now subst.
  - intros Hin. exists n. split; [exact Hin|apply String.eqb_refl].
Qed.


Lemma settings_read_loop_names (fuel : nat) (permissive : bool) (type : Z)
      (ins : istream) (group : option nv_group) (remaining : Z) (renamed : nat)
      (groups : group_list) (default : istream * group_list) :
  let out := settings_read_loop fuel permissive type ins group remaining
               (Z.of_nat renamed + 1) groups in
  out <> OutOfFuel ->
  Z.of_nat renamed
  + Z.of_nat (List.length (read_sequence fuel type ins group remaining)) + 1 < 2 ^ 32 ->
  map fst (snd (outcome_state default out))
  = map fst groups
      ++ given_names renamed (map fst groups)
           (map group_name (read_sequence fuel type ins group remaining)).
Proof.
  revert ins group remaining renamed groups.
  induction fuel as [|fuel IH]; intros ins group remaining renamed groups out Hout Hbound;
    subst out.
  - cbn [settings_read_loop read_sequence] in *.
    destruct ((remaining =? 0) || eofbit ins); [|contradiction].
    cbn. now rewrite app_nil_r.
  - destruct ((remaining =? 0) || eofbit ins) eqn:Hstop.
    + rewrite settings_read_loop_stop by exact Hstop.
      cbn [read_sequence]. rewrite Hstop. cbn. now rewrite app_nil_r.
    + rewrite settings_read_loop_step in * by exact Hstop. cbv zeta in *.
      cbn [read_sequence] in *. rewrite Hstop in *.
      destruct (nv_group_read ins group type remaining) as [ins' group'].
      cbn [fst snd] in *.
      destruct (failbit ins' && negb (eofbit ins')).
      * destruct (negb permissive); [destruct group'|]; cbn; now rewrite app_nil_r.
      * destruct group' as [g|]; [|cbn; now rewrite app_nil_r].
        cbn [List.length map given_names] in *.
        unfold push_group in *. rewrite find_existsb in *.
        destruct (existsb (fun t => String.eqb t (group_name g)) (map fst groups)).
        -- cbn [fst snd] in *.
           assert (Hw : wrap32 (Z.of_nat renamed + 1 + 1) = Z.of_nat (S renamed) + 1).
           { unfold wrap32. rewrite Z.mod_small; lia. }
           rewrite Hw in *. rewrite IH by (try exact Hout; lia).
           rewrite map_app. cbn [map fst].
           replace (Z.of_nat (S renamed) + 1) with (Z.of_nat renamed + 2) by lia.
           rewrite <- app_assoc. reflexivity.
        -- cbn [fst snd] in *. rewrite IH by (try exact Hout; lia).
           rewrite map_app. cbn [map fst]. rewrite <- app_assoc. reflexivity.
Qed.

(** Names given under one counter never repeat, unless a group's own name
    already looks like a renamed one. *)
Lemma given_names_NoDup (universe own : list string) (renamed : nat) (taken : list string) :
  no_suffixed_name universe ->
  incl own universe ->
  NoDup taken ->
  (forall t, In t taken ->
     In t universe \/
     exists o j, 2 <= j < Z.of_nat renamed + 2 /\ t = (o ++ "_" ++ to_string j)%string) ->
  NoDup (taken ++ given_names renamed taken own).
Proof.
  intros Hclean. revert renamed taken.
  induction own as [|n own IH]; intros renamed taken Hown Hnd Htaken.
  - cbn. now rewrite app_nil_r.
  - cbn [given_names].
    assert (Hn : In n universe) by (apply Hown; left; reflexivity).
    assert (Hown' : incl own universe) by (intros x Hx; apply Hown; right; exact Hx).
    destruct (existsb (fun t => String.eqb t n) taken) eqn:Hex.
    + set (n' := (n ++ "_" ++ to_string (Z.of_nat renamed + 2))%string).
      assert (Hfresh : ~ In n' taken).
      { intros Hin. destruct (Htaken _ Hin) as [Hu|(o & j & Hj & Heq)].
        - apply (Hclean n' n (Z.of_nat renamed + 2)); [exact Hu|exact Hn|lia|reflexivity].
        - unfold n' in Heq. apply suffixed_name_inj in Heq; lia. }
      replace (taken ++ n' :: given_names (S renamed) (taken ++ [n']) own)
        with ((taken ++ [n']) ++ given_names (S renamed) (taken ++ [n']) own)
        by (rewrite <- app_assoc; reflexivity).
      apply IH; [exact Hown'| |].
      * apply NoDup_app; [exact Hnd|repeat constructor; intros []|].
        intros x Hx [<-|[]]. exact (Hfresh Hx).
      * intros t Ht. apply in_app_or in Ht. destruct Ht as [Ht|[<-|[]]].
        -- destruct (Htaken _ Ht) as [Hu|(o & j & Hj & Heq)]; [left; exact Hu|].
           right. exists o, j. split; [lia|exact Heq].
        -- right. exists n, (Z.of_nat renamed + 2). split; [lia|reflexivity].
    + assert (Hfresh : ~ In n taken).
      { intros Hin. apply existsb_eqb_In in Hin. congruence. }
      replace (taken ++ n :: given_names renamed (taken ++ [n]) own)
        with ((taken ++ [n]) ++ given_names renamed (taken ++ [n]) own)
        by (rewrite <- app_assoc; reflexivity).
      apply IH; [exact Hown'| |].
      * apply NoDup_app; [exact Hnd|repeat constructor; intros []|].
        intros x Hx [<-|[]]. exact (Hfresh Hx).
      * intros t Ht. apply in_app_or in Ht. destruct Ht as [Ht|[<-|[]]].
        -- exact (Htaken _ Ht).
        -- left. exact Hn.
Qed.

Lemma given_names_length (renamed : nat) (taken own : list string) :
  List.length (given_names renamed taken own) = List.length own.
Proof.
  revert renamed taken. induction own as [|n own IH]; intros; [reflexivity|].
  cbn [given_names]. destruct (existsb _ taken); cbn [List.length]; now rewrite IH.
Qed.


Lemma given_names_fresh (renamed : nat) (taken fresh rest : list string) :
  NoDup (taken ++ fresh) ->
  given_names renamed taken (fresh ++ rest)
  = fresh ++ given_names renamed (taken ++ fresh) rest.
Proof.
  revert taken. induction fresh as [|n fresh IH]; intros taken Hnd.
  - cbn. now rewrite app_nil_r.
  - cbn [app given_names].
    assert (Hn : existsb (fun t => String.eqb t n) taken = false).
    { destruct (existsb (fun t => String.eqb t n) taken) eqn:Hex; [|reflexivity].
      apply existsb_eqb_In in Hex. apply NoDup_remove_2 in Hnd.
      exfalso. apply Hnd. apply in_or_app. left. exact Hex. }
    rewrite Hn, IH.
    + rewrite <- app_assoc. reflexivity.
    + rewrite <- app_assoc. exact Hnd.
Qed.

Lemma given_names_form (renamed : nat) (taken own : list string) :
  Forall2 (fun o g => g = o \/
                      exists j, Z.of_nat renamed + 2 <= j /\ g = (o ++ "_" ++ to_string j)%string)
          own (given_names renamed taken own).
Proof.
  revert renamed taken. induction own as [|n own IH]; intros renamed taken; [constructor|].
  cbn [given_names]. destruct (existsb (fun t => String.eqb t n) taken).
  - constructor.
    + right. exists (Z.of_nat renamed + 2). split; [lia|reflexivity].
    + eapply Forall2_impl; [|apply IH]. cbn beta. intros o g [->|(j & Hj & ->)]; [now left|].
      right. exists j. split; [lia|reflexivity].
  - constructor; [now left|apply IH].
Qed.

Lemma settings_read_groups (self : settings) (data_bytes : Z) (ins : istream) :
  m_groups (snd (outcome_state (ins, self) (settings_read self data_bytes ins)))
  = snd (outcome_state (ins, m_groups self)
           (settings_read_loop (S (List.length (unread ins))) (m_permissive self)
              (m_type self) ins None data_bytes 1 (m_groups self))).
Proof.
  unfold settings_read.
  destruct (settings_read_loop _ _ _ _ _ _ _ _); reflexivity.
Qed.

(** C8, as the code has it: the list holds the groups in the order they
    were read; a group whose name is already in the list gets the suffix
    [_<n>] from one counter shared by all names, so the first group renamed
    in a stream gets [_2] (never [_1]) and every later one, whatever its
    name, the next number; the names are then all different provided no
    group's own name is another's followed by [_<n>].  (Fewer than 2^32 - 1
    groups: the counter is an [unsigned].) *)
Theorem group_names_one_counter (self : settings) (data_bytes : Z) (ins : istream) :
  let out := settings_read self data_bytes ins in
  let groups := m_groups (snd (outcome_state (ins, self) out)) in
  let own := map group_name (map snd groups) in
  m_groups self = [] ->
  out <> OutOfFuel ->
  Z.of_nat (List.length groups) + 1 < 2 ^ 32 ->
  map snd groups
  = read_sequence (S (List.length (unread ins))) (m_type self) ins None data_bytes /\
  map fst groups = given_names 0 [] own /\
  Forall2 (fun o g => g = o \/ exists j, 2 <= j /\ g = (o ++ "_" ++ to_string j)%string)
          own (map fst groups) /\
  (forall first n rest,
     own = first ++ n :: rest -> NoDup first -> In n first ->
     map fst groups
     = first ++ (n ++ "_2")%string :: given_names 1 (first ++ [(n ++ "_2")%string]) rest) /\
  (no_suffixed_name own -> NoDup (map fst groups)).
Proof.
  intros out groups own Hempty Hout Hbound.
  assert (Hgroups : groups = snd (outcome_state (ins, [])
            (settings_read_loop (S (List.length (unread ins))) (m_permissive self)
               (m_type self) ins None data_bytes 1 [])))
    by (subst groups out; rewrite settings_read_groups, Hempty; reflexivity).
  assert (Hloop : settings_read_loop (S (List.length (unread ins))) (m_permissive self)
                    (m_type self) ins None data_bytes 1 [] <> OutOfFuel).
  { intros H. apply Hout. subst out. unfold settings_read. rewrite Hempty, H. reflexivity. }
  assert (Hseq : map snd groups
                 = read_sequence (S (List.length (unread ins))) (m_type self) ins None data_bytes).
  { rewrite Hgroups. apply (settings_read_loop_sequence _ _ _ _ _ _ 1 [] (ins, []) Hloop). }
  assert (Hnames : map fst groups = given_names 0 [] own).
  { subst own. rewrite Hseq.
    assert (Hlen : List.length groups
                   = List.length (read_sequence (S (List.length (unread ins))) (m_type self)
                                    ins None data_bytes))
      by (rewrite <- Hseq; symmetry; apply length_map).
    rewrite Hlen in Hbound. rewrite Hgroups.
    apply (settings_read_loop_names _ _ _ _ _ _ 0%nat [] (ins, []) Hloop). lia. }
  split; [exact Hseq|]. split; [exact Hnames|]. split; [|split].
  - rewrite Hnames. exact (given_names_form 0 [] own).
  - intros first n rest Hown Hnd Hin. rewrite Hnames, Hown.
    rewrite given_names_fresh by exact Hnd. cbn [app given_names].
    replace (existsb (fun t => String.eqb t n) first) with true
      by (symmetry; apply existsb_eqb_In; exact Hin).
    reflexivity.
  - intros Hclean. rewrite Hnames.
    apply (given_names_NoDup own own 0 []); [exact Hclean|apply incl_refl|constructor|].
    intros t [].
Qed.


(** ** permdyn *)




(** C9, as the code has it: [permdyn::write] emits 202 bytes of 0xFF, the
    big-endian u32 of 8 + len(body), the big-endian u32 of the CRC-32
    register value of the body with the final XOR undone, and the body, and
    nothing else: nothing is encrypted and nothing follows the body. *)
Theorem permdyn_write_layout (self : permdyn) :
  let body := settings_write (m_groups (pd_settings self)) in
  permdyn_write self
  = repeat xff 202
      ++ be_bytes 4 ((8 + Z.of_nat (List.length body)) mod 2 ^ 32)
      ++ be_bytes 4 (crc_optimal crc_32_no_final_xor body mod 2 ^ 32)
      ++ body /\
  List.length (permdyn_write self) = (202 + 4 + 4 + List.length body)%nat /\
  crc_optimal crc_32_no_final_xor body = Z.lxor (crc_optimal crc_32_type body) 0xffffffff /\
  crc_optimal crc_32_no_final_xor body <> crc_optimal crc_32_type body.
Proof.
  intros body. unfold permdyn_write. fold body. rewrite crc32_no_final_xor.
  split; [reflexivity|]. split; [|split].
  - unfold fill, nv_u32_write. rewrite !length_app, repeat_length, !be_bytes_length. lia.
  - rewrite <- crc32_no_final_xor. reflexivity.
  - rewrite <- crc32_no_final_xor. apply crc32_never_standard.
Qed.


(** ** gwsettings: the size flags, the trailer and the round trip *)

Lemma read_body_header (self : gwsettings) (buf : bytes) (version size : Z) (stream : bytes) :
  0 <= version < 2 ^ 16 ->
  0 <= size < 2 ^ 32 ->
  skipn 74 buf = nv_version_write version ++ nv_u32_write size ++ stream ->
  let len := Z.of_nat (List.length buf) in
  let padded := negb (size =? len) && (wrap32 (size + 16) =? len) in
  let st :=
    set_padded (m_padded self || padded)
      (set_size_valid ((size =? len) || (wrap32 (size + 16) =? len))
         (set_size size (set_version version self))) in
  read_body self buf
  = outcome_map (fun r => set_settings (snd r) st)
      (settings_read (gw_settings self) (wrap_size_t (size - 80)) (istringstream stream)).
Proof.
  intros Hv Hs Hbuf len padded st. unfold read_body.
  rewrite s_magic_length, Hbuf.
  rewrite nv_version_read_write by exact Hv.
  rewrite nv_u32_read_write by exact Hs.
  cbn [m_size_valid m_size set_size_valid set_size set_version set_padded].
  fold len. subst st padded.
  destruct (size =? len) eqn:H1; cbn [negb andb orb].
  - rewrite orb_false_r. destruct self; reflexivity.
  - destruct (wrap32 (size + 16) =? len) eqn:H2; cbn [orb];
      [rewrite orb_true_r|rewrite orb_false_r]; destruct self; reflexivity.
Qed.




Lemma be_value_snoc (bs : bytes) (b : byte) (acc : Z) :
  be_value (bs ++ [b]) acc = 256 * be_value bs acc + Z_of_byte b.
Proof. rewrite be_value_app. reflexivity. Qed.

Lemma be_value_range (bs : bytes) :
  0 <= be_value bs 0 < 256 ^ Z.of_nat (List.length bs).
Proof.
  induction bs as [|b bs IH] using rev_ind; [cbn; lia|].
  rewrite be_value_snoc, length_app. cbn [List.length].
  replace (Z.of_nat (List.length bs + 1)) with (Z.succ (Z.of_nat (List.length bs))) by lia.
  rewrite Z.pow_succ_r by lia. pose proof (Z_of_byte_range b). lia.
Qed.

Lemma be_bytes_be_value (bs : bytes) :
  be_bytes (List.length bs) (be_value bs 0) = bs.
Proof.
  induction bs as [|b bs IH] using rev_ind; [reflexivity|].
  rewrite be_value_snoc, length_app. cbn [List.length].
  replace (List.length bs + 1)%nat with (S (List.length bs)) by lia.
  unfold be_bytes in *. cbn [le_bytes map rev].
  pose proof (Z_of_byte_range b) as Hb.
  replace ((256 * be_value bs 0 + Z_of_byte b) mod 256) with (Z_of_byte b)
    by (rewrite Z.add_comm, Z.mul_comm, Z_mod_plus_full, Z.mod_small; lia).
  replace ((256 * be_value bs 0 + Z_of_byte b) / 256) with (be_value bs 0)
    by (rewrite Z.add_comm, Z.mul_comm, Z_div_plus_full, Z.div_small; lia).
  rewrite IH, byte_of_Z_of_byte. reflexivity.
Qed.

Lemma read_be_inv (n : nat) (ins : bytes) (v : Z) (rest : bytes) :
  read_be n ins = Some (v, rest) ->
  ins = be_bytes n v ++ rest /\ 0 <= v < 256 ^ Z.of_nat n.
Proof.
  unfold read_be. destruct (List.length ins <? n)%nat eqn:Hlen; [discriminate|].
  apply Nat.ltb_ge in Hlen. intros H. inversion H; subst; clear H.
  assert (Hn : List.length (firstn n ins) = n) by (rewrite length_firstn; lia).
  pose proof (be_bytes_be_value (firstn n ins)) as Hbe.
  pose proof (be_value_range (firstn n ins)) as Hrange.
  rewrite Hn in Hbe, Hrange.
  split; [|exact Hrange].
  rewrite Hbe. symmetry. apply firstn_skipn.
Qed.

Lemma crypt_encrypt_decrypt (buf key : bytes) :
  aes_inverse -> aes_block_length ->
  crypt (crypt buf key true false) key false false = buf.
Proof.
  intros Hinv Hlen.
  destruct (blocks_and_tail buf) as (blocks & tail & -> & Hblocks & Htail).
  rewrite (crypt_unfold _ key true false). unfold crypt_input. cbn [negb andb].
  rewrite crypt_blocks_concat by assumption.
  rewrite crypt_unfold. unfold crypt_input. cbn [negb andb].
  rewrite flat_map_concat_map, crypt_blocks_concat.
  - f_equal. rewrite flat_map_concat_map, map_map. f_equal.
    induction Hblocks as [|b bs Hb _ IH]; [reflexivity|].
    cbn [map]. rewrite IH. f_equal. unfold crypt_cipher. apply Hinv. exact Hb.
  - apply Forall_map. eapply Forall_impl; [|exact Hblocks].
    intros b Hb. unfold crypt_cipher. apply Hlen. exact Hb.
  - exact Htail.
Qed.

Lemma validate_checksum_valid (self : gwsettings) (buf : bytes) :
  m_checksum_valid self = false ->
  m_checksum_valid (validate_checksum_and_detect_profile self buf) = true ->
  exists p,
    gw_profile (validate_checksum_and_detect_profile self buf) = Some p /\
    m_checksum self = MD5 (buf ++ md5_key p).
Proof.
  intros Hfresh. unfold validate_checksum_and_detect_profile.
  destruct (gw_profile self) as [p|] eqn:Hp.
  - rewrite validate_checksum_matches. cbn [snd m_checksum_valid set_checksum_valid].
    intros Hm. exists p. split; [exact Hp|]. apply bytes_eqb_eq. exact Hm.
  - rewrite detect_profile_find.
    destruct (List.find (checksum_matches self buf) profile_list) as [p|] eqn:Hf.
    + intros _. exists p. split; [reflexivity|].
      apply find_some in Hf. apply bytes_eqb_eq. exact (proj2 Hf).
    + destruct profile_list; cbn [m_checksum_valid set_checksum_valid]; congruence.
Qed.

Lemma read_body_returned (self : gwsettings) (buf : bytes) (st : gwsettings) :
  read_body self buf = Returned st ->
  exists version size stream s,
    skipn 74 buf = be_bytes 2 version ++ be_bytes 4 size ++ stream /\
    0 <= version < 2 ^ 16 /\ 0 <= size < 2 ^ 32 /\
    m_profile s = gw_profile self /\
    st = set_settings s
           (set_padded (m_padded self
                        || (negb (size =? Z.of_nat (List.length buf))
                            && (wrap32 (size + 16) =? Z.of_nat (List.length buf))))
              (set_size_valid ((size =? Z.of_nat (List.length buf))
                               || (wrap32 (size + 16) =? Z.of_nat (List.length buf)))
                 (set_size size (set_version version self)))).
Proof.
  intros H.
  assert (Hhdr : exists version size stream,
             skipn 74 buf = be_bytes 2 version ++ be_bytes 4 size ++ stream /\
             0 <= version < 2 ^ 16 /\ 0 <= size < 2 ^ 32).
  { unfold read_body in H. rewrite s_magic_length in H.
    unfold nv_version_read, nv_u32_read in H.
    destruct (read_be 2 (skipn 74 buf)) as [[v r1]|] eqn:Hv; [|discriminate].
    destruct (read_be 4 r1) as [[sz r2]|] eqn:Hs; [|discriminate].
    apply read_be_inv in Hv. apply read_be_inv in Hs.
    destruct Hv as [Hv Hvr], Hs as [Hs Hsr].
    exists v, sz, r2. rewrite Hv, Hs. repeat split; try lia. }
  destruct Hhdr as (version & size & stream & Hbuf & Hv & Hs).
  assert (Hbuf' : skipn 74 buf = nv_version_write version ++ nv_u32_write size ++ stream).
  { unfold nv_version_write, nv_u32_write, wrap32. rewrite !Z.mod_small by lia. exact Hbuf. }
  rewrite (read_body_header self buf version size stream Hv Hs Hbuf') in H.
  unfold settings_read in H. rewrite outcome_map_map in H.
  destruct (settings_read_loop _ _ _ _ _ _ _ _) as [[i gs]|w a|a|]; try discriminate.
  cbn [outcome_map fst snd] in H. inversion H as [Hst].
  exists version, size, stream, (set_groups gs (gw_settings self)).
  repeat split; try assumption; try lia.
Qed.


Lemma rebuild_buffer (buf : bytes) (version size : Z) (stream body : bytes) :
  firstn 74 buf = s_magic ->
  skipn 74 buf = be_bytes 2 version ++ be_bytes 4 size ++ stream ->
  0 <= version < 2 ^ 16 ->
  0 <= size < 2 ^ 32 ->
  size = Z.of_nat (List.length buf) ->
  body = skipn 80 buf ->
  s_magic ++ nv_version_write version
    ++ nv_u32_write (Z.of_nat (List.length s_magic) + 6 + Z.of_nat (List.length body)) ++ body
  = buf.
Proof.
  intros Hmagic Hskip Hv Hs Hsize Hbody.
  assert (Hstream : skipn 80 buf = stream).
  { change 80%nat with (6 + 74)%nat. rewrite <- skipn_skipn, Hskip, app_assoc.
    apply skipn_length_app. rewrite length_app, !be_bytes_length. reflexivity. }
  assert (Hbuf : buf = s_magic ++ be_bytes 2 version ++ be_bytes 4 size ++ stream).
  { rewrite <- Hmagic, <- Hskip. symmetry. apply firstn_skipn. }
  assert (Hlen : Z.of_nat (List.length buf) = 80 + Z.of_nat (List.length stream)).
  { rewrite Hbuf at 1. rewrite !length_app, !be_bytes_length, s_magic_length. lia. }
  rewrite Hbody, Hstream, s_magic_length.
  unfold nv_version_write, nv_u32_write, wrap32.
  replace (Z.of_nat 74 + 6 + Z.of_nat (List.length stream)) with size by lia.
  rewrite !Z.mod_small by lia. symmetry. exact Hbuf.
Qed.

(** X2, what holds of C2: a gwsettings file that is not padded, read by a fresh
    object with its checksum found valid (so a profile is known), whose
    groups serialise to the bytes they were read from, is written back
    byte for byte; when a key was found, provided the ciphertext decrypts
    and encrypts back to itself, as it does when [AES_encrypt] inverts
    [AES_decrypt] on blocks ([crypt_encrypt_decrypt]). *)
Theorem unpadded_round_trip
        (checksum : bytes) (p0 : option profile) (ins : bytes) (st : gwsettings) :
  gwsettings_read (new_gwsettings checksum p0) ins = Returned st ->
  m_encrypted st = false ->
  m_checksum_valid st = true ->
  m_size_valid st = true ->
  m_padded st = false ->
  (firstn 74 ins = s_magic \/ m_key st <> []) ->
  (m_key st <> [] ->
   crypt (crypt ins (m_key st) true false) (m_key st) false false = ins) ->
  settings_write (m_groups (gw_settings st))
  = skipn 80 (if is_empty (m_key st) then ins else crypt ins (m_key st) true false) ->
  gwsettings_write st = Returned (checksum ++ ins).
Proof.
  intros Hread Henc Hvalid Hsize Hpad Hkey Hcrypt Hbody.
  rewrite gwsettings_read_cases in Hread. cbv zeta in Hread.
  pose proof (validate_frame (new_gwsettings checksum p0) ins) as Hframe.
  cbv zeta in Hframe.
  pose proof (validate_checksum_valid (new_gwsettings checksum p0) ins eq_refl) as Hprofile.
  set (st1 := validate_checksum_and_detect_profile (new_gwsettings checksum p0) ins) in *.
  destruct Hframe as (Hk1 & _ & _ & Hp1 & He1 & _).
  cbn [m_key m_padded m_encrypted new_gwsettings] in Hk1, Hp1, He1.
  cbn [m_checksum new_gwsettings] in Hprofile.
  (* The buffer the body was read from, and the object it was read into. *)
  assert (Hcases : exists st0 buf,
             read_body st0 buf = Returned st /\
             firstn 74 buf = s_magic /\
             gw_profile st0 = gw_profile st1 /\
             m_checksum_valid st0 = m_checksum_valid st1 /\
             m_padded st0 = false /\
             (is_empty (m_key st0) = true /\ buf = ins \/
              is_empty (m_key st0) = false /\ buf = crypt ins (m_key st0) true false)).
  { destruct (bytes_eqb (firstn 74 ins) s_magic) eqn:Hm.
    - exists (set_magic_valid true st1), ins. repeat split; try assumption.
      + apply bytes_eqb_eq. exact Hm.
      + left. cbn [m_key set_magic_valid]. rewrite Hk1. split; reflexivity.
    - destruct (List.find (trial_ok ins) (trial_keys (set_magic_valid false st1)))
        as [k|] eqn:Hf.
      + exists (set_key k (set_magic_valid true (set_magic_valid false st1))),
          (crypt ins k true false).
        apply find_some in Hf. destruct Hf as [_ Hok].
        repeat split; try assumption.
        * apply bytes_eqb_eq. exact Hok.
        * cbn [m_key set_key]. destruct k as [|b k].
          -- (* an empty key: the object read has no key, and the magic was not there *)
             exfalso. destruct Hkey as [Hmagic|Hnokey].
             ++ apply bytes_eqb_eq in Hmagic. congruence.
             ++ apply read_body_returned in Hread.
                destruct Hread as (v & sz & stream & s & _ & _ & _ & _ & ->).
                apply Hnokey. reflexivity.
          -- right. split; reflexivity.
      + inversion Hread; subst. discriminate Henc. }
  destruct Hcases as (st0 & buf & Hbodyread & Hmagic & Hprof0 & Hvalid0 & Hpad0 & Hbuf).
  apply read_body_returned in Hbodyread.
  destruct Hbodyread as (v & sz & stream & s & Hskip & Hv & Hsz & Hs & ->).
  cbn [m_checksum_valid m_size_valid m_padded m_key m_groups gw_settings set_settings
         set_padded set_size_valid set_size set_version] in *.
  assert (Hlenbuf : sz = Z.of_nat (List.length buf)).
  { rewrite Hpad0 in Hpad.
    destruct (sz =? Z.of_nat (List.length buf)) eqn:H1; [apply Z.eqb_eq; exact H1|].
    cbn [negb andb orb] in Hpad, Hsize. congruence. }
  rewrite Hvalid0 in Hvalid. destruct (Hprofile Hvalid) as (p & Hp & Hsum).
  unfold gwsettings_write, gw_profile.
  cbn [gw_settings set_settings m_version m_key m_padded set_padded set_size_valid set_size
         set_version].
  rewrite Hs, Hprof0, Hp, calc_checksum_profile, Hpad.
  assert (Hplain : s_magic ++ nv_version_write v
                     ++ nv_u32_write (Z.of_nat (List.length s_magic) + 6
                                      + Z.of_nat (List.length (settings_write (m_groups s))))
                     ++ settings_write (m_groups s) = buf).
  { apply (rebuild_buffer buf v sz stream); try assumption.
    rewrite Hbody. destruct Hbuf as [[-> ->]|[-> ->]]; reflexivity. }
  rewrite <- ?app_assoc. rewrite Hplain.
  destruct Hbuf as [[Hk ->]|[Hk ->]]; rewrite Hk; cbn [negb orb app].
  - rewrite app_nil_r, <- Hsum. reflexivity.
  - rewrite Hcrypt by (intros Hnil; rewrite Hnil in Hk; discriminate).
    rewrite app_nil_r, <- Hsum. reflexivity.
Qed.



(** ** What a read leaves of the object *)

Lemma settings_read_frame (self : settings) (data_bytes : Z) (ins : istream) :
  let s := snd (outcome_state (ins, self) (settings_read self data_bytes ins)) in
  m_profile s = m_profile self /\ m_permissive s = m_permissive self /\ m_type s = m_type self.
Proof.
  unfold settings_read.
  destruct (settings_read_loop _ _ _ _ _ _ _ _) as [[i gs]|w [i gs]|[i gs]|]; cbn; auto.
Qed.

Lemma read_body_frame (self : gwsettings) (buf : bytes) :
  let st := outcome_state self (read_body self buf) in
  m_checksum st = m_checksum self /\ m_is_auto_profile st = m_is_auto_profile self /\
  m_checksum_valid st = m_checksum_valid self /\ m_magic_valid st = m_magic_valid self /\
  m_encrypted st = m_encrypted self /\ m_key st = m_key self /\
  gw_profile st = gw_profile self /\
  m_permissive (gw_settings st) = m_permissive (gw_settings self).
Proof.
  unfold read_body.
  destruct (nv_version_read _) as [[version istr1]|]; [|cbn; tauto].
  destruct (nv_u32_read istr1) as [[size istr2]|]; [|cbn; tauto].
  cbv zeta.
  match goal with
  | |- context [settings_read ?s ?d ?i] =>
      pose proof (settings_read_frame s d i) as Hs; cbv zeta in Hs;
      destruct (settings_read s d i) as [[i0 s0]|w [i0 s0]|[i0 s0]|]
  end;
    cbn [outcome_map outcome_state fst snd] in *;
    destruct Hs as (Hprofile & Hperm & _);
    unfold gw_profile; cbn [gw_settings set_settings m_checksum m_is_auto_profile
                              m_checksum_valid m_magic_valid m_encrypted m_key];
    try rewrite Hprofile; try rewrite Hperm;
    destruct (negb _); try destruct (_ =? _); cbn; tauto.
Qed.

Lemma find_all_false {A : Type} (f : A -> bool) (l : list A) :
  (forall x, In x l -> f x = false) -> List.find f l = None.
Proof.
  induction l as [|a l IH]; intros H; [reflexivity|].
  cbn [List.find]. rewrite (H a (or_introl eq_refl)). apply IH.
  intros x Hx. apply H. right. exact Hx.
Qed.

Lemma validate_frame_more (self : gwsettings) (buf : bytes) :
  let self' := validate_checksum_and_detect_profile self buf in
  m_permissive (gw_settings self') = m_permissive (gw_settings self) /\
  (forall p, gw_profile self = Some p ->
             gw_profile self' = Some p /\ m_is_auto_profile self' = m_is_auto_profile self) /\
  (gw_profile self = None ->
   gw_profile self' = None /\ m_is_auto_profile self' = m_is_auto_profile self \/
   m_is_auto_profile self' = true /\ m_checksum_valid self' = true /\
   exists p, In p profile_list /\ gw_profile self' = Some p).
Proof.
  unfold validate_checksum_and_detect_profile.
  destruct (gw_profile self) as [p|] eqn:Hp.
  - cbn. split; [reflexivity|]. split; [|discriminate].
    intros q Hq. split; [rewrite <- Hq; exact Hp|reflexivity].
  - rewrite detect_profile_find.
    destruct (List.find (checksum_matches self buf) profile_list) as [p|] eqn:Hf.
    + split; [reflexivity|]. split; [discriminate|]. intros _. right.
      split; [reflexivity|]. split; [reflexivity|]. exists p.
      split; [exact (proj1 (find_some _ _ Hf))|reflexivity].
    + destruct profile_list; (split; [reflexivity|]); (split; [discriminate|]);
        intros _; left; split; first [exact Hp | reflexivity].
Qed.

(** The object a read ends with, however it ends. *)
Lemma gwsettings_read_state (self : gwsettings) (ins : bytes) (st : gwsettings) :
  ends_in (gwsettings_read self ins) st ->
  let v := validate_checksum_and_detect_profile self ins in
  m_checksum st = m_checksum self /\ m_is_auto_profile st = m_is_auto_profile v /\
  m_checksum_valid st = m_checksum_valid v /\ gw_profile st = gw_profile v /\
  m_permissive (gw_settings st) = m_permissive (gw_settings self) /\
  (m_encrypted st = true ->
   m_encrypted self = true \/
   m_key st = m_key self /\ m_magic_valid st = false /\
   m_groups (gw_settings st) = m_groups (gw_settings self)) /\
  (m_key st <> m_key self -> m_encrypted st = m_encrypted self).
Proof.
  intros Hend v.
  pose proof (validate_frame self ins) as Hv. cbv zeta in Hv. fold v in Hv.
  destruct Hv as (Hkey & Hgroups & Hsum & _ & Henc & _).
  pose proof (proj1 (validate_frame_more self ins)) as Hperm. fold v in Hperm.
  rewrite gwsettings_read_cases in Hend. cbv zeta in Hend. fold v in Hend.
  assert (Hbody : forall self0 buf,
             m_checksum self0 = m_checksum v -> m_is_auto_profile self0 = m_is_auto_profile v ->
             m_checksum_valid self0 = m_checksum_valid v -> gw_profile self0 = gw_profile v ->
             m_permissive (gw_settings self0) = m_permissive (gw_settings v) ->
             m_encrypted self0 = m_encrypted v ->
             ends_in (read_body self0 buf) st ->
             m_checksum st = m_checksum self /\ m_is_auto_profile st = m_is_auto_profile v /\
             m_checksum_valid st = m_checksum_valid v /\ gw_profile st = gw_profile v /\
             m_permissive (gw_settings st) = m_permissive (gw_settings self) /\
             m_encrypted st = m_encrypted self /\ m_key st = m_key self0).
  { intros self0 buf H1 H2 H3 H4 H5 H6 Hst.
    pose proof (read_body_frame self0 buf) as Hf. cbv zeta in Hf.
    assert (Hstate : outcome_state self0 (read_body self0 buf) = st).
    { destruct Hst as [Hst|[[w Hst]|Hst]]; rewrite Hst; reflexivity. }
    rewrite Hstate in Hf. destruct Hf as (F1 & F2 & F3 & _ & F5 & F6 & F7 & F8).
    repeat split; congruence. }
  destruct (bytes_eqb (firstn 74 ins) s_magic).
  - match type of Hend with
    | ends_in (read_body ?s ?b) _ =>
        destruct (Hbody s b eq_refl eq_refl eq_refl eq_refl eq_refl eq_refl Hend)
          as (B1 & B2 & B3 & B4 & B5 & B6 & B7)
    end.
    cbn [m_key set_magic_valid] in B7.
    repeat (split; [assumption|]). split.
    + intros He. left. congruence.
    + intros Hk. congruence.
  - destruct (List.find (trial_ok ins) _) as [k|].
    + match type of Hend with
      | ends_in (read_body ?s ?b) _ =>
          destruct (Hbody s b eq_refl eq_refl eq_refl eq_refl eq_refl eq_refl Hend)
            as (B1 & B2 & B3 & B4 & B5 & B6 & B7)
      end.
      repeat (split; [assumption|]). split.
      * intros He. left. congruence.
      * intros _. exact B6.
    + assert (Hst : st = set_encrypted true (set_magic_valid false v)).
      { destruct Hend as [Hst|[[w Hst]|Hst]]; congruence. }
      subst st. cbn [m_checksum m_is_auto_profile m_checksum_valid m_encrypted m_key
                       m_magic_valid gw_settings set_encrypted set_magic_valid].
      unfold gw_profile. cbn [gw_settings set_encrypted set_magic_valid].
      repeat (split; [first [assumption | reflexivity]|]). split.
      * intros _. right. repeat split; assumption.
      * intros Hk. contradiction.
Qed.

(** ** gwsettings::write needs a profile, and the key search gives none *)

(** X4: however [gwsettings::read] ends, the profile of the object is the
    one the checksum validation left: the key search never sets it, not
    even when the key that decrypts the file is a default key of one
    profile.  So a file read with no profile supplied whose checksum matches
    no profile of the registry cannot be written back: [write] throws. *)
Theorem key_search_gives_no_profile (self : gwsettings) (ins : bytes) (st : gwsettings) :
  ends_in (gwsettings_read self ins) st ->
  gw_profile st = gw_profile (validate_checksum_and_detect_profile self ins) /\
  (forall p, gw_profile self = Some p -> gw_profile st = Some p) /\
  (gw_profile self = None ->
   (forall p, In p profile_list -> m_checksum self <> MD5 (ins ++ md5_key p)) ->
   gw_profile st = None /\
   gwsettings_write st = Thrown "cannot write file without a profile" []).
Proof.
  intros Hend.
  destruct (gwsettings_read_state self ins st Hend) as (_ & _ & _ & Hp & _).
  split; [exact Hp|]. split.
  - intros p Hsome. rewrite Hp.
    exact (proj1 (proj1 (proj2 (validate_frame_more self ins)) p Hsome)).
  - intros Hnone Hno.
    assert (Hst : gw_profile st = None).
    { rewrite Hp. unfold validate_checksum_and_detect_profile. rewrite Hnone.
      rewrite detect_profile_find, find_all_false.
      - destruct profile_list; exact Hnone.
      - intros p Hin. unfold checksum_matches.
        destruct (bytes_eqb _ _) eqn:Hb; [|reflexivity].
        apply bytes_eqb_eq in Hb. exfalso. exact (Hno p Hin Hb). }
    split; [exact Hst|]. unfold gwsettings_write. rewrite Hst. reflexivity.
Qed.

(** ** The checksum is taken over the bytes as stored *)

(** X5: the checksum of a gwsettings file is validated once, against the
    bytes that follow it as they are stored, before any decryption: for a
    file read by a fresh object, [checksum_valid] says that the 16 leading
    bytes are the MD5 of the stored bytes followed by the MD5 key of the
    supplied profile, or of some profile of the registry when none was
    supplied, whether the magic was found in the clear or after decryption
    or not at all; and the checksum bytes themselves are kept as read. *)
Theorem checksum_covers_stored_bytes
        (checksum : bytes) (p : option profile) (ins : bytes) (st : gwsettings) :
  ends_in (gwsettings_read (new_gwsettings checksum p) ins) st ->
  m_checksum st = checksum /\
  (forall q, p = Some q ->
             m_checksum_valid st = bytes_eqb checksum (MD5 (ins ++ md5_key q))) /\
  (p = None ->
   (m_checksum_valid st = true <->
    exists q, In q profile_list /\ checksum = MD5 (ins ++ md5_key q))) /\
  (m_checksum_valid st = true ->
   exists q, gw_profile st = Some q /\ checksum = MD5 (ins ++ md5_key q)).
Proof.
  intros Hend.
  destruct (gwsettings_read_state _ _ _ Hend) as (Hsum & _ & Hvalid & Hprofile & _).
  cbn [m_checksum new_gwsettings] in Hsum.
  split; [exact Hsum|]. split; [|split].
  - intros q ->. rewrite Hvalid. unfold validate_checksum_and_detect_profile.
    cbn [gw_profile gw_settings new_gwsettings new_settings m_profile].
    rewrite validate_checksum_matches. reflexivity.
  - intros ->. rewrite Hvalid. unfold validate_checksum_and_detect_profile.
    cbn [gw_profile gw_settings new_gwsettings new_settings m_profile].
    rewrite detect_profile_find.
    destruct (List.find (checksum_matches (new_gwsettings checksum None) ins) profile_list)
      as [q|] eqn:Hf.
    + split; [|reflexivity]. intros _. apply find_some in Hf. destruct Hf as [Hin Hq].
      exists q. split; [exact Hin|]. apply bytes_eqb_eq. exact Hq.
    + assert (Hfalse : m_checksum_valid
                         match profile_list with
                         | [] => new_gwsettings checksum None
                         | _ :: _ => set_checksum_valid false (new_gwsettings checksum None)
                         end = false) by (destruct profile_list; reflexivity).
      rewrite Hfalse. split; [discriminate|].
      intros (q & Hin & Hq). pose proof (find_none _ _ Hf q Hin) as Hno.
      unfold checksum_matches in Hno. cbn [m_checksum new_gwsettings] in Hno.
      rewrite Hq, bytes_eqb_refl in Hno. discriminate.
  - intros Hv. rewrite Hvalid in Hv. rewrite Hprofile.
    exact (validate_checksum_valid (new_gwsettings checksum p) ins eq_refl Hv).
Qed.

(** ** What gwsettings::read throws *)

Lemma read_body_short (self : gwsettings) (buf : bytes) :
  (List.length buf < 80)%nat ->
  exists st, read_body self buf = Thrown "error while reading header" st /\
             m_groups (gw_settings st) = m_groups (gw_settings self).
Proof.
  intros Hlen. unfold read_body. rewrite s_magic_length.
  unfold nv_version_read, nv_u32_read, read_be.
  destruct (List.length (skipn 74 buf) <? 2)%nat eqn:H2.
  - exists self. split; reflexivity.
  - apply Nat.ltb_ge in H2. rewrite length_skipn in H2.
    replace (List.length (skipn 2 (skipn 74 buf)) <? 4)%nat with true
      by (symmetry; apply Nat.ltb_lt; rewrite !length_skipn; lia).
    eexists. split; reflexivity.
Qed.

Lemma read_body_thrown (self : gwsettings) (buf : bytes) (what : string) (st : gwsettings) :
  read_body self buf = Thrown what st ->
  what = "error while reading header"%string /\ (List.length buf < 80)%nat /\
  m_key st = m_key self /\
  m_groups (gw_settings st) = m_groups (gw_settings self)
  \/
  m_permissive (gw_settings self) = false /\
  exists g, what = ("failed to read group " ++ group_magic_to_str g)%string.
Proof.
  unfold read_body. rewrite s_magic_length.
  unfold nv_version_read, nv_u32_read, read_be.
  destruct (List.length (skipn 74 buf) <? 2)%nat eqn:H2.
  { apply Nat.ltb_lt in H2. rewrite length_skipn in H2.
    intros H. inversion H; subst. left. repeat split. lia. }
  destruct (List.length (skipn 2 (skipn 74 buf)) <? 4)%nat eqn:H4.
  { apply Nat.ltb_lt in H4. rewrite !length_skipn in H4.
    intros H. inversion H; subst. left. repeat split. lia. }
  cbv zeta.
  match goal with
  | |- context [gw_settings ?s0] =>
      match s0 with
      | self => fail 1
      | _ => assert (Hperm : m_permissive (gw_settings s0) = m_permissive (gw_settings self))
          by (destruct (negb _); try destruct (_ =? _); reflexivity);
             assert (Hgroups : m_groups (gw_settings s0) = m_groups (gw_settings self))
          by (destruct (negb _); try destruct (_ =? _); reflexivity);
             generalize dependent s0
      end
  end.
  intros s0 Hperm Hgroups. unfold settings_read. rewrite outcome_map_map, Hperm.
  destruct (m_permissive (gw_settings self)) eqn:Hp.
  - intros H.
    pose proof (permissive_never_throws (S (List.length (unread (istringstream
                  (skipn 4 (skipn 2 (skipn 74 buf)))))))
                  (m_type (gw_settings s0)) (istringstream (skipn 4 (skipn 2 (skipn 74 buf))))
                  None (gw_data_bytes s0) 1 (m_groups (gw_settings s0))) as Hnever.
    destruct (settings_read_loop _ true _ _ _ _ _ _) as [a|w a|a|]; try discriminate.
    exfalso. exact (Hnever w a eq_refl).
  - intros H. right. split; [reflexivity|].
    assert (Hloop : forall fuel type ins group remaining mult groups w a,
               settings_read_loop fuel false type ins group remaining mult groups = Thrown w a ->
               exists g, w = ("failed to read group " ++ group_magic_to_str g)%string).
    { induction fuel as [|fuel IH]; intros type ins group remaining mult groups w a.
      - cbn [settings_read_loop]. destruct ((remaining =? 0) || eofbit ins); discriminate.
      - destruct ((remaining =? 0) || eofbit ins) eqn:Hstop.
        + rewrite settings_read_loop_stop by exact Hstop. discriminate.
        + rewrite settings_read_loop_step by exact Hstop. cbv zeta.
          destruct (nv_group_read ins group type remaining) as [ins' group'].
          cbn [fst snd negb].
          destruct (failbit ins' && negb (eofbit ins')).
          * destruct group' as [g|]; [|discriminate].
            intros Hw. inversion Hw. exists g. reflexivity.
          * destruct group' as [g|]; [apply IH|discriminate]. }
    destruct (settings_read_loop _ false _ _ _ _ _ _) as [a|w a|a|] eqn:Hl; try discriminate.
    cbn [outcome_map] in H. inversion H; subst.
    exact (Hloop _ _ _ _ _ _ _ _ _ Hl).
Qed.

(** X6: [gwsettings::read] throws "error while reading header" when the
    buffer starts with the magic and is shorter than the 80 bytes of the
    header; a permissive object throws nothing else, and then the buffer it
    parsed (the input or its decryption) was that short and no group was
    added; a strict object can throw "failed to read group ..." besides. *)
Theorem gwsettings_read_throws (self : gwsettings) (ins : bytes) :
  (firstn 74 ins = s_magic -> (List.length ins < 80)%nat ->
   exists st, gwsettings_read self ins = Thrown "error while reading header" st /\
              m_groups (gw_settings st) = m_groups (gw_settings self)) /\
  (forall what st,
     gwsettings_read self ins = Thrown what st ->
     what = "error while reading header"%string /\
     (List.length (parsed_buffer ins st) < 80)%nat /\
     m_groups (gw_settings st) = m_groups (gw_settings self)
     \/
     m_permissive (gw_settings self) = false /\
     exists g, what = ("failed to read group " ++ group_magic_to_str g)%string).
Proof.
  pose proof (validate_frame self ins) as Hv. cbv zeta in Hv.
  destruct Hv as (Hkey & Hgroups & _).
  pose proof (proj1 (validate_frame_more self ins)) as Hperm.
  split.
  - intros Hmagic Hlen. rewrite gwsettings_read_cases. cbv zeta.
    rewrite Hmagic, bytes_eqb_refl.
    destruct (read_body_short
                (set_magic_valid true (validate_checksum_and_detect_profile self ins)) ins Hlen)
      as (st & Hst & Hg).
    exists st. split; [exact Hst|]. rewrite Hg. exact Hgroups.
  - intros what st. rewrite gwsettings_read_cases. cbv zeta. unfold parsed_buffer.
    destruct (bytes_eqb (firstn 74 ins) s_magic).
    + intros H. apply read_body_thrown in H.
      destruct H as [(Hw & Hlen & Hk & Hg)|(Hp & g & Hw)].
      * left. repeat split; try assumption. rewrite Hg. exact Hgroups.
      * right. split; [|exists g; exact Hw]. rewrite <- Hperm. exact Hp.
    + destruct (List.find (trial_ok ins) _) as [k|]; [|discriminate].
      intros H. apply read_body_thrown in H.
      destruct H as [(Hw & Hlen & Hk & Hg)|(Hp & g & Hw)].
      * left. cbn [m_key set_key] in Hk. rewrite Hk.
        repeat split; try assumption. rewrite Hg. exact Hgroups.
      * right. split; [|exists g; exact Hw]. rewrite <- Hperm. exact Hp.
Qed.

(** ** What permdyn::read throws, and what it never sets *)

Lemma forallb_xff_fill (magic : bytes) :
  forallb (Byte.eqb xff) magic = true <-> magic = fill (List.length magic) xff.
Proof.
  unfold fill. induction magic as [|b magic IH]; [split; reflexivity|].
  cbn [forallb List.length repeat]. rewrite andb_true_iff. split.
  - intros [Hb Hm]. apply Byte.byte_dec_bl in Hb. apply IH in Hm. congruence.
  - intros H. injection H as Hb Hm. split; [rewrite Hb; reflexivity|apply IH; exact Hm].
Qed.

Lemma permdyn_read_state (self : permdyn) (ins : bytes) (pd : permdyn) (log : list string) :
  ends_in (permdyn_read self ins) (pd, log) ->
  pd_checksum_valid pd = pd_checksum_valid self /\
  m_profile (pd_settings pd) = m_profile (pd_settings self) /\
  m_type (pd_settings pd) = m_type (pd_settings self).
Proof.
  unfold permdyn_read.
  destruct (List.length ins <? 186)%nat.
  { intros [H|[[w H]|H]]; inversion H; subst; repeat split. }
  destruct (nv_u32_read _) as [[size ins1]|].
  2:{ intros [H|[[w H]|H]]; inversion H; subst; repeat split. }
  destruct (nv_u32_read ins1) as [[checksum ins2]|].
  2:{ intros [H|[[w H]|H]]; inversion H; subst; repeat split. }
  destruct (negb _).
  { intros [H|[[w H]|H]]; inversion H; subst; repeat split. }
  cbv zeta.
  match goal with
  | |- context [settings_read ?s ?d ?i] =>
      pose proof (settings_read_frame s d i) as Hs; cbv zeta in Hs;
      destruct (settings_read s d i) as [[i0 s0]|w0 [i0 s0]|[i0 s0]|]
  end;
    cbn [outcome_map outcome_state fst snd] in *;
    intros [H|[[w H]|H]]; inversion H; subst;
    cbn [pd_checksum_valid pd_settings pd_set_settings pd_set_checksum pd_set_size];
    (split; [reflexivity|split; [exact (proj1 Hs)|exact (proj2 (proj2 Hs))]]).
Qed.

(** X7: [permdyn::read] throws "failed to read header" when fewer than the
    194 header bytes are there, whatever they are; "found non-0xff byte in
    magic" when the header is there and its first 186 bytes are not all
    0xFF, with size and crc already stored; and a permissive object throws
    nothing when they are. *)
Theorem permdyn_read_throws (self : permdyn) (ins : bytes) :
  ((List.length ins < 194)%nat ->
   exists pd, permdyn_read self ins = Thrown "failed to read header" (pd, []) /\
              pd_settings pd = pd_settings self) /\
  ((194 <= List.length ins)%nat -> firstn 186 ins <> fill 186 xff ->
   permdyn_read self ins
   = Thrown "found non-0xff byte in magic"
       (pd_set_checksum (be_value (firstn 4 (skipn 190 ins)) 0)
          (pd_set_size (be_value (firstn 4 (skipn 186 ins)) 0) self), [])) /\
  ((194 <= List.length ins)%nat -> firstn 186 ins = fill 186 xff ->
   m_permissive (pd_settings self) = true ->
   forall what st, permdyn_read self ins <> Thrown what st).
Proof.
  unfold permdyn_read, nv_u32_read, read_be.
  assert (Hskip : skipn 4 (skipn 186 ins) = skipn 190 ins) by (rewrite skipn_skipn; reflexivity).
  split; [|split].
  - intros Hlen. destruct (List.length ins <? 186)%nat eqn:H1.
    { exists self. split; reflexivity. }
    apply Nat.ltb_ge in H1.
    destruct (List.length (skipn 186 ins) <? 4)%nat eqn:H2.
    { exists self. split; reflexivity. }
    apply Nat.ltb_ge in H2. rewrite length_skipn in H2.
    replace (List.length (skipn 4 (skipn 186 ins)) <? 4)%nat with true
      by (symmetry; apply Nat.ltb_lt; rewrite !length_skipn; lia).
    eexists. split; reflexivity.
  - intros Hlen Hmagic.
    replace (List.length ins <? 186)%nat with false by (symmetry; apply Nat.ltb_ge; lia).
    replace (List.length (skipn 186 ins) <? 4)%nat with false
      by (symmetry; apply Nat.ltb_ge; rewrite length_skipn; lia).
    replace (List.length (skipn 4 (skipn 186 ins)) <? 4)%nat with false
      by (symmetry; apply Nat.ltb_ge; rewrite !length_skipn; lia).
    destruct (forallb (Byte.eqb xff) (firstn 186 ins)) eqn:Hff.
    + exfalso. apply Hmagic. apply forallb_xff_fill in Hff.
      rewrite length_firstn in Hff. replace (Nat.min 186 (List.length ins)) with 186%nat in Hff by lia.
      exact Hff.
    + cbn [negb]. rewrite Hskip. reflexivity.
  - intros Hlen Hmagic Hperm what st.
    replace (List.length ins <? 186)%nat with false by (symmetry; apply Nat.ltb_ge; lia).
    replace (List.length (skipn 186 ins) <? 4)%nat with false
      by (symmetry; apply Nat.ltb_ge; rewrite length_skipn; lia).
    replace (List.length (skipn 4 (skipn 186 ins)) <? 4)%nat with false
      by (symmetry; apply Nat.ltb_ge; rewrite !length_skipn; lia).
    replace (forallb (Byte.eqb xff) (firstn 186 ins)) with true
      by (symmetry; apply forallb_xff_fill; rewrite Hmagic; unfold fill;
          rewrite repeat_length; reflexivity).
    cbn [negb]. cbv zeta. unfold settings_read. rewrite outcome_map_map.
    cbn [pd_settings pd_set_size pd_set_checksum]. rewrite Hperm.
    match goal with
    | |- context [settings_read_loop ?f true ?t ?i ?g ?r ?m ?gs] =>
        pose proof (permissive_never_throws f t i g r m gs) as Hnever;
        destruct (settings_read_loop f true t i g r m gs) as [a|w a|a|]
    end; try discriminate.
    exfalso. exact (Hnever w a eq_refl).
Qed.

(** ** The headers as text *)

Lemma append_assoc (a b c : string) : ((a ++ b) ++ c = a ++ b ++ c)%string.
Proof. induction a as [|x a IH]; cbn; [reflexivity|now rewrite IH]. Qed.

Lemma append_nil_r (a : string) : (a ++ "" = a)%string.
Proof. induction a as [|x a IH]; cbn; [reflexivity|now rewrite IH]. Qed.

(** X8: [permdyn::read] never sets [m_checksum_valid], and
    [permdyn::header_to_string] passes no profile: whatever file a fresh
    object has read, and whether the log says "checksum ok" or not, the
    header text marks the checksum "(bad)" and the profile "(unknown)", and
    never marks the size. *)
Theorem permdyn_header_marks_checksum_bad
        (dyn : bool) (p : option profile) (ins : bytes) (pd : permdyn) (log : list string) :
  ends_in (permdyn_read (new_permdyn dyn p) ins) (pd, log) ->
  pd_checksum_valid pd = false /\
  m_profile (pd_settings pd) = p /\
  pd_header_to_string pd
  = ("type    : permdyn" ++ endl
     ++ "profile :  (unknown)" ++ endl
     ++ "checksum: " ++ to_hex_u32 (pd_checksum pd) ++ " (bad)" ++ endl
     ++ "size    : " ++ to_string (pd_size pd) ++ endl)%string.
Proof.
  intros Hend. destruct (permdyn_read_state _ _ _ _ Hend) as (Hvalid & Hprofile & _).
  cbn [pd_checksum_valid new_permdyn] in Hvalid.
  split; [exact Hvalid|]. split; [exact Hprofile|].
  unfold pd_header_to_string, group_header_to_string. rewrite Hvalid.
  cbn [String.eqb]. cbv zeta.
  rewrite !append_assoc. reflexivity.
Qed.

Lemma header_without_key (type checksum : string) (valid : bool) (size : Z) (size_valid : bool)
      (key : bytes) (encrypted : bool) (profile : string) (auto : bool) :
  group_header_to_string type checksum valid size size_valid key encrypted profile auto
  = (group_header_to_string type checksum valid size size_valid [] false profile auto
     ++ (if encrypted
         then "key     :" ++ (if is_empty key then "(unknown)" else to_hex key) ++ endl
         else ""))%string.
Proof.
  unfold group_header_to_string. cbv zeta.
  destruct encrypted; [reflexivity|]. symmetry. apply append_nil_r.
Qed.

(** X9: the key line of [gwsettings::header_to_string] is printed only for
    an object marked encrypted, and a fresh object is marked encrypted only
    when the key search failed: then no key is recorded and the line reads
    "(unknown)".  When a key was found the object is not marked encrypted
    and the header does not show the key.  A supplied profile is shown as
    "(forced)" since [m_is_auto_profile] is set by detection alone. *)
Theorem gwsettings_header_never_shows_key
        (checksum : bytes) (p : option profile) (ins : bytes) (st : gwsettings) :
  ends_in (gwsettings_read (new_gwsettings checksum p) ins) st ->
  (m_encrypted st = true ->
   m_key st = [] /\ m_magic_valid st = false /\ m_groups (gw_settings st) = []) /\
  (m_key st <> [] -> m_encrypted st = false) /\
  (p <> None -> gw_profile st = p /\ m_is_auto_profile st = false) /\
  gw_header_to_string st
  = (group_header_to_string "gwsettings" (to_hex checksum) (m_checksum_valid st)
       (m_size st) (m_size_valid st) [] false
       (match gw_profile st with Some q => profile_name q | None => "" end)
       (m_is_auto_profile st)
     ++ (if m_encrypted st then "key     :(unknown)" ++ endl else ""))%string.
Proof.
  intros Hend.
  destruct (gwsettings_read_state _ _ _ Hend) as (Hsum & Hauto & _ & Hprofile & _ & Henc & Hkey).
  cbn [m_checksum m_encrypted m_key gw_settings m_groups new_gwsettings new_settings]
    in Hsum, Henc, Hkey.
  assert (Henc' : m_encrypted st = true ->
                  m_key st = [] /\ m_magic_valid st = false /\ m_groups (gw_settings st) = []).
  { intros He. destruct (Henc He) as [Hf|H]; [discriminate|exact H]. }
  split; [exact Henc'|]. split; [exact Hkey|]. split.
  - intros Hp. destruct p as [q|]; [|contradiction].
    destruct (proj1 (proj2 (validate_frame_more (new_gwsettings checksum (Some q)) ins))
                q eq_refl) as [Hq Ha].
    rewrite Hprofile, Hauto. split; [exact Hq|exact Ha].
  - unfold gw_header_to_string. rewrite header_without_key, Hsum.
    destruct (m_encrypted st) eqn:He; [|reflexivity].
    rewrite (proj1 (Henc' eq_refl)). reflexivity.
Qed.

(** ** Decryption and the padding *)

(** X10: decrypting what [crypt] encrypted gives back everything [crypt]
    ran the cipher on: the input, and after it the 16 zero bytes when it
    encrypted with [pad].  Decryption never takes the padding away (with or
    without [pad], which it ignores) and the bytes after the last whole
    block come back as they were.  The cipher is asked to keep a block 16
    bytes long and to decrypt what it encrypted, on the blocks of this
    input. *)
Theorem decryption_keeps_padding
        (ibuf key : bytes) (pad pad' : bool) (blocks : list bytes) (tail : bytes) :
  crypt_input ibuf false pad = List.concat blocks ++ tail ->
  Forall (fun b => List.length b = 16%nat) blocks ->
  (List.length tail < 16)%nat ->
  Forall (fun b =>
            List.length (AES_encrypt b (AES_set_encrypt_key key)) = 16%nat /\
            AES_decrypt (AES_encrypt b (AES_set_encrypt_key key)) (AES_set_decrypt_key key) = b)
         blocks ->
  crypt (crypt ibuf key false pad) key true pad'
  = ibuf ++ (if pad then fill 16 x00 else []) /\
  List.length (crypt (crypt ibuf key false pad) key true pad')
  = (List.length ibuf + (if pad then 16 else 0))%nat.
Proof.
  intros Hinput Hblocks Htail Hcipher.
  assert (Hround : crypt (crypt ibuf key false pad) key true pad'
                   = ibuf ++ (if pad then fill 16 x00 else [])).
  { rewrite (crypt_unfold _ key true pad'). unfold crypt_input at 1. cbn [negb andb].
    rewrite crypt_unfold, Hinput, crypt_blocks_concat by assumption.
    rewrite flat_map_concat_map, crypt_blocks_concat.
    - rewrite flat_map_concat_map, map_map.
      transitivity (List.concat blocks ++ tail).
      + f_equal. f_equal. clear Hinput Hblocks.
        induction Hcipher as [|b bs [_ Hb] _ IH]; [reflexivity|].
        cbn [map]. rewrite IH. f_equal. exact Hb.
      + rewrite <- Hinput. unfold crypt_input. destruct pad; cbn [negb andb].
        * reflexivity.
        * now rewrite app_nil_r.
    - apply Forall_map. eapply Forall_impl; [|exact Hcipher].
      intros b [Hb _]. exact Hb.
    - exact Htail. }
  split; [exact Hround|].
  rewrite Hround, length_app. destruct pad; reflexivity.
Qed.

(** ** The end of the input during a group read *)

(** X11: a group read that ends with [eofbit] set is taken for a good one,
    in either mode and whether it failed or not: the loop of
    [settings::read] appends whatever [group] points to and returns.  When
    the read left [group] alone, that is the group of the pass before, which
    is appended a second time under a [_<n>] name; when [group] is still
    null, a null pointer is dereferenced. *)
Theorem end_of_input_counts_as_read
        (fuel : nat) (permissive : bool) (type : Z) (ins : istream)
        (group : option nv_group) (remaining mult : Z) (groups : group_list) :
  (remaining =? 0) || eofbit ins = false ->
  eofbit (fst (nv_group_read ins group type remaining)) = true ->
  let ins' := fst (nv_group_read ins group type remaining) in
  settings_read_loop (S fuel) permissive type ins group remaining mult groups
  = match snd (nv_group_read ins group type remaining) with
    | Some g => Returned (ins', snd (push_group mult groups g))
    | None => NullDeref (ins', groups)
    end /\
  (forall g name,
     snd (nv_group_read ins group type remaining) = Some g ->
     In (name, g) groups -> group_name g = name ->
     settings_read_loop (S fuel) permissive type ins group remaining mult groups
     = Returned (ins', groups ++ [(name ++ "_" ++ to_string (wrap32 (mult + 1)), g)%string])).
Proof.
  intros Hgo Heof ins'.
  assert (Hloop : settings_read_loop (S fuel) permissive type ins group remaining mult groups
                  = match snd (nv_group_read ins group type remaining) with
                    | Some g => Returned (ins', snd (push_group mult groups g))
                    | None => NullDeref (ins', groups)
                    end).
  { subst ins'. rewrite settings_read_loop_step by exact Hgo. cbv zeta.
    rewrite Heof. cbn [negb]. rewrite andb_false_r.
    destruct (snd (nv_group_read ins group type remaining)) as [g|]; [|reflexivity].
    rewrite settings_read_loop_stop by (rewrite Heof; apply orb_true_r).
    reflexivity. }
  split; [exact Hloop|].
  intros g name Hg Hin Hname. rewrite Hloop, Hg. unfold push_group. rewrite Hname.
  replace (find name groups) with true; [reflexivity|].
  symmetry. unfold find. apply existsb_exists. exists (name, g).
  split; [exact Hin|apply String.eqb_refl].
Qed.

(** ** nonvoltest.cc: where the groups start *)

(** X12: the offsets nonvoltest seeks to are where the codec puts the first
    group: 0xd2 bytes into what [permdyn::write] writes (202 bytes of 0xFF,
    size and crc) for "perm" and "dyn", and 0x60 bytes into what
    [gwsettings::write] writes without a key (a 16-byte checksum, the magic,
    version and size) for "gwsettings", which nonvoltest reads as type dyn
    where the codec uses type cfg. *)
Theorem nonvoltest_offsets :
  main_type "perm" = Some (type_perm, 210%nat) /\
  main_type "dyn" = Some (type_dyn, 210%nat) /\
  main_type "gwsettings" = Some (type_dyn, 96%nat) /\
  main_type "group" = Some (type_dyn, 0%nat) /\
  (forall checksum p, m_type (gw_settings (new_gwsettings checksum p)) = type_cfg) /\
  (forall pd : permdyn,
     skipn 210 (permdyn_write pd) = settings_write (m_groups (pd_settings pd))) /\
  (forall (st : gwsettings) (p : profile) (out : bytes),
     gw_profile st = Some p -> m_key st = [] ->
     (forall buf, List.length (MD5 buf) = 16%nat) ->
     gwsettings_write st = Returned out ->
     skipn 96 out
     = settings_write (m_groups (gw_settings st))
         ++ (if m_padded st then fill 16 x00 else [])).
Proof.
  do 5 (split; [reflexivity|]). split.
  - intros pd. unfold permdyn_write. rewrite !app_assoc.
    apply skipn_length_app. unfold fill, nv_u32_write.
    rewrite !length_app, repeat_length, !be_bytes_length. reflexivity.
  - intros st p out Hp Hk Hmd5. unfold gwsettings_write. rewrite Hp, Hk.
    cbn [is_empty negb]. cbv zeta. rewrite calc_checksum_profile.
    match goal with
    | |- Returned ?x = Returned out -> _ =>
        intros H; assert (Hout : x = out) by (exact (f_equal (outcome_state []) H));
        rewrite <- Hout; clear H Hout
    end.
    rewrite <- !app_assoc.
    rewrite (app_assoc (MD5 _)), (app_assoc (MD5 _ ++ s_magic)),
      (app_assoc ((MD5 _ ++ s_magic) ++ _)).
    apply skipn_length_app. unfold nv_version_write, nv_u32_write.
    rewrite !length_app, Hmd5, s_magic_length, !be_bytes_length. reflexivity.
Qed.

(** ** The dispatcher *)

(** X13: the dispatcher decides by the first 16 bytes and the type alone.
    Fewer than 16 bytes: it throws and constructs nothing.  A [permdyn] is
    constructed only for 16 bytes of 0xFF with type perm or dyn; in every
    other case a [gwsettings] is, whose checksum is and stays those 16
    bytes, with the warning logged exactly when they are all 0xFF.  The
    [key] argument has no effect: the object starts with no key. *)
Theorem dispatch_by_first_bytes
        (ins : bytes) (type : Z) (p : option profile) (key : bytes)
        (c : option container) (log : list string) :
  ends_in (read_file ins type p key) (c, log) ->
  match c with
  | None =>
      (List.length ins < 16)%nat /\
      read_file ins type p key = Thrown "failed to read file" (None, [])
  | Some (Permdyn pd) =>
      (16 <= List.length ins)%nat /\ firstn 16 ins = fill 16 xff /\
      (type = type_dyn \/ type = type_perm) /\
      m_type (pd_settings pd) = (if type =? type_dyn then type_dyn else type_perm) /\
      ends_in (permdyn_read (new_permdyn (type =? type_dyn) p) (skipn 16 ins)) (pd, log)
  | Some (Gwsettings gw) =>
      (16 <= List.length ins)%nat /\
      (firstn 16 ins = fill 16 xff -> type <> type_dyn /\ type <> type_perm) /\
      m_checksum gw = firstn 16 ins /\
      log = (if bytes_eqb (firstn 16 ins) (fill 16 xff)
             then ["file looks like a permnv/dynnv file, but no type was specified"%string]
             else []) /\
      ends_in (gwsettings_read (new_gwsettings (firstn 16 ins) p) (skipn 16 ins)) gw
  end /\
  read_file ins type p key = read_file ins type p [].
Proof.
  intros Hend. split; [|reflexivity]. revert Hend. unfold read_file.
  destruct (List.length ins <? 16)%nat eqn:Hlen.
  { apply Nat.ltb_lt in Hlen.
    intros [H|[[w H]|H]]; inversion H; subst. split; [exact Hlen|reflexivity]. }
  apply Nat.ltb_ge in Hlen.
  assert (Hgw : forall l,
             ends_in (outcome_map (fun gw => (Some (Gwsettings gw), l))
                        (gwsettings_read (new_gwsettings (firstn 16 ins) p) (skipn 16 ins)))
                     (c, log) ->
             exists gw, c = Some (Gwsettings gw) /\ log = l /\
                        m_checksum gw = firstn 16 ins /\
                        ends_in (gwsettings_read (new_gwsettings (firstn 16 ins) p)
                                   (skipn 16 ins)) gw).
  { intros l Hend.
    assert (H : exists gw, c = Some (Gwsettings gw) /\ log = l /\
                           ends_in (gwsettings_read (new_gwsettings (firstn 16 ins) p)
                                      (skipn 16 ins)) gw).
    { destruct (gwsettings_read _ _) as [gw0|w0 gw0|gw0|];
        cbn [outcome_map] in Hend; destruct Hend as [H|[[w H]|H]]; inversion H; subst;
        exists gw0; (split; [reflexivity|]); (split; [reflexivity|]); unfold ends_in; eauto. }
    destruct H as (gw & Hc & Hl & Hgw). exists gw.
    split; [exact Hc|]. split; [exact Hl|]. split; [|exact Hgw].
    exact (proj1 (gwsettings_read_state _ _ _ Hgw)). }
  destruct (bytes_eqb (firstn 16 ins) (fill 16 xff)) eqn:Hff; cbn [andb].
  - apply bytes_eqb_eq in Hff.
    destruct (is_permdyn_type type) eqn:Htype.
    + assert (Ht : type = type_dyn \/ type = type_perm).
      { unfold is_permdyn_type in Htype. apply orb_true_iff in Htype.
        destruct Htype as [H|H]; apply Z.eqb_eq in H; auto. }
      intros Hend.
      assert (Hpd : exists pd, c = Some (Permdyn pd) /\
                      ends_in (permdyn_read (new_permdyn (type =? type_dyn) p) (skipn 16 ins))
                              (pd, log)).
      { destruct (permdyn_read _ _) as [[pd0 l0]|w0 [pd0 l0]|[pd0 l0]|];
          cbn [outcome_map fst snd] in Hend; destruct Hend as [H|[[w H]|H]]; inversion H; subst;
          exists pd0; (split; [reflexivity|]); unfold ends_in; eauto. }
      destruct Hpd as (pd & -> & Hpd).
      destruct (permdyn_read_state _ _ _ _ Hpd) as (_ & _ & Htype').
      split; [exact Hlen|]. split; [exact Hff|]. split; [exact Ht|]. split; [|exact Hpd].
      rewrite Htype'. reflexivity.
    + assert (Ht : type <> type_dyn /\ type <> type_perm).
      { unfold is_permdyn_type in Htype. apply orb_false_iff in Htype.
        destruct Htype as [H1 H2]. apply Z.eqb_neq in H1, H2. auto. }
      intros Hend. destruct (Hgw _ Hend) as (gw & -> & Hl & Hsum & Hread).
      split; [exact Hlen|]. split; [intros _; exact Ht|]. split; [exact Hsum|].
      split; [exact Hl|exact Hread].
  - intros Hend. destruct (Hgw _ Hend) as (gw & -> & Hl & Hsum & Hread).
    split; [exact Hlen|]. split; [|split; [exact Hsum|split; [exact Hl|exact Hread]]].
    intros H. apply bytes_eqb_eq in H. congruence.
Qed.

(** ** Written, then read *)





(** X24: what [gwsettings::write] writes for an object with a profile, no
    key and no padding, [gwsettings::read] takes back when given that
    profile: the 16 leading bytes are the checksum, which is found valid;
    the magic is found in the clear, so nothing is decrypted; version and
    size come back as written and the size is valid; and the groups are
    read from exactly the bytes [write] serialised them to, with
    [data_bytes] their length. *)
Theorem gwsettings_write_then_read (st : gwsettings) (p : profile) :
  let body := settings_write (m_groups (gw_settings st)) in
  gw_profile st = Some p ->
  m_key st = [] ->
  m_padded st = false ->
  0 <= m_version st < 2 ^ 16 ->
  80 + Z.of_nat (List.length body) < 2 ^ 32 ->
  (forall buf, List.length (MD5 buf) = 16%nat) ->
  exists file,
    gwsettings_write st = Returned file /\
    gwsettings_read (new_gwsettings (firstn 16 file) (Some p)) (skipn 16 file)
    = outcome_map
        (fun r =>
           set_settings (snd r)
             (set_size_valid true
                (set_size (80 + Z.of_nat (List.length body))
                   (set_version (m_version st)
                      (set_magic_valid true
                         (set_checksum_valid true
                            (new_gwsettings (firstn 16 file) (Some p))))))))
        (settings_read (new_settings type_cfg (Some p))
           (Z.of_nat (List.length body)) (istringstream body)).
Proof.
  intros body Hp Hk Hpad Hv Hlen Hmd5.
  set (plain := s_magic ++ nv_version_write (m_version st)
                  ++ nv_u32_write (80 + Z.of_nat (List.length body)) ++ body).
  assert (Hfile : gwsettings_write st = Returned (MD5 (plain ++ md5_key p) ++ plain)).
  { unfold gwsettings_write. rewrite Hp, Hk, Hpad. cbn [is_empty negb]. cbv zeta.
    rewrite calc_checksum_profile, s_magic_length. fold body.
    change (Z.of_nat 74 + 6) with 80. rewrite app_nil_r.
    subst plain. rewrite <- !app_assoc. reflexivity. }
  exists (MD5 (plain ++ md5_key p) ++ plain). split; [exact Hfile|].
  rewrite (firstn_length_app 16), (skipn_length_app 16) by apply Hmd5.
  assert (Hmagic : firstn 74 plain = s_magic)
    by (subst plain; apply firstn_length_app; reflexivity).
  assert (Hskip : skipn 74 plain
                  = nv_version_write (m_version st)
                      ++ nv_u32_write (80 + Z.of_nat (List.length body)) ++ body)
    by (subst plain; apply skipn_length_app; reflexivity).
  assert (Hplen : Z.of_nat (List.length plain) = 80 + Z.of_nat (List.length body)).
  { subst plain. unfold nv_version_write, nv_u32_write.
    rewrite !length_app, !be_bytes_length, s_magic_length. lia. }
  rewrite gwsettings_read_cases. cbv zeta. rewrite Hmagic, bytes_eqb_refl.
  unfold validate_checksum_and_detect_profile.
  cbn [gw_profile gw_settings new_gwsettings new_settings m_profile].
  rewrite validate_checksum_matches. unfold checksum_matches.
  cbn [m_checksum new_gwsettings snd]. rewrite bytes_eqb_refl.
  rewrite (read_body_header _ plain (m_version st) (80 + Z.of_nat (List.length body)) body
             Hv ltac:(lia) Hskip).
  rewrite Hplen, Z.eqb_refl. cbn [orb negb andb].
  cbn [m_padded set_magic_valid set_checksum_valid new_gwsettings gw_settings].
  unfold wrap_size_t.
  replace (80 + Z.of_nat (List.length body) - 80) with (Z.of_nat (List.length body)) by lia.
  rewrite Z.mod_small by lia. reflexivity.
Qed.

End Proofs.

(** ** util.h: align_left and align_right *)

(** Without the conversions: what the two functions compute when nothing
    wraps but the result of [align_right]. *)
Lemma align_unwrapped (bits nv_num alignment : Z) :
  0 < bits <= 64 -> 0 <= nv_num < 2 ^ bits -> 0 < alignment < 2 ^ 64 ->
  align_left bits nv_num alignment = nv_num - nv_num mod alignment /\
  align_right bits nv_num alignment
  = (nv_num + (if nv_num mod alignment =? 0 then 0 else alignment - nv_num mod alignment))
      mod 2 ^ bits.
Proof.
  intros Hb Hn Ha. unfold align_left, align_right, to_unsigned, wrap_size_t. cbv zeta.
  pose proof (Z.mod_pos_bound nv_num alignment ltac:(lia)) as Hm.
  assert (Hle : nv_num mod alignment <= nv_num) by (apply Z.mod_le; lia).
  assert (Hpow : 2 ^ bits <= 2 ^ 64) by (apply Z.pow_le_mono_r; lia).
  assert (Hdiv : (2 ^ bits | 2 ^ 64)).
  { exists (2 ^ (64 - bits)). rewrite <- Z.pow_add_r by lia. f_equal. lia. }
  rewrite (Z.mod_small (nv_num mod alignment) (2 ^ 64)) by lia.
  rewrite (Z.mod_small (nv_num mod alignment) (2 ^ bits)) by lia.
  split.
  - rewrite (Z.mod_small (nv_num - nv_num mod alignment) (2 ^ 64)) by lia.
    apply Z.mod_small. lia.
  - rewrite (Z.mod_small (alignment - nv_num mod alignment) (2 ^ 64)) by lia.
    apply Z.mod_mod_divide. exact Hdiv.
Qed.

(** X14: for an unsigned [T] of at most 64 bits and an alignment above
    zero, [align_left] is the greatest multiple of the alignment that is not
    above the number.  [align_right] is the least multiple that is not
    below the number, converted to [T]: it is that multiple when the
    multiple fits [T], and otherwise a smaller value that is either below
    the number or no multiple of the alignment.  A number that is a multiple
    already is returned by both. *)
Theorem align_left_right (bits nv_num alignment : Z) :
  0 < bits <= 64 -> 0 <= nv_num < 2 ^ bits -> 0 < alignment < 2 ^ 64 ->
  let least :=
    align_left bits nv_num alignment + (if nv_num mod alignment =? 0 then 0 else alignment) in
  (alignment | align_left bits nv_num alignment) /\
  0 <= align_left bits nv_num alignment <= nv_num /\
  nv_num < align_left bits nv_num alignment + alignment /\
  (alignment | least) /\ nv_num <= least < nv_num + alignment /\
  align_right bits nv_num alignment = least mod 2 ^ bits /\
  (least < 2 ^ bits -> align_right bits nv_num alignment = least) /\
  (2 ^ bits <= least ->
   align_right bits nv_num alignment < least /\
   ~ ((alignment | align_right bits nv_num alignment) /\
      nv_num <= align_right bits nv_num alignment)) /\
  ((alignment | nv_num) <->
   align_left bits nv_num alignment = nv_num /\ align_right bits nv_num alignment = nv_num).
Proof.
  intros Hb Hn Ha least.
  destruct (align_unwrapped bits nv_num alignment Hb Hn Ha) as [Hl Hr].
  pose proof (Z.mod_pos_bound nv_num alignment ltac:(lia)) as Hm.
  pose proof (Z.div_mod nv_num alignment ltac:(lia)) as Hdm.
  assert (Hdiv : 0 <= nv_num / alignment) by (apply Z.div_pos; lia).
  assert (Hleft : nv_num - nv_num mod alignment = alignment * (nv_num / alignment)) by lia.
  assert (Hzero : nv_num mod alignment = 0 <-> (alignment | nv_num)).
  { split.
    - intros H. exists (nv_num / alignment). lia.
    - intros [q ->]. apply Z_mod_mult. }
  assert (Hpos : 0 < 2 ^ bits) by (apply Z.pow_pos_nonneg; lia).
  assert (Hleast : least
                   = nv_num + (if nv_num mod alignment =? 0 then 0
                               else alignment - nv_num mod alignment)).
  { subst least. rewrite Hl. destruct (nv_num mod alignment =? 0) eqn:H0; [|lia].
    apply Z.eqb_eq in H0. lia. }
  assert (Hmult : (alignment | least) /\ nv_num <= least < nv_num + alignment).
  { rewrite Hleast. destruct (nv_num mod alignment =? 0) eqn:H0.
    - apply Z.eqb_eq in H0. split; [|lia]. rewrite Z.add_0_r. apply Hzero. exact H0.
    - apply Z.eqb_neq in H0. split; [|lia]. exists (nv_num / alignment + 1). lia. }
  assert (Hright : align_right bits nv_num alignment = least mod 2 ^ bits)
    by (rewrite Hr, <- Hleast; reflexivity).
  split; [rewrite Hl, Hleft; exists (nv_num / alignment); apply Z.mul_comm|].
  split; [rewrite Hl; lia|]. split; [rewrite Hl; lia|].
  split; [exact (proj1 Hmult)|]. split; [exact (proj2 Hmult)|].
  split; [exact Hright|]. split; [|split].
  - intros Hfit. rewrite Hright. apply Z.mod_small. lia.
  - intros Hover.
    pose proof (Z.mod_pos_bound least (2 ^ bits) Hpos) as Hres.
    split; [rewrite Hright; lia|].
    rewrite Hright. intros [[k Hk] Hge].
    destruct (nv_num mod alignment =? 0) eqn:H0.
    + apply Z.eqb_eq in H0. rewrite Hleast in Hover. lia.
    + apply Z.eqb_neq in H0.
      assert (Hl' : least = alignment * (nv_num / alignment + 1)) by (rewrite Hleast; lia).
      assert (Hq : nv_num / alignment < k) by nia.
      nia.
  - split.
    + intros Hd. apply Hzero in Hd. rewrite Hl, Hr, Hd.
      change (0 =? 0) with true. cbv iota. rewrite Z.add_0_r, Z.sub_0_r.
      split; [reflexivity|]. apply Z.mod_small. lia.
    + intros [H1 _]. apply Hzero. rewrite Hl in H1. lia.
Qed.

(** ** util.cc: crc16_ccitt *)

Lemma land_1_testbit (x : Z) : negb (Z.land x 1 =? 0) = Z.testbit x 0.
Proof.
  change 1 with (Z.ones 1). rewrite Z.land_ones by lia.
  change (2 ^ 1) with 2. rewrite <- Z.bit0_mod.
  destruct (Z.testbit x 0); reflexivity.
Qed.

Lemma shifted_bit (x n : Z) :
  0 <= n -> negb (Z.land (Z.shiftr x n) 1 =? 0) = Z.testbit x n.
Proof.
  intros Hn. rewrite land_1_testbit, Z.shiftr_spec by lia. reflexivity.
Qed.

(** The bit taken from a signed [char] is the bit of the byte. *)
Lemma signed_char_bit (b : byte) (n : Z) :
  0 <= n < 8 -> Z.testbit (signed_char b) n = Z.testbit (Z_of_byte b) n.
Proof.
  intros Hn. unfold signed_char.
  destruct (Z_of_byte b <? 128); [reflexivity|].
  replace (Z_of_byte b - 256) with (Z_of_byte b + (-1) * 2 ^ 8) by lia.
  rewrite <- (Z.mod_pow2_bits_low (Z_of_byte b + -1 * 2 ^ 8) 8 n) by lia.
  rewrite Z_mod_plus_full. apply Z.mod_pow2_bits_low. lia.
Qed.

Lemma mod16_lxor (a p : Z) :
  0 <= p < 2 ^ 16 -> Z.lxor a p mod 2 ^ 16 = Z.lxor (a mod 2 ^ 16) p.
Proof.
  intros Hp. rewrite <- !Z.land_ones by lia.
  replace p with (Z.land p (Z.ones 16)) at 2
    by (rewrite Z.land_ones by lia; apply Z.mod_small; exact Hp).
  apply Z.bits_inj'. intros n Hn.
  rewrite !Z.land_spec, !Z.lxor_spec, !Z.land_spec.
  destruct (Z.testbit a n), (Z.testbit p n), (Z.testbit (Z.ones 16) n); reflexivity.
Qed.

Lemma mod16_shift (crc : Z) :
  wrap32 (Z.shiftl crc 1) mod 2 ^ 16 = Z.shiftl (crc mod 2 ^ 16) 1 mod 2 ^ 16.
Proof.
  unfold wrap32. rewrite !Z.shiftl_mul_pow2 by lia.
  rewrite Z.mod_mod_divide by (exists (2 ^ 16); reflexivity).
  rewrite Z.mul_mod_idemp_l by lia. reflexivity.
Qed.

Lemma crc16_bit_register (crc : Z) (b : byte) (k : nat) :
  (k < 8)%nat ->
  crc16_bit crc (signed_char b) k mod 2 ^ 16
  = crc_shift crc_ccitt_type (crc mod 2 ^ 16)
      (Z.testbit (Z_of_byte b) (7 - Z.of_nat k)).
Proof.
  intros Hk. unfold crc16_bit, crc_shift. cbv zeta.
  change (Z.of_nat (crc_bits crc_ccitt_type) - 1) with 15.
  change (Z.of_nat (crc_bits crc_ccitt_type)) with 16.
  change (crc_trunc_poly crc_ccitt_type) with 0x1021.
  rewrite !shifted_bit by lia. rewrite signed_char_bit by lia.
  rewrite (Z.mod_pow2_bits_low crc 16 15) by lia.
  destruct (xorb (Z.testbit crc 15) (Z.testbit (Z_of_byte b) (7 - Z.of_nat k))).
  - rewrite mod16_lxor by lia. rewrite mod16_shift. reflexivity.
  - apply mod16_shift.
Qed.

Lemma crc16_byte_register (crc : Z) (b : byte) :
  fold_left (fun crc k => crc16_bit crc (signed_char b) k) (seq 0 8) crc mod 2 ^ 16
  = crc_process_byte crc_ccitt_type (crc mod 2 ^ 16) b.
Proof.
  unfold crc_process_byte. change (crc_reflect_in crc_ccitt_type) with false.
  cbn [seq fold_left].
  rewrite !crc16_bit_register by lia. reflexivity.
Qed.

Lemma crc16_fold_register (buf : bytes) (crc : Z) :
  fold_left (fun crc b => fold_left (fun crc k => crc16_bit crc (signed_char b) k) (seq 0 8) crc)
    buf crc mod 2 ^ 16
  = fold_left (crc_process_byte crc_ccitt_type) buf (crc mod 2 ^ 16).
Proof.
  revert crc. induction buf as [|b buf IH]; intros crc; [reflexivity|].
  cbn [fold_left]. rewrite IH, crc16_byte_register. reflexivity.
Qed.

(** X15: [crc16_ccitt], which keeps the register in a [uint32_t] and reads
    the bits off a [char], computes the 16-bit CRC with polynomial 0x1021,
    initial value 0xFFFF, nothing reflected and no final XOR
    ([boost::crc_ccitt_type]): the bits shifted above bit 15 and the sign of
    [char] do not reach the result, which fits 16 bits. *)
Theorem crc16_ccitt_register (buf : bytes) :
  crc16_ccitt buf = crc_optimal crc_ccitt_type buf /\
  0 <= crc16_ccitt buf < 2 ^ 16.
Proof.
  assert (Hmod : forall x, Z.land x 0xffff = x mod 2 ^ 16).
  { intros x. change 0xffff with (Z.ones 16). apply Z.land_ones. lia. }
  split.
  - unfold crc16_ccitt. cbv zeta. rewrite Hmod, crc16_fold_register.
    unfold crc_optimal, crc_checksum.
    change (crc_reflect_rem crc_ccitt_type) with false.
    change (crc_final_xor crc_ccitt_type) with 0.
    rewrite Z.lxor_0_r. reflexivity.
  - unfold crc16_ccitt. cbv zeta. rewrite Hmod. apply Z.mod_pos_bound. lia.
Qed.

(** The check value of CRC-16/CCITT-FALSE. *)
Example crc16_ccitt_check_value : crc16_ccitt (ascii_bytes "123456789") = 0x29B1.
Proof. vm_compute. reflexivity. Qed.

(** ** util.cc: to_hex *)

(** X16: [to_hex(buffer)] prints two lowercase hex digits for each byte, and
    the text determines the buffer: decoding it digit pair by digit pair
    gives the bytes back. *)
Theorem to_hex_round_trip (buffer : bytes) :
  String.length (to_hex buffer) = (2 * List.length buffer)%nat /\
  forallb lower_hex_digit (list_ascii_of_string (to_hex buffer)) = true /\
  from_hex (to_hex buffer) = buffer /\
  (forall other, to_hex other = to_hex buffer -> other = buffer).
Proof.
  assert (Hlen : forall b, String.length (to_hex b) = (2 * List.length b)%nat).
  { induction b as [|c rest IH]; [reflexivity|].
    cbn [to_hex String.length List.length]. rewrite IH. lia. }
  assert (Hdigits : forall b, forallb lower_hex_digit (list_ascii_of_string (to_hex b)) = true).
  { induction b as [|c rest IH]; [reflexivity|].
    cbn [to_hex list_ascii_of_string forallb]. rewrite IH.
    destruct c; vm_compute; reflexivity. }
  assert (Hback : forall b, from_hex (to_hex b) = b).
  { induction b as [|c rest IH]; [reflexivity|].
    cbn [to_hex from_hex]. rewrite IH. f_equal.
    destruct c; vm_compute; reflexivity. }
  split; [apply Hlen|]. split; [apply Hdigits|]. split; [apply Hback|].
  intros other H. rewrite <- (Hback other), H. apply Hback.
Qed.

(** ** profiledef.c: keyfun_tc7200 *)

Lemma strlen_le (s : bytes) : (strlen s <= List.length s)%nat.
Proof.
  induction s as [|c s IH]; [reflexivity|].
  cbn [strlen List.length]. destruct (Byte.eqb c x00); lia.
Qed.

Lemma strlen_zero (s : bytes) : Byte.eqb (hd x00 s) x00 = true <-> strlen s = O.
Proof.
  destruct s as [|c s]; [split; reflexivity|].
  cbn [hd strlen]. destruct (Byte.eqb c x00); split; congruence.
Qed.

(** X17: [keyfun_tc7200] always returns true with a 32-byte key: byte [i]
    is the password's byte [i] for [i] below the password's length, and [i]
    itself after it, so a password is cut at 32 bytes and a shorter one is
    filled up with 00 01 02 ... from its own length on.  With no password
    (null or empty) the key is 00 01 ... 1f, the default key the tc7200
    entry of the profile table lists. *)
Theorem keyfun_tc7200_key (password : option bytes) :
  let pw := match password with Some pw => pw | None => [] end in
  let key := snd (keyfun_tc7200 password) in
  fst (keyfun_tc7200 password) = true /\
  List.length key = 32%nat /\
  key = map (fun i => if (i <? strlen pw)%nat then nth i pw x00 else byte_of_Z (Z.of_nat i))
          (seq 0 32) /\
  (strlen pw = O ->
   exists e, In e bcm2_profiles /\ name e = "tc7200"%string /\
             map from_hex (cfg_defkeys e) = [key]).
Proof.
  intros pw key.
  assert (Hkey : key = map (fun i => if (i <? strlen pw)%nat then nth i pw x00
                                     else byte_of_Z (Z.of_nat i)) (seq 0 32)).
  { subst key pw. unfold keyfun_tc7200. cbv zeta. cbn [snd].
    set (key0 := map (fun i => byte_of_Z (Z.land (Z.of_nat i) 255)) (seq 0 32)).
    assert (Hkey0 : forall i, (i < 32)%nat -> nth i key0 x00 = byte_of_Z (Z.of_nat i)).
    { intros i Hi. do 32 (destruct i as [|i]; [reflexivity|]). lia. }
    assert (Hlen0 : List.length key0 = 32%nat) by reflexivity.
    assert (Hnone : key0 = map (fun i => if (i <? strlen [])%nat then nth i [] x00
                                         else byte_of_Z (Z.of_nat i)) (seq 0 32))
      by reflexivity.
    destruct password as [pw|]; [|exact Hnone].
    destruct (Byte.eqb (hd x00 pw) x00) eqn:Hhd; cbn [negb].
    - apply strlen_zero in Hhd. rewrite Hhd. exact Hnone.
    - pose proof (strlen_le pw) as Hle.
      set (len := if (32 <? strlen pw)%nat then 32%nat else strlen pw).
      assert (Hlen : (len <= 32 /\ len <= strlen pw)%nat /\
                     (len = 32%nat \/ len = strlen pw)).
      { subst len. destruct (32 <? strlen pw)%nat eqn:H32.
        - apply Nat.ltb_lt in H32. lia.
        - apply Nat.ltb_ge in H32. lia. }
      destruct Hlen as [[Hl32 Hlpw] Hlcase].
      apply nth_ext with (d := x00) (d' := x00).
      + rewrite length_app, length_firstn, length_skipn, length_map, length_seq, Hlen0. lia.
      + rewrite length_app, length_firstn, length_skipn, Hlen0.
        intros i Hi. replace (Nat.min len (List.length pw)) with len in Hi by lia.
        assert (Hi32 : (i < 32)%nat) by lia.
        set (F := fun i => if (i <? strlen pw)%nat then nth i pw x00
                           else byte_of_Z (Z.of_nat i)).
        rewrite (nth_indep (map F (seq 0 32)) x00 (F 0%nat))
          by (rewrite length_map, length_seq; exact Hi32).
        rewrite (map_nth F (seq 0 32) 0%nat i), seq_nth by exact Hi32.
        cbn [Nat.add]. subst F. cbv beta.
        destruct (Nat.lt_ge_cases i len) as [Hlt|Hge].
        * rewrite app_nth1 by (rewrite length_firstn; lia).
          rewrite nth_firstn. replace (i <? len)%nat with true by (symmetry; apply Nat.ltb_lt; lia).
          replace (i <? strlen pw)%nat with true by (symmetry; apply Nat.ltb_lt; lia).
          reflexivity.
        * rewrite app_nth2 by (rewrite length_firstn; lia).
          rewrite length_firstn. replace (Nat.min len (List.length pw)) with len by lia.
          rewrite nth_skipn. replace (len + (i - len))%nat with i by lia.
          rewrite Hkey0 by exact Hi32.
          replace (i <? strlen pw)%nat with false; [reflexivity|].
          symmetry. apply Nat.ltb_ge. lia. }
  split; [reflexivity|]. split; [|split; [exact Hkey|]].
  - rewrite Hkey, length_map, length_seq. reflexivity.
  - intros Hzero. rewrite Hkey, Hzero.
    eexists. split; [do 5 right; left; reflexivity|]. split; [reflexivity|].
    vm_compute. reflexivity.
Qed.

(** ** util.cc: trim *)

Lemma find_first_not_of_none (set s : bytes) :
  find_first_not_of set s = None <-> forallb (fun c => existsb (Byte.eqb c) set) s = true.
Proof.
  induction s as [|c s IH]; [split; reflexivity|].
  cbn [find_first_not_of forallb]. destruct (existsb (Byte.eqb c) set); cbn [andb].
  - rewrite <- IH. destruct (find_first_not_of set s); cbn; split; congruence.
  - split; discriminate.
Qed.

Lemma find_first_not_of_some (set s : bytes) (i : nat) :
  find_first_not_of set s = Some i ->
  exists a c r,
    s = a ++ c :: r /\ List.length a = i /\
    forallb (fun c => existsb (Byte.eqb c) set) a = true /\
    existsb (Byte.eqb c) set = false.
Proof.
  revert i. induction s as [|c s IH]; intros i; [discriminate|].
  cbn [find_first_not_of]. destruct (existsb (Byte.eqb c) set) eqn:Hc.
  - destruct (find_first_not_of set s) as [j|]; [|discriminate].
    cbn [option_map]. intros H. inversion H; subst.
    destruct (IH j eq_refl) as (a & c' & r & -> & Hlen & Ha & Hc').
    exists (c :: a), c', r. cbn [forallb List.length app]. rewrite Hc, Ha, Hlen. auto.
  - intros H. inversion H; subst. exists [], c, s. auto.
Qed.

Lemma find_last_not_of_some (set s : bytes) (i : nat) :
  find_last_not_of set s = Some i ->
  exists a c r,
    s = a ++ c :: r /\ List.length a = i /\
    forallb (fun c => existsb (Byte.eqb c) set) r = true /\
    existsb (Byte.eqb c) set = false.
Proof.
  unfold find_last_not_of.
  destruct (find_first_not_of set (rev s)) as [k|] eqn:Hk; [|discriminate].
  cbn [option_map]. intros H. inversion H; subst; clear H.
  destruct (find_first_not_of_some _ _ _ Hk) as (a & c & r & Hs & Hlen & Ha & Hc).
  apply (f_equal (@rev byte)) in Hs. rewrite rev_involutive, rev_app_distr in Hs.
  cbn [rev] in Hs. rewrite <- app_assoc in Hs. cbn [app] in Hs.
  exists (rev r), c, (rev a). split; [exact Hs|]. split; [|split; [|exact Hc]].
  - rewrite Hs, length_app. cbn [List.length]. rewrite !length_rev. lia.
  - rewrite forallb_forall in *. intros x Hx. apply Ha. apply in_rev. exact Hx.
Qed.

Lemma last_after {A : Type} (a : list A) (c : A) (r : list A) (d : A) :
  last (a ++ c :: r) d = last (c :: r) d.
Proof.
  induction a as [|x a IH]; [reflexivity|].
  cbn [app]. rewrite <- IH. destruct (a ++ c :: r) eqn:H; [|reflexivity].
  destruct a; discriminate.
Qed.

Lemma trim_ends (c : byte) (r : bytes) :
  is_whitespace c = false -> is_whitespace (last (c :: r) x00) = false ->
  trim (c :: r) = c :: r.
Proof.
  intros Hc Hlast. unfold trim. cbn [is_empty].
  assert (Hrev : exists d t, rev (c :: r) = d :: t /\ d = last (c :: r) x00).
  { destruct (rev (c :: r)) as [|d t] eqn:Hr.
    - apply (f_equal (@List.length byte)) in Hr. rewrite length_rev in Hr. discriminate.
    - exists d, t. split; [reflexivity|].
      apply (f_equal (@rev byte)) in Hr. rewrite rev_involutive in Hr.
      cbn [rev] in Hr. rewrite Hr. symmetry. apply last_last. }
  destruct Hrev as (d & t & Hr & Hd).
  unfold find_last_not_of. rewrite Hr. cbn [find_first_not_of].
  fold (is_whitespace d). rewrite Hd, Hlast. cbn [option_map].
  replace (List.length (c :: r) - 1 - 0 + 1)%nat with (List.length (c :: r))
    by (cbn [List.length]; lia).
  rewrite firstn_all. cbn [find_first_not_of]. fold (is_whitespace c). rewrite Hc.
  reflexivity.
Qed.

(** X18: [trim] cuts a string down to what lies between its first and its
    last byte that is not a blank, CR, LF or tab: the string is blanks, the
    result, blanks; the result is empty or starts and ends with a byte that
    is no blank; trimming it again changes nothing. *)
Theorem trim_strips_whitespace (str : bytes) :
  (exists a b,
     str = a ++ trim str ++ b /\
     forallb is_whitespace a = true /\ forallb is_whitespace b = true) /\
  (trim str <> [] ->
   is_whitespace (hd x00 (trim str)) = false /\
   is_whitespace (last (trim str) x00) = false) /\
  (trim str = [] <-> forallb is_whitespace str = true) /\
  trim (trim str) = trim str.
Proof.
  assert (Hcases :
    (trim str = [] /\ forallb is_whitespace str = true) \/
    (exists a c r b,
       str = a ++ (c :: r) ++ b /\ trim str = c :: r /\
       forallb is_whitespace a = true /\ forallb is_whitespace b = true /\
       is_whitespace c = false /\ is_whitespace (last (c :: r) x00) = false)).
  { destruct str as [|c0 str0]; [left; split; reflexivity|].
    set (str := c0 :: str0). unfold trim. change (is_empty str) with false. cbv iota.
    destruct (find_last_not_of whitespace str) as [i|] eqn:Hlast.
    - right.
      destruct (find_last_not_of_some _ _ _ Hlast) as (a & c & b & Hs & Hi & Hb & Hc).
      assert (Hcut : firstn (i + 1) str = a ++ [c]).
      { rewrite Hs. replace (a ++ c :: b) with ((a ++ [c]) ++ b)
          by (rewrite <- app_assoc; reflexivity).
        apply firstn_length_app. rewrite length_app. cbn [List.length]. lia. }
      rewrite Hcut.
      destruct (find_first_not_of whitespace (a ++ [c])) as [j|] eqn:Hfirst.
      + destruct (find_first_not_of_some _ _ _ Hfirst) as (a1 & c1 & r1 & Hs1 & Hj & Ha1 & Hc1).
        exists a1, c1, r1, b.
        assert (Hskip : skipn j (a ++ [c]) = c1 :: r1).
        { rewrite Hs1. apply skipn_length_app. exact Hj. }
        split.
        { rewrite Hs. replace (a ++ c :: b) with ((a ++ [c]) ++ b)
            by (rewrite <- app_assoc; reflexivity).
          rewrite Hs1, <- !app_assoc. reflexivity. }
        split; [exact Hskip|]. split; [exact Ha1|]. split; [exact Hb|].
        split; [exact Hc1|].
        assert (Hl : last (c1 :: r1) x00 = c).
        { transitivity (last (a1 ++ c1 :: r1) x00).
          - symmetry. apply last_after.
          - rewrite <- Hs1. apply last_last. }
        rewrite Hl. exact Hc.
      + exfalso. apply find_first_not_of_none in Hfirst.
        rewrite forallb_app in Hfirst. cbn [forallb] in Hfirst.
        rewrite Hc in Hfirst. rewrite andb_false_r in Hfirst. discriminate.
    - left. unfold find_last_not_of in Hlast.
      destruct (find_first_not_of whitespace (rev str)) eqn:Hrev; [discriminate|].
      apply find_first_not_of_none in Hrev.
      assert (Hall : forallb is_whitespace str = true).
      { rewrite forallb_forall in *. intros x Hx. apply Hrev. apply in_rev in Hx. exact Hx. }
      replace (find_first_not_of whitespace str) with (@None nat)
        by (symmetry; apply find_first_not_of_none; exact Hall).
      split; [reflexivity|exact Hall]. }
  destruct Hcases as [[Ht Hall]|(a & c & r & b & Hs & Ht & Ha & Hb & Hc & Hl)].
  - rewrite Ht. split; [|split; [|split]].
    + exists str, []. rewrite app_nil_r. repeat split. exact Hall.
    + intros H. contradiction.
    + split; intros _; [exact Hall|reflexivity].
    + reflexivity.
  - rewrite Ht. split; [|split; [|split]].
    + exists a, b. repeat split; assumption.
    + intros _. split; [exact Hc|exact Hl].
    + split; [discriminate|].
      intros Hall. rewrite Hs, !forallb_app in Hall. cbn [forallb] in Hall.
      rewrite Hc in Hall. cbn in Hall. rewrite andb_false_r in Hall. discriminate.
    + apply trim_ends; assumption.
Qed.

(** ** util.cc: unescape *)

Lemma byte_eqb_refl (b : byte) : Byte.eqb b b = true.
Proof. apply Byte.byte_dec_lb. reflexivity. Qed.

Lemma byte_eqb_neq (a b : byte) : a <> b -> Byte.eqb a b = false.
Proof.
  intros H. destruct (Byte.eqb a b) eqn:Hab; [|reflexivity].
  apply Byte.byte_dec_bl in Hab. contradiction.
Qed.

Lemma unescape_from_plain (delim : byte) (done rest : bytes) :
  ~ In backslash rest -> unescape_from delim done rest = Returned (done ++ rest).
Proof.
  revert done. induction rest as [|c rest IH]; intros done H; cbn [unescape_from].
  - now rewrite app_nil_r.
  - rewrite byte_eqb_neq by (intros ->; apply H; left; reflexivity).
    rewrite IH by (intros Hin; apply H; right; exact Hin).
    rewrite <- app_assoc. reflexivity.
Qed.

Lemma unescape_from_escape (delim : byte) (done s rest : bytes) :
  unescape_from delim done (escape delim s ++ rest) = unescape_from delim (done ++ s) rest.
Proof.
  revert done. induction s as [|c s IH]; intros done; cbn [escape app].
  - now rewrite app_nil_r.
  - destruct (Byte.eqb c backslash || Byte.eqb c delim) eqn:Hc.
    + cbn [app unescape_from]. rewrite byte_eqb_refl, Hc, IH, <- app_assoc. reflexivity.
    + cbn [app unescape_from]. apply orb_false_iff in Hc. rewrite (proj1 Hc).
      rewrite IH, <- app_assoc. reflexivity.
Qed.

(** X19: [unescape] takes away the backslash put before a backslash or a
    delimiter, so it undoes [escape], and it leaves a string with no
    backslash as it is.  A backslash at the end of the string, and one
    before any other byte, make it throw, and the message quotes the string
    with the escapes before that place already taken away. *)
Theorem unescape_undoes_escape (delim : byte) (s : bytes) :
  unescape (escape delim s) delim = Returned s /\
  (forall str, ~ In backslash str -> unescape str delim = Returned str) /\
  unescape (escape delim s ++ [backslash]) delim
  = Thrown ("stray backslash in '" ++ string_of_list_byte (s ++ [backslash]) ++ "'")
      (s ++ [backslash]) /\
  (forall d rest,
     d <> backslash -> d <> delim ->
     unescape (escape delim s ++ backslash :: d :: rest) delim
     = Thrown ("invalid escape sequence in '"
                 ++ string_of_list_byte (s ++ backslash :: d :: rest) ++ "'")
         (s ++ backslash :: d :: rest)).
Proof.
  unfold unescape. split; [|split; [|split]].
  - rewrite <- (app_nil_r (escape delim s)), unescape_from_escape. reflexivity.
  - intros str H. apply (unescape_from_plain delim [] str H).
  - rewrite unescape_from_escape. cbn [app unescape_from].
    rewrite byte_eqb_refl. reflexivity.
  - intros d rest Hd1 Hd2. rewrite unescape_from_escape. cbn [app unescape_from].
    rewrite byte_eqb_refl, (byte_eqb_neq d backslash Hd1), (byte_eqb_neq d delim Hd2).
    reflexivity.
Qed.

(** ** util.cc: split *)

Lemma find_char_cut (c : byte) (str : bytes) (pos e : nat) :
  find_char c pos str = Some e ->
  (pos <= e < List.length str)%nat /\
  skipn pos str = firstn (e - pos) (skipn pos str) ++ c :: skipn (S e) str /\
  ~ In c (firstn (e - pos) (skipn pos str)).
Proof.
  revert pos e. induction str as [|b str IH]; intros pos e; [discriminate|].
  destruct pos as [|pos]; cbn [find_char].
  - destruct (Byte.eqb b c) eqn:Hb.
    + intros H. inversion H; subst. apply Byte.byte_dec_bl in Hb. subst b.
      cbn. split; [lia|]. split; [reflexivity|]. intros [].
    + destruct (find_char c 0 str) as [e'|] eqn:He; [|discriminate].
      cbn [option_map]. intros H. inversion H; subst.
      destruct (IH 0%nat e' He) as (Hr & Hcut & Hnot).
      rewrite Nat.sub_0_r in *. cbn [skipn] in *.
      split; [cbn [List.length]; lia|]. split.
      * cbn [firstn app]. rewrite <- Hcut. reflexivity.
      * cbn [firstn]. intros [Hin|Hin]; [|exact (Hnot Hin)].
        subst b. rewrite byte_eqb_refl in Hb. discriminate.
  - destruct (find_char c pos str) as [e'|] eqn:He; [|discriminate].
    cbn [option_map]. intros H. inversion H; subst.
    destruct (IH pos e' He) as (Hr & Hcut & Hnot).
    cbn [skipn List.length Nat.sub]. split; [lia|]. split; assumption.
Qed.

Lemma find_char_none (c : byte) (str : bytes) (pos : nat) :
  find_char c pos str = None -> ~ In c (skipn pos str).
Proof.
  revert pos. induction str as [|b str IH]; intros pos.
  - intros _. rewrite skipn_nil. intros [].
  - destruct pos as [|pos]; cbn [find_char skipn].
    + destruct (Byte.eqb b c) eqn:Hb; [discriminate|].
      destruct (find_char c 0 str) eqn:He; [discriminate|].
      intros _ [Hin|Hin].
      * subst b. rewrite byte_eqb_refl in Hb. discriminate.
      * exact (IH 0%nat He Hin).
    + destruct (find_char c pos str) eqn:He; [discriminate|].
      intros _. exact (IH pos He).
Qed.

Lemma fields_plain (delim : byte) (s : bytes) :
  ~ In delim s -> fields delim s = [s].
Proof.
  induction s as [|c s IH]; intros H; [reflexivity|].
  cbn [fields]. rewrite byte_eqb_neq by (intros ->; apply H; left; reflexivity).
  rewrite IH by (intros Hin; apply H; right; exact Hin). reflexivity.
Qed.

Lemma fields_cut (delim : byte) (a r : bytes) :
  ~ In delim a -> fields delim (a ++ delim :: r) = a :: fields delim r.
Proof.
  induction a as [|c a IH]; intros H.
  - cbn [app fields]. rewrite byte_eqb_refl. reflexivity.
  - cbn [app fields]. rewrite byte_eqb_neq by (intros ->; apply H; left; reflexivity).
    rewrite IH by (intros Hin; apply H; right; exact Hin). reflexivity.
Qed.

Lemma fields_nonempty (delim : byte) (s : bytes) : fields delim s <> [].
Proof.
  destruct s as [|c s]; [discriminate|].
  cbn [fields]. destruct (Byte.eqb c delim); [discriminate|].
  destruct (fields delim s); discriminate.
Qed.

Lemma in_firstn {A : Type} (x : A) (n : nat) (l : list A) : In x (firstn n l) -> In x l.
Proof. intros H. rewrite <- (firstn_skipn n l). apply in_or_app. left. exact H. Qed.

Lemma in_skipn {A : Type} (x : A) (n : nat) (l : list A) : In x (skipn n l) -> In x l.
Proof. intros H. rewrite <- (firstn_skipn n l). apply in_or_app. right. exact H. Qed.

Lemma is_unescaped_plain (str : bytes) (pos : nat) :
  ~ In backslash str -> is_unescaped str pos = true.
Proof.
  intros H. unfold is_unescaped. destruct pos as [|pos]; [reflexivity|].
  assert (Hnth : forall i, Byte.eqb (nth i str x00) backslash = false).
  { intros i. apply byte_eqb_neq. intros Heq.
    destruct (Nat.lt_ge_cases i (List.length str)) as [Hlt|Hge].
    - apply H. rewrite <- Heq. apply nth_In. exact Hlt.
    - rewrite nth_overflow in Heq by exact Hge. discriminate. }
  rewrite Hnth. cbn [negb]. rewrite andb_false_r. reflexivity.
Qed.

Lemma push_back_plain (strings : list bytes) (str : bytes) (delim : byte)
      (empties : bool) (limit : nat) :
  ~ In backslash str ->
  push_back strings str delim empties limit
  = Returned (if empties || negb (is_empty str) then glue delim limit strings str else strings).
Proof.
  intros H. unfold push_back, unescape, glue.
  rewrite (unescape_from_plain delim [] str H). cbn [app].
  destruct (empties || negb (is_empty str)); [|reflexivity].
  destruct ((limit =? 0)%nat || (List.length strings <? limit)%nat); reflexivity.
Qed.

Lemma kept_fields_cut (delim : byte) (empties : bool) (a r : bytes) :
  ~ In delim a ->
  kept_fields delim empties (a ++ delim :: r)
  = (if empties || negb (is_empty a) then [a] else []) ++ kept_fields delim empties r.
Proof.
  intros H. unfold kept_fields. rewrite fields_cut by exact H. cbn [filter].
  destruct (empties || negb (is_empty a)); reflexivity.
Qed.

Lemma kept_fields_plain (delim : byte) (empties : bool) (s : bytes) :
  ~ In delim s ->
  kept_fields delim empties s = (if empties || negb (is_empty s) then [s] else []).
Proof.
  intros H. unfold kept_fields. rewrite fields_plain by exact H. cbn [filter].
  destruct (empties || negb (is_empty s)); reflexivity.
Qed.

(** One pass of the loop at a delimiter that counts. *)
Lemma split_loop_pass (fuel : nat) (str : bytes) (delim : byte) (empties : bool)
      (limit beg e : nat) (subs subs1 : list bytes) :
  is_unescaped str e = true ->
  push_back subs (substr beg (e - beg) str) delim empties limit = Returned subs1 ->
  split_loop (S fuel) str delim empties limit beg (Some e) subs
  = match find_char delim (S e) str with
    | Some e' => split_loop fuel str delim empties limit (S e) (Some e') subs1
    | None => push_back subs1 (skipn (S e) str) delim empties limit
    end.
Proof.
  intros Hu Hp. cbn [split_loop]. rewrite Hu, Hp, Nat.add_1_r.
  destruct (find_char delim (S e) str); [reflexivity|].
  unfold substr. rewrite firstn_all2 by (rewrite length_skipn; lia).
  destruct (push_back subs1 (skipn (S e) str) delim empties limit); try reflexivity.
  destruct fuel; reflexivity.
Qed.

(** The loop on a string with no backslash: it pushes the fields from [beg]
    on, one pass for each delimiter. *)
Lemma split_loop_plain (fuel : nat) (str : bytes) (delim : byte) (empties : bool)
      (limit beg e : nat) (subs : list bytes) :
  ~ In backslash str ->
  find_char delim beg str = Some e ->
  (List.length str - e <= fuel)%nat ->
  split_loop fuel str delim empties limit beg (Some e) subs
  = Returned (fold_left (glue delim limit) (kept_fields delim empties (skipn beg str)) subs).
Proof.
  intros Hplain. revert beg e subs.
  induction fuel as [|fuel IH]; intros beg e subs Hfind Hfuel.
  - destruct (find_char_cut _ _ _ _ Hfind) as (Hr & _). lia.
  - destruct (find_char_cut _ _ _ _ Hfind) as (Hr & Hcut & Hnot).
    set (piece := firstn (e - beg) (skipn beg str)) in *.
    assert (Hpiece : ~ In backslash piece)
      by (intros Hin; apply Hplain; eapply in_skipn, in_firstn; exact Hin).
    rewrite Hcut, kept_fields_cut by exact Hnot. rewrite fold_left_app.
    set (subs1 := if empties || negb (is_empty piece)
                  then glue delim limit subs piece else subs).
    match goal with
    | |- context [fold_left ?f (if ?c then ?a else ?b) ?s] =>
        replace (fold_left f (if c then a else b) s) with subs1
          by (subst subs1; destruct c; reflexivity)
    end.
    rewrite (split_loop_pass fuel str delim empties limit beg e subs subs1)
      by (first [apply is_unescaped_plain; exact Hplain
                |apply push_back_plain; exact Hpiece]).
    destruct (find_char delim (S e) str) as [e'|] eqn:Hnext.
    + destruct (find_char_cut _ _ _ _ Hnext) as (Hr' & _).
      apply IH; [exact Hnext|lia].
    + pose proof (find_char_none _ _ _ Hnext) as Hrest.
      rewrite push_back_plain by (intros Hin; apply Hplain; eapply in_skipn; exact Hin).
      rewrite kept_fields_plain by exact Hrest.
      destruct (empties || negb (is_empty (skipn (S e) str))); reflexivity.
Qed.

(** What [split] returns for a string with no backslash. *)
Lemma split_plain (str : bytes) (delim : byte) (empties : bool) (limit : nat) :
  ~ In backslash str ->
  split str delim empties limit
  = Returned
      (match str with
       | [] => []
       | _ =>
           let subs := fold_left (glue delim limit) (kept_fields delim empties str) [] in
           if is_empty subs then [str] else subs
       end).
Proof.
  intros Hplain. unfold split.
  destruct (find_char delim 0 str) as [e|] eqn:Hfind.
  - destruct (find_char_cut _ _ _ _ Hfind) as (Hr & _).
    rewrite (split_loop_plain _ _ _ _ _ _ _ _ Hplain Hfind) by lia.
    cbn [skipn]. destruct str as [|c str]; [cbn in Hr; lia|].
    cbv zeta. cbn [is_empty negb andb].
    destruct (fold_left _ _ _) as [|s subs] eqn:Hfold; cbn [is_empty andb]; [|reflexivity].
    rewrite push_back_plain by exact Hplain.
    cbn [is_empty negb]. rewrite orb_true_r. unfold glue. cbn [List.length app].
    destruct limit; reflexivity.
  - pose proof (find_char_none _ _ _ Hfind) as Hnone. cbn [skipn] in Hnone.
    destruct str as [|c str]; [reflexivity|].
    cbn [split_loop List.length is_empty andb negb]. rewrite push_back_plain by exact Hplain.
    rewrite kept_fields_plain by exact Hnone.
    cbn [is_empty negb]. rewrite orb_true_r. cbv zeta. cbn [fold_left].
    unfold glue. cbn [List.length app].
    destruct limit; reflexivity.
Qed.

Lemma fold_glue_no_limit (delim : byte) (l subs : list bytes) :
  fold_left (glue delim 0) l subs = subs ++ l.
Proof.
  revert subs. induction l as [|f l IH]; intros subs; cbn [fold_left].
  - now rewrite app_nil_r.
  - rewrite IH. unfold glue. cbn [Nat.eqb orb]. now rewrite <- app_assoc.
Qed.

Lemma kept_fields_of_delimiters (delim : byte) (s : bytes) :
  (forall c, In c s -> c = delim) -> kept_fields delim false s = [].
Proof.
  unfold kept_fields. induction s as [|c s IH]; intros H; [reflexivity|].
  cbn [fields]. rewrite (H c (or_introl eq_refl)), byte_eqb_refl.
  cbn [filter orb negb is_empty]. apply IH. intros x Hx. apply H. right. exact Hx.
Qed.

(** X20: on a string with no backslash, [split] pushes the fields of the
    string in order, skipping the empty ones unless [empties] is set, and
    [push_back] appends the fields beyond [limit] to the last element with
    the delimiter; with no limit the result is the kept fields themselves.
    An empty string gives no element at all, and a string every field of
    which was skipped gives the string itself: with [empties] off, a string
    of delimiters comes back whole. *)
Theorem split_pushes_fields (str : bytes) (delim : byte) (empties : bool) (limit : nat) :
  ~ In backslash str ->
  split str delim empties limit
  = Returned
      (match str with
       | [] => []
       | _ =>
           let subs := fold_left (glue delim limit) (kept_fields delim empties str) [] in
           if is_empty subs then [str] else subs
       end) /\
  (limit = O ->
   fold_left (glue delim limit) (kept_fields delim empties str) []
   = kept_fields delim empties str) /\
  (empties = false -> str <> [] -> (forall c, In c str -> c = delim) ->
   split str delim empties limit = Returned [str]).
Proof.
  intros Hplain. split; [apply split_plain; exact Hplain|]. split.
  - intros ->. apply fold_glue_no_limit.
  - intros -> Hne Hall. rewrite split_plain by exact Hplain.
    destruct str as [|c str]; [contradiction|].
    cbv zeta. rewrite kept_fields_of_delimiters by exact Hall. reflexivity.
Qed.

Lemma join_snoc (delim : byte) (l : list bytes) (a b : bytes) :
  join delim (l ++ [a; b]) = join delim (l ++ [a ++ delim :: b]).
Proof.
  induction l as [|x l IH]; [reflexivity|].
  cbn [app]. destruct l as [|y l]; [reflexivity|].
  cbn [app join] in *. rewrite IH. reflexivity.
Qed.

Lemma join_glue (delim : byte) (limit : nat) (strings : list bytes) (field : bytes) :
  join delim (glue delim limit strings field) = join delim (strings ++ [field]) /\
  glue delim limit strings field <> [] /\
  ((0 < limit)%nat -> (List.length strings <= limit)%nat ->
   (List.length (glue delim limit strings field) <= limit)%nat).
Proof.
  unfold glue.
  destruct ((limit =? 0)%nat || (List.length strings <? limit)%nat) eqn:Hc.
  - split; [reflexivity|]. split; [destruct strings; discriminate|].
    intros Hl _. rewrite length_app. cbn [List.length].
    apply orb_true_iff in Hc. destruct Hc as [Hc|Hc].
    + apply Nat.eqb_eq in Hc. lia.
    + apply Nat.ltb_lt in Hc. lia.
  - apply orb_false_iff in Hc. destruct Hc as [H0 Hlt].
    apply Nat.eqb_neq in H0. apply Nat.ltb_ge in Hlt.
    assert (Hne : strings <> []) by (intros ->; cbn in Hlt; lia).
    split; [|split].
    + rewrite (app_removelast_last [] Hne) at 3.
      rewrite <- app_assoc. cbn [app]. symmetry. apply join_snoc.
    + destruct (removelast strings); discriminate.
    + intros _ Hle. rewrite length_app. cbn [List.length].
      rewrite (app_removelast_last [] Hne), length_app in Hle. cbn [List.length] in Hle.
      exact Hle.
Qed.

Lemma join_fold_glue (delim : byte) (limit : nat) (l subs : list bytes) :
  join delim (fold_left (glue delim limit) l subs) = join delim (subs ++ l) /\
  (subs <> [] \/ l <> [] -> fold_left (glue delim limit) l subs <> []) /\
  ((0 < limit)%nat -> (List.length subs <= limit)%nat ->
   (List.length (fold_left (glue delim limit) l subs) <= limit)%nat).
Proof.
  revert subs. induction l as [|f l IH]; intros subs.
  - cbn [fold_left]. rewrite app_nil_r. split; [reflexivity|]. split; [|auto].
    intros [H|H]; [exact H|contradiction].
  - cbn [fold_left].
    destruct (join_glue delim limit subs f) as (Hj & Hne & Hlen).
    destruct (IH (glue delim limit subs f)) as (IHj & IHne & IHlen).
    split; [|split].
    + rewrite IHj.
      assert (Hcong : forall a b : list bytes,
                 a <> [] -> b <> [] -> join delim a = join delim b ->
                 join delim (a ++ l) = join delim (b ++ l)).
      { intros a b Ha Hb Hab. destruct l as [|g l]; [now rewrite !app_nil_r|].
        assert (Happ : forall a : list bytes, a <> [] ->
                   join delim (a ++ g :: l) = join delim a ++ delim :: join delim (g :: l)).
        { clear. intros a Ha. induction a as [|x a IHa]; [contradiction|].
          destruct a as [|y a].
          - reflexivity.
          - change ((x :: y :: a) ++ g :: l) with (x :: ((y :: a) ++ g :: l)).
            change (join delim (x :: (y :: a) ++ g :: l))
              with (x ++ delim :: join delim ((y :: a) ++ g :: l)).
            rewrite IHa by discriminate.
            change (join delim (x :: y :: a)) with (x ++ delim :: join delim (y :: a)).
            rewrite <- app_assoc. reflexivity. }
        rewrite !Happ by assumption. now rewrite Hab. }
      replace (subs ++ f :: l) with ((subs ++ [f]) ++ l)
        by (rewrite <- app_assoc; reflexivity).
      apply Hcong; [exact Hne|destruct subs; discriminate|exact Hj].
    + intros _. apply IHne. left. exact Hne.
    + intros Hl Hs. apply IHlen; [exact Hl|]. apply Hlen; assumption.
Qed.

Lemma join_fields (delim : byte) (s : bytes) : join delim (fields delim s) = s.
Proof.
  induction s as [|c s IH]; [reflexivity|].
  cbn [fields]. destruct (Byte.eqb c delim) eqn:Hc.
  - apply Byte.byte_dec_bl in Hc. subst c.
    pose proof (fields_nonempty delim s) as Hne.
    destruct (fields delim s) as [|f fs]; [contradiction|].
    change (join delim ([] :: f :: fs)) with ([] ++ delim :: join delim (f :: fs)).
    rewrite IH. reflexivity.
  - pose proof (fields_nonempty delim s) as Hne.
    destruct (fields delim s) as [|f fs]; [contradiction|].
    destruct fs as [|g fs].
    + cbn [join] in *. now rewrite IH.
    + change (join delim ((c :: f) :: g :: fs)) with ((c :: f) ++ delim :: join delim (g :: fs)).
      change (join delim (f :: g :: fs)) with (f ++ delim :: join delim (g :: fs)) in IH.
      cbn [app]. now rewrite IH.
Qed.

Lemma fields_no_delim (delim : byte) (s : bytes) :
  Forall (fun f => ~ In delim f) (fields delim s).
Proof.
  induction s as [|c s IH]; [repeat constructor; intros []|].
  cbn [fields]. destruct (Byte.eqb c delim) eqn:Hc.
  - constructor; [intros []|exact IH].
  - pose proof (fields_nonempty delim s) as Hne.
    destruct (fields delim s) as [|f fs]; [contradiction|].
    inversion IH as [|? ? Hf Hfs]; subst. constructor; [|exact Hfs].
    intros [Hin|Hin]; [|exact (Hf Hin)].
    subst c. rewrite byte_eqb_refl in Hc. discriminate.
Qed.

(** X21: with [empties] on and no backslash in the string, the elements
    [split] returns give the string back when put together with the
    delimiter, whatever the limit; there are at most [limit] of them when a
    limit is set, and with no limit they are the fields themselves, none of
    which holds a delimiter.  A string that is not empty never gives an
    empty vector. *)
Theorem split_join_round_trip (str : bytes) (delim : byte) (limit : nat) :
  ~ In backslash str ->
  exists subs,
    split str delim true limit = Returned subs /\
    join delim subs = str /\
    (str <> [] -> subs <> []) /\
    ((0 < limit)%nat -> (List.length subs <= limit)%nat) /\
    (limit = O -> str <> [] ->
     subs = fields delim str /\ Forall (fun f => ~ In delim f) subs).
Proof.
  intros Hplain. rewrite (split_plain str delim true limit Hplain).
  destruct str as [|c str].
  { exists []. split; [reflexivity|]. split; [reflexivity|].
    split; [intros H; exfalso; apply H; reflexivity|].
    split; [intros _; cbn; lia|]. intros _ H. exfalso. apply H. reflexivity. }
  set (s := c :: str) in *.
  assert (Hkept : kept_fields delim true s = fields delim s).
  { unfold kept_fields. cbn [orb]. induction (fields delim s) as [|f fs IH]; [reflexivity|].
    cbn [filter]. now rewrite IH. }
  destruct (join_fold_glue delim limit (fields delim s) []) as (Hj & Hne & Hlen).
  cbv zeta. rewrite Hkept.
  assert (Hfold : fold_left (glue delim limit) (fields delim s) [] <> []).
  { apply Hne. right. apply fields_nonempty. }
  destruct (fold_left (glue delim limit) (fields delim s) []) as [|x subs] eqn:Hf;
    [contradiction|].
  cbn [is_empty]. exists (x :: subs).
  split; [reflexivity|]. split; [|split; [|split]].
  - rewrite Hj. cbn [app]. apply join_fields.
  - intros _. discriminate.
  - intros Hl. apply Hlen; [exact Hl|cbn; lia].
  - intros -> _. rewrite <- Hf.
    rewrite fold_glue_no_limit. cbn [app]. split; [reflexivity|apply fields_no_delim].
Qed.

(** ** nonvoltest.cc: get *)

Lemma unescape_from_ends (delim : byte) (done rest : bytes) :
  unescape_from delim done rest <> OutOfFuel /\
  forall a, unescape_from delim done rest <> NullDeref a.
Proof.
  remember (List.length rest) as n eqn:Hn. revert done rest Hn.
  induction n as [n IH] using lt_wf_ind. intros done rest Hn.
  destruct rest as [|c rest]; cbn [unescape_from]; [split; [|intros a]; discriminate|].
  destruct (Byte.eqb c backslash).
  - destruct rest as [|d rest]; [split; [|intros a]; discriminate|].
    destruct (Byte.eqb d backslash || Byte.eqb d delim); [|split; [|intros a]; discriminate].
    apply (IH (List.length rest)); [cbn [List.length] in Hn; lia|reflexivity].
  - apply (IH (List.length rest)); [cbn [List.length] in Hn; lia|reflexivity].
Qed.

Lemma push_back_ends (strings : list bytes) (str : bytes) (delim : byte)
      (empties : bool) (limit : nat) :
  push_back strings str delim empties limit <> OutOfFuel /\
  (forall a, push_back strings str delim empties limit <> NullDeref a) /\
  (forall subs, push_back strings str delim empties limit = Returned subs ->
                strings <> [] \/ empties || negb (is_empty str) = true -> subs <> []).
Proof.
  unfold push_back, unescape.
  destruct (unescape_from_ends delim [] str) as [Hf Hn].
  destruct (empties || negb (is_empty str)).
  - destruct (unescape_from delim [] str) as [u|w a|a|]; try contradiction.
    + destruct ((limit =? 0)%nat || (List.length strings <? limit)%nat);
        (split; [discriminate|]); (split; [intros a; discriminate|]);
        intros subs H _; inversion H; subst.
      * destruct strings; discriminate.
      * destruct (removelast strings); discriminate.
    + split; [discriminate|]. split; [intros a0; discriminate|]. intros subs H. discriminate.
    + exfalso. exact (Hn a eq_refl).
  - split; [discriminate|]. split; [intros a; discriminate|].
    intros subs H [Hs|Hs]; [|discriminate]. inversion H; subst. exact Hs.
Qed.

Lemma split_loop_ends (fuel : nat) (str : bytes) (delim : byte) (empties : bool)
      (limit beg : nat) (end_ : option nat) (subs : list bytes) :
  (forall e, end_ = Some e -> (e < List.length str)%nat /\ (List.length str - e <= fuel)%nat) ->
  split_loop fuel str delim empties limit beg end_ subs <> OutOfFuel /\
  forall a, split_loop fuel str delim empties limit beg end_ subs <> NullDeref a.
Proof.
  revert beg end_ subs. induction fuel as [|fuel IH]; intros beg end_ subs Hend.
  - destruct end_ as [e|]; [destruct (Hend e eq_refl); lia|].
    cbn [split_loop]. split; [|intros a]; discriminate.
  - destruct end_ as [e|]; [|cbn [split_loop]; split; [|intros a]; discriminate].
    destruct (Hend e eq_refl) as [He Hfuel]. cbn [split_loop].
    assert (Hnext : forall subs1 beg1,
               (match find_char delim (e + 1) str with
                | Some _ =>
                    split_loop fuel str delim empties limit beg1
                      (find_char delim (e + 1) str) subs1
                | None =>
                    match push_back subs1 (substr beg1 (List.length str) str) delim empties limit with
                    | Returned subs2 =>
                        split_loop fuel str delim empties limit beg1
                          (find_char delim (e + 1) str) subs2
                    | other => other
                    end
                end) <> OutOfFuel /\
               forall a,
                 (match find_char delim (e + 1) str with
                  | Some _ =>
                      split_loop fuel str delim empties limit beg1
                        (find_char delim (e + 1) str) subs1
                  | None =>
                      match push_back subs1 (substr beg1 (List.length str) str) delim empties limit with
                      | Returned subs2 =>
                          split_loop fuel str delim empties limit beg1
                            (find_char delim (e + 1) str) subs2
                      | other => other
                      end
                  end) <> NullDeref a).
    { intros subs1 beg1.
      destruct (find_char delim (e + 1) str) as [e'|] eqn:Hf.
      - apply IH. intros e0 He0. inversion He0; subst.
        destruct (find_char_cut _ _ _ _ Hf) as (Hr & _). lia.
      - destruct (push_back_ends subs1 (substr beg1 (List.length str) str) delim empties limit)
          as (Hp1 & Hp2 & _).
        destruct (push_back _ _ _ _ _) as [subs2|w a|a|]; try contradiction.
        + destruct fuel; cbn [split_loop]; (split; [|intros a]); discriminate.
        + split; [|intros a0]; discriminate.
        + exfalso. exact (Hp2 a eq_refl). }
    destruct (is_unescaped str e).
    + destruct (push_back_ends subs (substr beg (e - beg) str) delim empties limit)
        as (Hp1 & Hp2 & _).
      destruct (push_back subs _ _ _ _) as [subs1|w a|a|]; try contradiction.
      * apply Hnext.
      * split; [|intros a0]; discriminate.
      * exfalso. exact (Hp2 a eq_refl).
    + apply Hnext.
Qed.

(** X22: [split] comes to an end on every string, returning or throwing
    [invalid_argument], and it returns an empty vector for the empty string
    only.  So [get], which reads [tok[0]] of [split(name, '.', false, 2)]
    unchecked, reads past the end of an empty vector exactly when [name] is
    empty; a name with no backslash never does. *)
Theorem get_reads_first_token (group_name name : bytes) :
  get group_name name <> OutOfFuel /\
  (forall a, get group_name name <> NullDeref a) /\
  (get group_name name = Returned OutOfBounds <-> name = []) /\
  (name <> [] -> ~ In backslash name ->
   exists tok, split name x2e false 2 = Returned tok /\ tok <> [] /\
               (List.length tok <= 2)%nat).
Proof.
  assert (Hsplit : split name x2e false 2 <> OutOfFuel /\
                   (forall a, split name x2e false 2 <> NullDeref a) /\
                   (split name x2e false 2 = Returned [] <-> name = [])).
  { destruct name as [|c name0].
    { split; [discriminate|]. split; [intros a; discriminate|]. split; reflexivity. }
    set (name := c :: name0).
    assert (Hloop : split_loop (List.length name) name x2e false 2 0 (find_char x2e 0 name) []
                    <> OutOfFuel /\
                    forall a, split_loop (List.length name) name x2e false 2 0
                                (find_char x2e 0 name) [] <> NullDeref a).
    { apply split_loop_ends. intros e He.
      destruct (find_char_cut _ _ _ _ He) as (Hr & _). lia. }
    unfold split. destruct Hloop as [H1 H2].
    destruct (split_loop _ _ _ _ _ _ _ _) as [subs|w a|a|]; try contradiction.
    - destruct subs as [|s subs]; cbn [is_empty andb].
      + change (negb (is_empty name)) with true. cbv iota.
        destruct (push_back_ends [] name x2e false 2) as (Hp1 & Hp2 & Hp3).
        split; [exact Hp1|]. split; [exact Hp2|]. split; [|discriminate].
        intros H. exfalso. apply (Hp3 [] H); [right; reflexivity|reflexivity].
      + split; [discriminate|]. split; [intros a; discriminate|]. split; discriminate.
    - split; [discriminate|]. split; [intros a0; discriminate|]. split; discriminate.
    - exfalso. exact (H2 a eq_refl). }
  destruct Hsplit as (Hfuel & Hnull & Hempty).
  split; [|split; [|split]].
  - unfold get. destruct (split name x2e false 2); cbn [outcome_map]; try discriminate.
    contradiction.
  - intros a. unfold get. destruct (split name x2e false 2) as [tok|w t|t|];
      cbn [outcome_map]; try discriminate.
    exfalso. exact (Hnull t eq_refl).
  - rewrite <- Hempty. unfold get.
    destruct (split name x2e false 2) as [tok|w t|t|]; cbn [outcome_map];
      try (split; discriminate).
    destruct tok as [|t0 rest]; [split; reflexivity|].
    split; [|discriminate].
    destruct (bytes_eqb t0 group_name); [destruct (_ =? _)%nat|]; discriminate.
  - intros Hne Hplain. rewrite (split_plain name x2e false 2 Hplain).
    destruct name as [|c name0]; [contradiction|].
    set (name := c :: name0). cbv zeta.
    destruct (join_fold_glue x2e 2 (kept_fields x2e false name) []) as (_ & _ & Hlen).
    destruct (fold_left (glue x2e 2) (kept_fields x2e false name) []) as [|x subs];
      cbn [is_empty]; eexists; (split; [reflexivity|]); (split; [discriminate|]).
    + cbn. lia.
    + apply Hlen; cbn; lia.
Qed.

(** ** The reference kernels keep the contracts the properties assume *)

Lemma aes256_encrypt_block_length (blk : bytes) (sched : list Z) :
  List.length (aes256_encrypt_block blk sched) = 16%nat.
Proof.
  unfold aes256_encrypt_block, add_round_key. now rewrite !length_map, length_seq.
Qed.

Lemma aes256_decrypt_block_length (blk : bytes) (sched : list Z) :
  List.length (aes256_decrypt_block blk sched) = 16%nat.
Proof.
  unfold aes256_decrypt_block, add_round_key. now rewrite !length_map, length_seq.
Qed.

Lemma take_some (n : nat) (ins : istream) (got : bytes) (ins' : istream) :
  take n ins = (Some got, ins') ->
  (n <= List.length (unread ins))%nat /\
  List.length (unread ins') = (List.length (unread ins) - n)%nat /\
  eofbit ins' = eofbit ins /\ failbit ins' = failbit ins.
Proof.
  unfold take. destruct (n <=? List.length (unread ins))%nat eqn:Hn; [|discriminate].
  intros H. inversion H; subst; clear H. cbn. apply Nat.leb_le in Hn.
  rewrite length_skipn. auto.
Qed.

Lemma take_none (n : nat) (ins ins' : istream) :
  take n ins = (None, ins') -> eofbit ins' = true /\ failbit ins' = true.
Proof.
  unfold take. destruct (n <=? List.length (unread ins))%nat; [discriminate|].
  intros H. inversion H; subst. split; reflexivity.
Qed.

Ltac take_cases :=
  repeat
    (cbn [fst snd failbit eofbit unread];
     match goal with
     | |- context [take ?n ?i] =>
         let got := fresh "got" in
         let ins' := fresh "ins" in
         let H := fresh "Htake" in
         destruct (take n i) as [[got|] ins'] eqn:H;
         [apply take_some in H; destruct H as (? & ? & ? & ?)
         |apply take_none in H; destruct H as (? & ?)]
     | |- context [if ?c <? 8 then _ else _] => destruct (c <? 8)
     end).

Lemma reference_reader_progress (catalog : list (bytes * string)) :
  @reader_progress (reference catalog).
Proof.
  unfold reader_progress. intros ins group type remaining.
  cbn [nv_group_read reference]. unfold ref_group_read.
  take_cases; cbn [fst snd failbit eofbit unread]; try congruence; try discriminate.
  intros _ _. lia.
Qed.

Lemma reference_failed_read_has_group (catalog : list (bytes * string)) :
  @failed_read_has_group (reference catalog).
Proof.
  unfold failed_read_has_group. intros ins group type remaining.
  cbn [nv_group_read reference]. unfold ref_group_read.
  take_cases; cbn [fst snd failbit eofbit unread]; try congruence; discriminate.
Qed.

(** ** The properties on the sample files *)

#[local] Instance sample_externals : Externals := reference [].

(** C6 on AES-256: 99 bytes encrypted with [pad] give 115, decrypted 99. *)
Lemma crypt_block_carry_witness :
  List.length (crypt (E := reference []) (sample_settings ++ [x01; x02; x03]) tc7200_key false true)
  = 115%nat /\
  List.length (crypt (E := reference []) (sample_settings ++ [x01; x02; x03]) tc7200_key true true)
  = 99%nat.
Proof.
  split.
  - destruct (crypt_block_carry (E := reference [])
                (fun blk key _ => aes256_encrypt_block_length blk (aes256_key_schedule key))
                (fun blk key _ => aes256_decrypt_block_length blk (aes256_key_schedule key))
                (sample_settings ++ [x01; x02; x03]) tc7200_key false true)
      as (_ & _ & _ & blocks & tail & _ & _ & _ & _ & Hlen).
    rewrite Hlen. reflexivity.
  - destruct (crypt_block_carry (E := reference [])
                (fun blk key _ => aes256_encrypt_block_length blk (aes256_key_schedule key))
                (fun blk key _ => aes256_decrypt_block_length blk (aes256_key_schedule key))
                (sample_settings ++ [x01; x02; x03]) tc7200_key true true)
      as (_ & _ & _ & blocks & tail & _ & _ & _ & _ & Hlen).
    rewrite Hlen. reflexivity.
Defined.

(** C5 on the profile table: the plain sample's checksum is matched by
    tc7200 alone, which is detected from the table and from its reverse. *)
Lemma profile_auto_detection_witness :
  gw_profile (new_gwsettings (E := reference []) (firstn 16 gws_plain) None) = None /\
  gw_profile (detect_profile (E := reference []) (profiles_of bcm2_profiles)
                (new_gwsettings (firstn 16 gws_plain) None) (skipn 16 gws_plain))
  = Some tc7200 /\
  gw_profile (detect_profile (E := reference []) (rev (profiles_of bcm2_profiles))
                (new_gwsettings (firstn 16 gws_plain) None) (skipn 16 gws_plain))
  = Some tc7200.
Proof.
  split; [reflexivity|].
  apply (proj2 (proj2 (profile_auto_detection (E := reference [])
                         (new_gwsettings (firstn 16 gws_plain) None)
                         (skipn 16 gws_plain) eq_refl))).
  - apply Permutation_rev.
  - vm_compute. repeat (first [left; reflexivity | right]).
  - vm_compute. reflexivity.
  - intros q Hin Hq. vm_compute in Hin.
    repeat (destruct Hin as [<-|Hin]; [first [reflexivity | vm_compute in Hq; discriminate]|]).
    contradiction.
Defined.


(** C7 on a stream whose second record does not parse: the strict reader
    throws with one group accepted, the permissive one returns that group
    with [eofbit] set. *)
Lemma permissive_stops_where_strict_throws_witness :
  outcome_map (fun r => (fst r, map fst (m_groups (snd r))))
    (settings_read (E := reference []) (set_permissive false (new_settings 3 None)) 100
       (istringstream stream_bad_second))
  = Thrown "failed to read group 42424242"
      ({| unread := sample_group 8 "CCCC" []; eofbit := false; failbit := true |},
       ["41414141"%string]) /\
  outcome_map (fun r => (fst r, map fst (m_groups (snd r))))
    (settings_read (E := reference []) (set_permissive true (new_settings 3 None)) 100
       (istringstream stream_bad_second))
  = Returned
      ({| unread := sample_group 8 "CCCC" []; eofbit := true; failbit := false |},
       ["41414141"%string]).
Proof.
  assert (Hstrict :
    outcome_map (fun r => (fst r, map fst (m_groups (snd r))))
      (settings_read (E := reference []) (set_permissive false (new_settings 3 None)) 100
         (istringstream stream_bad_second))
    = Thrown "failed to read group 42424242"
        ({| unread := sample_group 8 "CCCC" []; eofbit := false; failbit := true |},
         ["41414141"%string]))
    by (vm_compute; reflexivity).
  split; [exact Hstrict|].
  pose proof (permissive_stops_where_strict_throws (E := reference [])
                (reference_failed_read_has_group []) (reference_reader_progress [])
                (new_settings 3 None) 100 (istringstream stream_bad_second)) as H.
  cbv zeta in H. destruct H as (_ & _ & _ & _ & _ & H & _).
  destruct (settings_read (E := reference []) (set_permissive false (new_settings 3 None)) 100
              (istringstream stream_bad_second)) as [[i s]|w [i s]|[i s]|];
    try discriminate Hstrict.
  rewrite H. cbn [outcome_map fst snd] in Hstrict |- *.
  injection Hstrict as Hw Hi Hs. rewrite Hi.
  exact (f_equal (fun names => Returned (clear_eofbit _, names)) Hs).
Defined.

(** C8 on a stream defining two names twice each. *)
Lemma group_names_one_counter_witness :
  map fst (m_groups (snd (outcome_state (istringstream stream_abab, new_settings 3 None)
                            (settings_read (E := reference []) (new_settings 3 None) 32
                               (istringstream stream_abab)))))
  = ["41414141"; "42424242"; "41414141_2"; "42424242_3"]%string.
Proof.
  pose proof (group_names_one_counter (E := reference []) (new_settings 3 None) 32
                (istringstream stream_abab)) as H.
  cbv zeta in H.
  destruct H as (_ & _ & _ & H & _).
  - reflexivity.
  - apply out_of_fuel_false. vm_compute. reflexivity.
  - vm_compute. reflexivity.
  - rewrite (H ["41414141"; "42424242"]%string "41414141"%string ["42424242"%string]).
    + reflexivity.
    + vm_compute. reflexivity.
    + repeat constructor; cbn; intuition discriminate.
    + left. reflexivity.
Defined.



(** C9 does not hold as stated: the crc field written is not the standard
    CRC-32 of the body. *)
Lemma permdyn_write_not_standard_crc :
  settings_write (Externals := reference []) sample_groups = sample_stream /\
  to_hex (be_bytes 4 (crc_optimal crc_32_type sample_stream)) = "52ace72f"%string /\
  to_hex (firstn 4 (skipn 206 (permdyn_write sample_permdyn))) = "ad5318d0"%string /\
  permdyn_write sample_permdyn
  <> fill 202 xff ++ nv_u32_write (8 + 16)
       ++ nv_u32_write (crc_optimal crc_32_type sample_stream) ++ sample_stream.
Proof.
  do 3 (split; [vm_compute; reflexivity|]).
  apply bytes_eqb_neq. vm_compute. reflexivity.
Qed.

(** C8 does not hold as stated: the first redefinition of a second name
    gets [_3], not [_2]; and a renamed group can take a name already in the
    list. *)
Lemma shared_counter_and_repeated_name :
  outcome_map (fun r => map fst (m_groups (snd r)))
    (settings_read (E := reference []) (new_settings 3 None) 32 (istringstream stream_abab))
  = Returned ["41414141"; "42424242"; "41414141_2"; "42424242_3"]%string /\
  outcome_map (fun r => map fst (m_groups (snd r)))
    (settings_read (E := reference catalog_wan) (new_settings 3 None) 24
       (istringstream stream_wan))
  = Returned ["wan_2"; "wan"; "wan_2"]%string /\
  ~ NoDup ["wan_2"; "wan"; "wan_2"]%string.
Proof.
  do 2 (split; [vm_compute; reflexivity|]).
  intros H. inversion H as [|x l Hin _]; subst. apply Hin. right. left. reflexivity.
Qed.

(** The plain and the encrypted sample come back as they were. *)
Lemma sample_files_round_trip :
  reencode gws_plain 0 None = Returned gws_plain /\
  reencode gws_encrypted 0 None = Returned gws_encrypted.
Proof. split; vm_compute; reflexivity. Qed.

(** A file encrypted under a key no profile lists is returned unread:
    marked encrypted, with no key recorded and no groups. *)
Lemma unknown_key_is_left_encrypted :
  outcome_map
    (fun r =>
       match fst r with
       | Some (Gwsettings c) =>
           Some (m_encrypted c, m_magic_valid c, m_key c, List.length (m_groups (gw_settings c)))
       | _ => None
       end)
    (read_file
       (with_checksum tc7200_md5_key (aes_ecb_encrypt (fill 32 x2a) sample_settings))
       0 None [])
  = Returned (Some (true, false, [], 0%nat)).
Proof. vm_compute. reflexivity. Qed.

(** C2 fails on the code: the encrypted, padded sample is read with every
    flag valid, the tc7200 profile detected and its key found, and is written
    back 16 bytes longer: [crypt] has already encrypted the 16 zero bytes of
    padding when [write] appends 16 more. *)
Theorem encrypted_padded_file_grows :
  outcome_map
    (fun r =>
       match fst r with
       | Some (Gwsettings c) =>
           Some (m_checksum_valid c, m_magic_valid c, m_size_valid c, m_padded c,
                 option_map profile_name (gw_profile c), to_hex (m_key c), m_size c)
       | _ => None
       end)
    (read_file gws_encrypted_padded 0 None [])
  = Returned
      (Some (true, true, true, true, Some "tc7200"%string,
             "000102030405060708090a0b0c0d0e0f101112131415161718191a1b1c1d1e1f"%string, 96)) /\
  List.length gws_encrypted_padded = 128%nat /\
  reencode gws_encrypted_padded 0 None = Returned (gws_encrypted_padded ++ fill 16 x00) /\
  reencode gws_encrypted_padded 0 (Some tc7200) = Returned (gws_encrypted_padded ++ fill 16 x00) /\
  reencode gws_encrypted_padded 0 None <> Returned gws_encrypted_padded.
Proof.
  assert (H : reencode gws_encrypted_padded 0 None
              = Returned (gws_encrypted_padded ++ fill 16 x00))
    by (vm_compute; reflexivity).
  do 4 (split; [vm_compute; reflexivity|]).
  rewrite H. intros Heq.
  apply (f_equal (fun o => List.length (outcome_state [] o))) in Heq.
  vm_compute in Heq. discriminate.
Qed.

(** C3 fails on the code in its last part: a container whose size is
    len(buf) - 16 is read with [padded] and [size_valid] set and written
    with the 16-byte trailer, but not as it was: the plain sample comes back
    with another checksum (taken before the trailer is appended, where the
    reader takes it over the trailer too), the encrypted one 16 bytes
    longer. *)
Theorem padded_file_not_reproduced :
  outcome_map
    (fun r =>
       match fst r with
       | Some (Gwsettings c) =>
           Some (m_size c, m_size_valid c, m_padded c, m_checksum_valid c)
       | _ => None
       end)
    (read_file gws_padded 0 None [])
  = Returned (Some (96, true, true, true)) /\
  Z.of_nat (List.length (skipn 16 gws_padded)) - 16 = 96 /\
  reencode gws_padded 0 None
  = Returned (md5_digest (sample_settings ++ tc7200_md5_key) ++ sample_settings ++ fill 16 x00) /\
  gws_padded
  = md5_digest (sample_settings ++ fill 16 x00 ++ tc7200_md5_key)
      ++ sample_settings ++ fill 16 x00 /\
  reencode gws_padded 0 None <> Returned gws_padded /\
  outcome_map
    (fun r =>
       match fst r with
       | Some (Gwsettings c) =>
           Some (m_size c, m_size_valid c, m_padded c, m_checksum_valid c)
       | _ => None
       end)
    (read_file gws_encrypted_padded 0 None [])
  = Returned (Some (96, true, true, true)) /\
  Z.of_nat (List.length (skipn 16 gws_encrypted_padded)) - 16 = 96 /\
  outcome_map (@List.length byte) (reencode gws_encrypted_padded 0 None) = Returned 144%nat /\
  List.length gws_encrypted_padded = 128%nat.
Proof.
  assert (H : reencode gws_padded 0 None
              = Returned (md5_digest (sample_settings ++ tc7200_md5_key)
                            ++ sample_settings ++ fill 16 x00))
    by (vm_compute; reflexivity).
  do 4 (split; [vm_compute; reflexivity|]).
  split; [|do 3 (split; [vm_compute; reflexivity|]); vm_compute; reflexivity].
  rewrite H. intros Heq.
  apply (f_equal (fun o => firstn 16 (outcome_state [] o))) in Heq.
  vm_compute in Heq. discriminate.
Qed.


(** X2 on the encrypted sample. *)
Lemma unpadded_round_trip_witness :
  gwsettings_write
    (outcome_state (new_gwsettings (firstn 16 gws_encrypted) None)
       (gwsettings_read (new_gwsettings (firstn 16 gws_encrypted) None)
          (skipn 16 gws_encrypted)))
  = Returned (firstn 16 gws_encrypted ++ skipn 16 gws_encrypted).
Proof.
  apply (unpadded_round_trip (firstn 16 gws_encrypted) None (skipn 16 gws_encrypted)).
  - apply is_returned_state. vm_compute. reflexivity.
  - vm_compute. reflexivity.
  - vm_compute. reflexivity.
  - vm_compute. reflexivity.
  - vm_compute. reflexivity.
  - right. apply bytes_eqb_neq. vm_compute. reflexivity.
  - intros _. apply bytes_eqb_eq. vm_compute. reflexivity.
  - apply bytes_eqb_eq. vm_compute. reflexivity.
Defined.


(** ** The further properties on the sample files *)

Lemma not_in_bytes (x : byte) (l : bytes) : existsb (Byte.eqb x) l = false -> ~ In x l.
Proof.
  intros H Hin. assert (Ht : existsb (Byte.eqb x) l = true).
  { apply existsb_exists. exists x. split; [exact Hin|apply byte_eqb_refl]. }
  congruence.
Qed.

(** X4 on the encrypted sample with its checksum bytes zeroed: the tc7200
    default key decrypts it and is recorded, no profile is, and [write]
    throws. *)
Lemma key_search_gives_no_profile_witness :
  let st := outcome_state (new_gwsettings (fill 16 x00) None)
              (gwsettings_read (new_gwsettings (fill 16 x00) None) (skipn 16 gws_encrypted)) in
  m_key st = tc7200_key /\ gw_profile st = None /\
  gwsettings_write st = Thrown "cannot write file without a profile" [].
Proof.
  intros st.
  assert (Hret : is_returned (gwsettings_read (new_gwsettings (fill 16 x00) None)
                                (skipn 16 gws_encrypted)) = true)
    by (vm_compute; reflexivity).
  assert (Hend : ends_in (gwsettings_read (new_gwsettings (fill 16 x00) None)
                            (skipn 16 gws_encrypted)) st)
    by (left; apply is_returned_state; exact Hret).
  destruct (key_search_gives_no_profile _ _ _ Hend) as (_ & _ & H).
  split; [vm_compute; reflexivity|].
  apply H; [reflexivity|].
  intros p Hin. vm_compute in Hin.
  repeat (destruct Hin as [<-|Hin]; [apply bytes_eqb_neq; vm_compute; reflexivity|]).
  contradiction.
Defined.

(** X5 on the encrypted sample: the checksum is valid, and it is the MD5
    of the ciphertext and the detected profile's key. *)
Lemma checksum_covers_stored_bytes_witness :
  let st := outcome_state (new_gwsettings (firstn 16 gws_encrypted) None)
              (gwsettings_read (new_gwsettings (firstn 16 gws_encrypted) None)
                 (skipn 16 gws_encrypted)) in
  m_key st = tc7200_key /\
  exists q, gw_profile st = Some q /\
            firstn 16 gws_encrypted = md5_digest (skipn 16 gws_encrypted ++ md5_key q).
Proof.
  intros st.
  assert (Hret : is_returned (gwsettings_read (new_gwsettings (firstn 16 gws_encrypted) None)
                                (skipn 16 gws_encrypted)) = true)
    by (vm_compute; reflexivity).
  assert (Hend : ends_in (gwsettings_read (new_gwsettings (firstn 16 gws_encrypted) None)
                            (skipn 16 gws_encrypted)) st)
    by (left; apply is_returned_state; exact Hret).
  destruct (checksum_covers_stored_bytes _ _ _ _ Hend) as (_ & _ & _ & H).
  split; [vm_compute; reflexivity|].
  apply H. vm_compute. reflexivity.
Defined.

(** X8 on the permnv sample whose crc field is right: the log says
    "checksum ok" and the header text says "(bad)". *)
Lemma permdyn_header_marks_checksum_bad_witness :
  let read := permdyn_read (new_permdyn false None) (permnv_tail 0xad5318d0) in
  let pd := fst (outcome_state (new_permdyn false None, []) read) in
  outcome_map snd read = Returned ["checksum ok: ad5318d0"%string] /\
  pd_header_to_string pd
  = ("type    : permdyn" ++ endl ++ "profile :  (unknown)" ++ endl
     ++ "checksum: ad5318d0 (bad)" ++ endl ++ "size    : 24" ++ endl)%string.
Proof.
  intros read pd.
  assert (Hret : is_returned read = true) by (vm_compute; reflexivity).
  assert (Hend : ends_in read (pd, snd (outcome_state (new_permdyn false None, []) read))).
  { left. subst pd. rewrite <- surjective_pairing. apply is_returned_state. exact Hret. }
  destruct (permdyn_header_marks_checksum_bad _ _ _ _ _ Hend) as (_ & _ & H).
  split; [vm_compute; reflexivity|].
  rewrite H. vm_compute. reflexivity.
Defined.

(** X9 on a file encrypted under a key no profile lists: the profile is
    detected from the checksum, and the key line reads "(unknown)". *)
Lemma gwsettings_header_never_shows_key_witness :
  let file := with_checksum tc7200_md5_key (aes_ecb_encrypt (fill 32 x2a) sample_settings) in
  let st := outcome_state (new_gwsettings (firstn 16 file) None)
              (gwsettings_read (new_gwsettings (firstn 16 file) None) (skipn 16 file)) in
  m_encrypted st = true /\
  gw_header_to_string st
  = ("type    : gwsettings" ++ endl ++ "profile : tc7200" ++ endl
     ++ "checksum: " ++ to_hex (firstn 16 file) ++ endl
     ++ "size    : 0 (bad)" ++ endl ++ "key     :(unknown)" ++ endl)%string.
Proof.
  intros file st.
  assert (Hret : is_returned (gwsettings_read (new_gwsettings (firstn 16 file) None)
                                (skipn 16 file)) = true)
    by (vm_compute; reflexivity).
  assert (Hend : ends_in (gwsettings_read (new_gwsettings (firstn 16 file) None)
                            (skipn 16 file)) st)
    by (left; apply is_returned_state; exact Hret).
  destruct (gwsettings_header_never_shows_key _ _ _ _ Hend) as (_ & _ & _ & H).
  split; [vm_compute; reflexivity|].
  rewrite H. vm_compute. reflexivity.
Defined.

(** X11 on a stream cut one byte into its second group: the first group is
    appended again as [41414141_2]. *)
Lemma end_of_input_counts_as_read_witness :
  let g := {| rg_name := "41414141"; rg_size := 8; rg_magic := ascii_bytes "AAAA";
              rg_version := [x00; x01]; rg_payload := [] |} in
  outcome_map (fun r => (fst r, map fst (snd r)))
    (settings_read_loop (E := reference []) 1 true 3
       {| unread := [x00]; eofbit := false; failbit := false |} (Some g) 92 1
       [("41414141"%string, g)])
  = Returned ({| unread := []; eofbit := true; failbit := true |},
              ["41414141"; "41414141_2"]%string).
Proof.
  intros g.
  rewrite (proj2 (end_of_input_counts_as_read (E := reference []) 0 true 3
                    {| unread := [x00]; eofbit := false; failbit := false |} (Some g) 92 1
                    [("41414141"%string, g)] eq_refl eq_refl)
             g "41414141"%string eq_refl (or_introl eq_refl) eq_refl).
  reflexivity.
Defined.

(** X13 on 16 bytes of 0xFF and one byte more, read as permnv: a [permdyn]
    is constructed, of type perm, and its [read] throws. *)
Lemma dispatch_by_first_bytes_witness :
  (1 = type_dyn \/ 1 = type_perm) /\
  m_type (pd_settings (new_permdyn false None)) = type_perm /\
  read_file (fill 16 xff ++ [x00]) 1 None [x2a] = read_file (fill 16 xff ++ [x00]) 1 None [].
Proof.
  assert (Hend : ends_in (read_file (fill 16 xff ++ [x00]) 1 None [x2a])
                         (Some (Permdyn (new_permdyn false None)), []))
    by (right; left; exists "failed to read header"%string; reflexivity).
  destruct (dispatch_by_first_bytes _ _ _ _ _ _ Hend) as ((_ & _ & Ht & Hm & _) & Hk).
  split; [exact Ht|]. split; [exact Hm|exact Hk].
Defined.

(** X10 on AES-256: 99 bytes encrypted with [pad] decrypt to the 99 bytes
    and 16 zero bytes. *)
Lemma decryption_keeps_padding_witness :
  crypt (E := reference [])
    (crypt (E := reference []) (sample_settings ++ [x01; x02; x03]) tc7200_key false true)
    tc7200_key true false
  = (sample_settings ++ [x01; x02; x03]) ++ fill 16 x00.
Proof.
  set (input := (sample_settings ++ [x01; x02; x03]) ++ fill 16 x00).
  set (blocks := chunks_of 7 16 (firstn 112 input)).
  assert (Hlen : forallb (fun b => (List.length b =? 16)%nat) blocks = true)
    by (vm_compute; reflexivity).
  assert (Hcipher :
    forallb (fun b =>
               (List.length (aes256_encrypt_block b (aes256_key_schedule tc7200_key)) =? 16)%nat
               && bytes_eqb (aes256_decrypt_block
                               (aes256_encrypt_block b (aes256_key_schedule tc7200_key))
                               (aes256_key_schedule tc7200_key)) b) blocks = true)
    by (vm_compute; reflexivity).
  refine (proj1 (decryption_keeps_padding (E := reference [])
                   (sample_settings ++ [x01; x02; x03]) tc7200_key true false
                   blocks (skipn 112 input) _ _ _ _)).
  - vm_compute. reflexivity.
  - apply Forall_forall. intros b Hb.
    apply Nat.eqb_eq. exact (proj1 (forallb_forall _ _) Hlen b Hb).
  - vm_compute. lia.
  - apply Forall_forall. intros b Hb.
    pose proof (proj1 (forallb_forall _ _) Hcipher b Hb) as H.
    apply andb_true_iff in H. destruct H as [H1 H2].
    split; [apply Nat.eqb_eq; exact H1|apply bytes_eqb_eq; exact H2].
Defined.

(** X14 at [uint32_t], where the code returns 0 for the number 4294967293
    and the alignment 4, and at 13 and 4. *)
Lemma align_left_right_witness :
  align_left 32 4294967293 4 = 4294967292 /\ align_right 32 4294967293 4 = 0 /\
  (4 | align_left 32 13 4) /\ 0 <= align_left 32 13 4 <= 13 /\ align_right 32 13 4 = 16.
Proof.
  destruct (align_left_right 32 4294967293 4) as (_ & _ & _ & _ & _ & H & _);
    [lia|lia|lia|].
  destruct (align_left_right 32 13 4) as (H1 & H2 & _ & _ & _ & _ & H3 & _);
    [lia|lia|lia|].
  split; [reflexivity|]. split; [rewrite H; reflexivity|].
  split; [exact H1|]. split; [exact H2|]. apply H3. vm_compute. reflexivity.
Defined.

(** X20 on the names [get] splits: two tokens at most, and a string of dots
    kept whole. *)
Lemma split_pushes_fields_witness :
  split (ascii_bytes "wan.ip.addr") x2e false 2
  = Returned [ascii_bytes "wan"; ascii_bytes "ip.addr"] /\
  split (ascii_bytes "wan..ip") x2e false 0
  = Returned [ascii_bytes "wan"; ascii_bytes "ip"] /\
  split (ascii_bytes "..") x2e false 2 = Returned [ascii_bytes ".."].
Proof.
  split; [|split].
  - rewrite (proj1 (split_pushes_fields (ascii_bytes "wan.ip.addr") x2e false 2
                      (not_in_bytes backslash (ascii_bytes "wan.ip.addr") eq_refl))).
    reflexivity.
  - rewrite (proj1 (split_pushes_fields (ascii_bytes "wan..ip") x2e false 0
                      (not_in_bytes backslash (ascii_bytes "wan..ip") eq_refl))).
    reflexivity.
  - apply (proj2 (proj2 (split_pushes_fields (ascii_bytes "..") x2e false 2
                           (not_in_bytes backslash (ascii_bytes "..") eq_refl)))).
    + reflexivity.
    + discriminate.
    + intros c [<-|[<-|[]]]; reflexivity.
Defined.

(** X21 on a string with an empty field, cut at two elements. *)
Lemma split_join_round_trip_witness :
  exists subs,
    split (ascii_bytes "a,,b,c") x2c true 2 = Returned subs /\
    join x2c subs = ascii_bytes "a,,b,c" /\ (List.length subs <= 2)%nat.
Proof.
  destruct (split_join_round_trip (ascii_bytes "a,,b,c") x2c 2) as (subs & H1 & H2 & _ & H3 & _).
  - apply not_in_bytes. reflexivity.
  - exists subs. split; [exact H1|]. split; [exact H2|]. apply H3. lia.
Defined.

Lemma md5_digest_length (msg : bytes) : List.length (md5_digest msg) = 16%nat.
Proof.
  unfold md5_digest. cbv zeta.
  destruct (fold_left md5_block _ _) as [[[a b] c] d].
  rewrite length_map, !length_app, !le_bytes_length. reflexivity.
Qed.


(** X24 on an object holding the two sample groups under the tc7200
    profile: what is written for it is read back with every flag valid. *)
Lemma gwsettings_write_then_read_witness :
  let st := set_settings (E := reference [])
              {| m_groups := sample_groups; m_type := 3; m_permissive := true;
                 m_profile := Some tc7200 |}
              (set_version 1 (new_gwsettings [] (Some tc7200))) in
  exists file,
    gwsettings_write st = Returned file /\
    outcome_map
      (fun c => (m_checksum_valid c, m_magic_valid c, m_size_valid c, m_size c, m_version c,
                 map fst (m_groups (gw_settings c))))
      (gwsettings_read (E := reference []) (new_gwsettings (firstn 16 file) (Some tc7200))
         (skipn 16 file))
    = Returned (true, true, true, 96, 1, ["41414141"; "42424242"]%string).
Proof.
  intros st.
  destruct (gwsettings_write_then_read (E := reference []) st tc7200) as (file & Hw & Hr).
  - reflexivity.
  - reflexivity.
  - reflexivity.
  - cbn. lia.
  - vm_compute. reflexivity.
  - exact md5_digest_length.
  - exists file. split; [exact Hw|].
    rewrite Hr, outcome_map_map. vm_compute. reflexivity.
Defined.
